(** * Multi-agent PPO policy (multi_trainer.py): advantage postprocessing,
      clipped surrogate loss and adaptive KL coefficient.

    The development embeds [compute_gae_for_sample_batch],
    [ppo_surrogate_loss], [kl_and_loss_stats], [ValueNetworkMixin] and
    [KLCoeffMixin] of [multi_trainer.py].  Python floats and tensor entries
    are exact rationals ([Q]), except where the rounding of repeated products
    decides the outcome: the long-run behaviour of the KL coefficient is
    stated on IEEE 754 doubles ([Binary64]).  A [SampleBatch] is a finite map
    from column names to arrays; Python exceptions are an error type threaded
    through a small monad, together with a log of the calls made to the
    external collaborators (the model's forward evaluation and RLlib's
    [compute_advantages]). *)

From Stdlib Require Import QArith Qminmax Lqa Lia SpecFloat.
From stdpp Require Import base option list gmap strings pretty.

Local Open Scope Q_scope.

(** ** Exceptions and results *)

Inductive exn :=
| KeyError (key : string)
| IndexError
| TypeError
| AttributeError
| ValueError
| RuntimeError
| ZeroDivisionError.

Definition result (A : Type) : Type := exn + A.

Definition raise {A} (e : exn) : result A := inl e.

#[global] Instance result_ret : MRet result := λ A x, inr x.
#[global] Instance result_bind : MBind result := λ A B f m,
  match m with
  | inl e => inl e
  | inr x => f x
  end.

(** [for x in xs: acc = f(acc, x)] with exceptions. *)
Fixpoint foldlM {A B} (f : A → B → result A) (acc : A) (xs : list B) : result A :=
  match xs with
  | [] => mret acc
  | x :: xs' => acc' ← f acc x; foldlM f acc' xs'
  end.

(** ** numpy arrays and sample batches *)

(** A value stored in an environment info dict: the per-agent reward
    decomposition (agent id to reward) or some other scalar entry. *)
Inductive info_value :=
| RewardDict (d : gmap Z Q)
| InfoScalar (x : Q).

(** The arrays found in the columns of a batch: float arrays of rank 1 and 2
    (a rank 2 array carries its trailing width, so that shape [(0, n)] is
    represented), sequence lengths, boolean flags, and the object array of
    info dicts. *)
Inductive ndarray :=
| Float1 (xs : list Q)
| Float2 (width : nat) (rows : list (list Q))
| Int1 (ns : list nat)
| Bool1 (bs : list bool)
| Infos (dicts : list (gmap string info_value)).

Abbreviation SampleBatch := (gmap string ndarray).

(** Column names ([SampleBatch.*] and [Postprocessing.*] in RLlib). *)
Definition INFOS : string := "infos".
Definition ACTIONS : string := "actions".
Definition REWARDS : string := "rewards".
Definition VF_PREDS : string := "vf_preds".
Definition DONES : string := "dones".
Definition NEXT_OBS : string := "new_obs".
Definition ACTION_LOGP : string := "action_logp".
Definition ADVANTAGES : string := "advantages".
Definition VALUE_TARGETS : string := "value_targets".

(** [d[k]] *)
Definition getitem {V} (d : gmap string V) (k : string) : result V :=
  match d !! k with
  | Some v => mret v
  | None => raise (KeyError k)
  end.

(** [a.dtype == "float32"]: the sampler stores float columns as float32. *)
Definition dtype_is_float32 (a : ndarray) : bool :=
  match a with
  | Float1 _ | Float2 _ _ => true
  | Int1 _ | Bool1 _ | Infos _ => false
  end.

(** [a[:, i]] *)
Definition column (a : ndarray) (i : nat) : result ndarray :=
  match a with
  | Float2 w rows =>
      if (i <? w)%nat then mret (Float1 (map (λ r, nth i r 0) rows))
      else raise IndexError
  | _ => raise IndexError
  end.

(** [a[:, lo:hi]]: a slice is clipped to the array, it never raises on a
    rank 2 array. *)
Definition slice_columns (a : ndarray) (lo hi : nat) : result ndarray :=
  match a with
  | Float2 w rows =>
      mret (Float2 (Nat.min hi w - Nat.min lo w)
                   (map (λ r, take (hi - lo) (drop lo r)) rows))
  | _ => raise IndexError
  end.

(** [if a[-1]:] the truth value of the last entry. *)
Definition last_truth (a : ndarray) : result bool :=
  match a with
  | Bool1 bs =>
      match last bs with Some b => mret b | None => raise IndexError end
  | Float1 xs =>
      match last xs with
      | Some x => mret (negb (Qeq_bool x 0))
      | None => raise IndexError
      end
  | Float2 _ rows =>
      match last rows with
      | Some [x] => mret (negb (Qeq_bool x 0))
      | Some _ => raise ValueError
      | None => raise IndexError
      end
  | Int1 ns =>
      match last ns with
      | Some n => mret (negb (n =? 0)%nat)
      | None => raise IndexError
      end
  | Infos dicts =>
      match last dicts with
      | Some d => mret (negb (bool_decide (d = ∅)))
      | None => raise IndexError
      end
  end.

(** [np.stack(arrays, axis=-1)] on arrays of rank 1, the rank of every column
    the postprocessor stacks on a well-formed segment: entry [t] of the
    result holds entry [t] of each array.  Arrays of different shapes are
    rejected (as is, here, any array of another rank). *)
Definition np_stack (arrays : list ndarray) : result ndarray :=
  cols ← mapM (λ a, match a with Float1 xs => mret xs | _ => raise ValueError end) arrays;
  match cols with
  | [] => raise ValueError
  | c0 :: _ =>
      if forallb (λ c, length c =? length c0)%nat cols then
        mret (Float2 (length cols)
                     (map (λ t, map (λ c, nth t c 0) cols) (seq 0 (length c0))))
      else raise ValueError
  end.

(** *** Deserialising the info side channel *)

(** [SampleBatch({k: [v] for k, v in s.items()})]: a batch of one row; the
    constructor rejects a batch without columns. *)
Definition SampleBatch_row {V} (s : gmap string V) : result (gmap string V) :=
  if bool_decide (s = ∅) then raise ValueError else mret s.

(** [SampleBatch.concat_samples] on one-row batches: the columns are those of
    the first batch, and every batch must have each of them. *)
Definition concat_samples {V} (samples : list (gmap string V)) : result (gmap string (list V)) :=
  match samples with
  | [] => raise IndexError
  | s0 :: _ =>
      cols ← mapM (λ k, vs ← mapM (λ s : gmap string V, getitem s k) samples; mret (k, vs))
                  (map_to_list s0).*1;
      mret (list_to_map cols)
  end.

(** The dict entries of an array, for [for s in a: s.items()]. *)
Definition iter_dicts (a : ndarray) : result (list (gmap string info_value)) :=
  match a with
  | Infos dicts => mret dicts
  | Float1 [] | Float2 _ [] | Int1 [] | Bool1 [] => mret []
  | _ => raise AttributeError
  end.

(** [{str(k): [v] for k, v in s.items()}] for an entry of the "rewards"
    column. *)
Definition reward_row (v : info_value) : result (gmap string Q) :=
  match v with
  | RewardDict d => SampleBatch_row (list_to_map (prod_map pretty id <$> map_to_list d))
  | InfoScalar _ => raise AttributeError
  end.

(** Lines 57-71: [samplebatch_infos_rewards], [None] when the info column is
    the float32 placeholder. *)
Definition decomposed_rewards (infos : ndarray) : result (option SampleBatch) :=
  if dtype_is_float32 infos then mret None
  else
    dicts ← iter_dicts infos;
    rows ← mapM SampleBatch_row dicts;
    samplebatch_infos ← concat_samples rows;
    rewards ← getitem samplebatch_infos "rewards";
    reward_rows ← mapM reward_row rewards;
    samplebatch_infos_rewards ← concat_samples reward_rows;
    mret (Some (Float1 <$> samplebatch_infos_rewards)).

(** ** The policy and its collaborators *)

(** The part of the trainer configuration read by the policy. [use_critic]
    is optional: the postprocessor reads it with
    [policy.config.get("use_critic", True)]. *)
Record Config := {
  gamma : Q;
  lambda : Q;
  use_gae : bool;
  _use_trajectory_view_api : bool;
  use_critic : option bool;
  clip_param : Q;
  vf_clip_param : Q;
  vf_loss_coeff : Q;
  config_kl_coeff : Q;
  config_kl_target : Q;
}.

(** ** Adaptive KL coefficient ([KLCoeffMixin]) *)

Record KLCoeffMixin := {
  kl_coeff : Q;
  kl_target : Q;
}.

(** [KLCoeffMixin.__init__] *)
Definition KLCoeffMixin_init (config : Config) : KLCoeffMixin :=
  {| kl_coeff := config_kl_coeff config; kl_target := config_kl_target config |}.

(** [KLCoeffMixin.update_kl]: the updated object and the returned value. *)
Definition update_kl (self : KLCoeffMixin) (sampled_kl : Q) : KLCoeffMixin * Q :=
  let self' :=
    if Qlt_le_dec (2 * kl_target self) sampled_kl then
      {| kl_coeff := kl_coeff self * (3 # 2); kl_target := kl_target self |}
    else if Qlt_le_dec sampled_kl ((1 # 2) * kl_target self) then
      {| kl_coeff := kl_coeff self * (1 # 2); kl_target := kl_target self |}
    else self in
  (self', kl_coeff self').

(** *** The controller on double-precision floats

    [kl_coeff] is a Python float, an IEEE 754 binary64 number, and
    [update_kl] multiplies it again and again: over many training steps the
    rounding of these products decides what becomes of the coefficient.  Here
    the controller is run on binary64 numbers ([spec_float] with 53 bits of
    precision and exponents below 1024): [*] is [SFmul] and [<], [>] and
    [==] are [SFltb] and [SFeqb]. *)
Module Binary64.

Definition float : Set := spec_float.

Definition mul : float → float → float := SFmul 53 1024.
Definition less : float → float → bool := SFltb.
Definition equal : float → float → bool := SFeqb.

(** The double nearest to [m * 2^e]: [dyadic 3 (-1)] is the literal [1.5],
    [dyadic 1 (-1)] is [0.5] and [dyadic 1 1] is [2.0]. *)
Definition dyadic (m : positive) (e : Z) : float := binary_round 53 1024 false m e.

Definition zero : float := S754_zero false.

Record KLCoeffMixin := {
  kl_coeff : float;
  kl_target : float;
}.

(** [KLCoeffMixin.update_kl]: the updated object and the returned value. *)
Definition update_kl (self : KLCoeffMixin) (sampled_kl : float) : KLCoeffMixin * float :=
  let self' :=
    if less (mul (dyadic 1 1) (kl_target self)) sampled_kl then
      {| kl_coeff := mul (kl_coeff self) (dyadic 3 (-1)); kl_target := kl_target self |}
    else if less sampled_kl (mul (dyadic 1 (-1)) (kl_target self)) then
      {| kl_coeff := mul (kl_coeff self) (dyadic 1 (-1)); kl_target := kl_target self |}
    else self in
  (self', kl_coeff self').

(** The controller after a sequence of training steps, one measured KL each. *)
Definition update_kl_steps (self : KLCoeffMixin) (kls : list float) : KLCoeffMixin :=
  fold_left (λ s kl, fst (update_kl s kl)) kls self.

(** A number with sign bit [s]: a zero, a finite number or an infinity with
    that sign, not a NaN. *)
Definition signed (s : bool) (x : float) : Prop :=
  match x with
  | S754_zero s' | S754_infinity s' | S754_finite s' _ _ => s' = s
  | S754_nan => False
  end.

(** The doubles of the literals [0.2], [0.01], [0.001] and [0.03]. *)
Definition d0_2 : float := dyadic 3602879701896397 (-54).
Definition d0_01 : float := dyadic 5764607523034235 (-59).
Definition d0_001 : float := dyadic 1152921504606847 (-60).
Definition d0_03 : float := dyadic 1080863910568919 (-55).

End Binary64.

(** ** The policy object *)

(** The [index] argument of [model.get_input_dict]: a position in the batch
    or a string such as ["last"]. *)
Inductive batch_index :=
| IndexInt (t : Z)
| IndexStr (s : string).

(** The policy as the postprocessor and the loss see it.  The model is an
    external collaborator: [get_input_dict] stands for
    [policy.model.get_input_dict(sample_batch, index)], [value_function] for
    the value head [model.value_function()[0]] read after
    [model.from_batch(input_dict)], and [call_value] for the same value head
    read after the direct call [model(input_dict, state, seq_lens)] on one
    observation, previous action and previous reward.  [kl] is the state
    installed by [KLCoeffMixin] and [entropy_coeff] the one installed by
    RLlib's [EntropyCoeffSchedule]. *)
Record Policy := {
  config : Config;
  num_state_tensors : nat;
  get_input_dict : SampleBatch → batch_index → SampleBatch;
  value_function : SampleBatch → list Q;
  call_value : ndarray → ndarray → ndarray → list ndarray → list Q;
  kl : KLCoeffMixin;
  entropy_coeff : Q;
}.

(** Python values of more than one type at the same program point. *)
Inductive scalar :=
| Num (x : Q)
| NaN.

Inductive pyval :=
| PyFloat (x : Q)
| Tensor0 (x : scalar)
| Tensor1 (xs : list Q).

(** [v[i]] *)
Definition index (v : pyval) (i : nat) : result Q :=
  match v with
  | PyFloat _ => raise TypeError
  | Tensor0 _ => raise IndexError
  | Tensor1 xs =>
      match xs !! i with
      | Some x => mret x
      | None => raise IndexError
      end
  end.

(** *** Calls to the collaborators *)

(** What the postprocessor asks of its collaborators, in order: a forward
    evaluation of the model, through [model.from_batch] or through a direct
    call of the model, and a call of [compute_advantages]. *)
Inductive event :=
| Forward (input_dict : SampleBatch)
| ModelCall (ob prev_action prev_reward : ndarray) (state : list ndarray)
| ComputeAdvantages (rollout : SampleBatch) (last_r : Q).

(** Computations over a state [S] that may raise; the state reached when
    the exception is raised is kept. *)
Definition M (S A : Type) : Type := S → S * result A.

#[global] Instance M_ret {S} : MRet (M S) := λ A x st, (st, inr x).
#[global] Instance M_bind {S} : MBind (M S) := λ A B f m st,
  match m st with
  | (st', inl e) => (st', inl e)
  | (st', inr x) => f x st'
  end.

Definition lift {S A} (r : result A) : M S A := λ st, (st, r).
Definition tell (e : event) : M (list event) () := λ log, (log ++ [e], inr ()).
Definition run {A} (m : M (list event) A) : list event * result A := m [].

(** Binding the call of [value] with the entries of [input_dict] as keyword
    arguments to the signature [value(ob, prev_action, prev_reward, *state)]:
    each of the three named parameters must be a key of the dict, and the
    dict may have no other key (a keyword never reaches [*state], which stays
    empty).  Python raises [TypeError] for a missing argument and for an
    unexpected keyword alike. *)
Definition bind_value_arguments (input_dict : SampleBatch) :
    result (ndarray * ndarray * ndarray) :=
  match input_dict !! "ob", input_dict !! "prev_action", input_dict !! "prev_reward" with
  | Some ob, Some prev_action, Some prev_reward =>
      if bool_decide (size input_dict = 3%nat) then mret (ob, prev_action, prev_reward)
      else raise TypeError
  | _, _, _ => raise TypeError
  end.

(** [ValueNetworkMixin]: the [_value] method installed on the policy, called
    with the entries of [input_dict] as keyword arguments.  With GAE it
    performs a forward evaluation of the model and returns the value head
    without its batch dimension: through [from_batch] on the whole input dict
    when [_use_trajectory_view_api] is set, and otherwise through a direct
    call of the model on the arguments [ob], [prev_action] and [prev_reward],
    with no recurrent state.  Without GAE it is the constant [0.0], whatever
    the arguments. *)
Definition _value (policy : Policy) (input_dict : SampleBatch) : M (list event) pyval :=
  if use_gae (config policy) then
    if _use_trajectory_view_api (config policy) then
      _ ← tell (Forward input_dict);
      mret (Tensor1 (value_function policy input_dict))
    else
      args ← lift (bind_value_arguments input_dict);
      let '(ob, prev_action, prev_reward) := args in
      _ ← tell (ModelCall ob prev_action prev_reward []);
      mret (Tensor1 (call_value policy ob prev_action prev_reward []))
  else mret (PyFloat 0).

(** ** Trajectory postprocessor ([compute_gae_for_sample_batch]) *)

Section Postprocessor.

(** RLlib's [compute_advantages(rollout, last_r, gamma, lambda_, use_gae,
    use_critic)], an external function: it returns the rollout with its
    advantage columns added, or raises. *)
Variable compute_advantages :
  SampleBatch → Q → Q → Q → bool → bool → result SampleBatch.

(** The loop over the agents iterates, in the source, over the keys ["0"],
    ["1"], ["2"] and converts with [int(i)]; here [i] is the number and
    [pretty i] the key. *)

(** Lines 84-96: [sample_batch_agent]. *)
Definition agent_sample_batch (sample_batch : SampleBatch)
    (samplebatch_infos_rewards : option SampleBatch) (i : nat) : result SampleBatch :=
  rewards ← match samplebatch_infos_rewards with
            | Some r => getitem r (pretty i)
            | None => getitem sample_batch INFOS
            end;
  let sample_batch_agent := <[REWARDS := rewards]> sample_batch in
  actions ← getitem sample_batch ACTIONS;
  actions_i ← slice_columns actions i (i + 1);
  let sample_batch_agent := <[ACTIONS := actions_i]> sample_batch_agent in
  vf_preds ← getitem sample_batch VF_PREDS;
  vf_preds_i ← column vf_preds i;
  mret (<[VF_PREDS := vf_preds_i]> sample_batch_agent).

(** Lines 98-109: [last_r]. *)
Definition last_r (policy : Policy) (sample_batch : SampleBatch) (i : nat) :
    M (list event) Q :=
  dones ← lift (getitem sample_batch DONES);
  done ← lift (last_truth dones);
  if done : bool then mret 0
  else
    let input_dict := get_input_dict policy sample_batch (IndexStr "last") in
    v ← _value policy input_dict;
    lift (index v i).

(** The body of the loop over the agents (lines 84-122). *)
Definition agent_batch (policy : Policy) (sample_batch : SampleBatch)
    (samplebatch_infos_rewards : option SampleBatch) (i : nat) :
    M (list event) SampleBatch :=
  sample_batch_agent ← lift (agent_sample_batch sample_batch samplebatch_infos_rewards i);
  r ← last_r policy sample_batch i;
  _ ← tell (ComputeAdvantages sample_batch_agent r);
  lift (compute_advantages sample_batch_agent r
          (gamma (config policy)) (lambda (config policy))
          (use_gae (config policy))
          (default true (use_critic (config policy)))).

(** [sample_batch[k] = np.stack([b[k] for b in batches], axis=-1)] *)
Definition overwrite_stacked (batches : list SampleBatch)
    (sample_batch : SampleBatch) (k : string) : result SampleBatch :=
  cols ← mapM (λ b : SampleBatch, getitem b k) batches;
  stacked ← np_stack cols;
  mret (<[k := stacked]> sample_batch).

Definition compute_gae_for_sample_batch (policy : Policy)
    (sample_batch : SampleBatch) : M (list event) SampleBatch :=
  infos ← lift (getitem sample_batch INFOS);
  samplebatch_infos_rewards ← lift (decomposed_rewards infos);
  _ ← lift (mapM (λ j : nat, getitem sample_batch ("state_out_" +:+ pretty j))
                 (seq 0 (num_state_tensors policy)));
  _ ← lift (getitem sample_batch NEXT_OBS);
  _ ← lift (getitem sample_batch ACTIONS);
  _ ← lift (getitem sample_batch REWARDS);
  batches ← mapM (agent_batch policy sample_batch samplebatch_infos_rewards)
                 [0; 1; 2]%nat;
  lift (foldlM (overwrite_stacked batches) sample_batch
               [REWARDS; VF_PREDS; ADVANTAGES; VALUE_TARGETS]).

End Postprocessor.

(** *** Advantage estimation *)

(** Generalised advantage recurrence, walking the segment backward:
    [delta[t] = reward[t] + gamma * V[t+1] - V[t]] with [V[T] = last_r], and
    [advantage[t] = delta[t] + gamma * lambda * advantage[t+1]] with
    [advantage[T] = 0]. *)
Fixpoint gae_advantages (γ λ_ last_r : Q) (rewards values : list Q) : list Q :=
  match rewards, values with
  | r :: rs, v :: vs =>
      let rest := gae_advantages γ λ_ last_r rs vs in
      (r + γ * hd last_r vs - v + γ * λ_ * hd 0 rest) :: rest
  | _, _ => []
  end.

(** Cumulative discounted reward from [t] to the bootstrap value. *)
Fixpoint discounted_returns (γ last_r : Q) (rewards : list Q) : list Q :=
  match rewards with
  | [] => []
  | r :: rs =>
      let rest := discounted_returns γ last_r rs in
      (r + γ * hd last_r rest) :: rest
  end.

(** Modelled from the spec: RLlib's [compute_advantages] is imported by
    [multi_trainer.py] and not part of it; this is the recurrence of the
    postprocessor's step 2c-2d, on reward and value columns of rank 1 and
    equal length (other shapes are rejected). *)
Definition compute_advantages_spec (rollout : SampleBatch) (last_r γ λ_ : Q)
    (use_gae use_critic : bool) : result SampleBatch :=
  rewards ← getitem rollout REWARDS;
  vf_preds ← getitem rollout VF_PREDS;
  match rewards, vf_preds with
  | Float1 rs, Float1 vs =>
      if (length rs =? length vs)%nat then
        let V := if use_critic then vs else map (λ _, 0) vs in
        let returns := discounted_returns γ last_r rs in
        let advantages :=
          if use_gae then gae_advantages γ λ_ last_r rs V
          else zip_with Qminus returns V in
        let value_targets :=
          if use_critic then zip_with Qplus advantages V else returns in
        mret (<[VALUE_TARGETS := Float1 value_targets]>
                (<[ADVANTAGES := Float1 advantages]> rollout))
      else raise ValueError
  | _, _ => raise ValueError
  end.

(** ** Surrogate loss evaluator ([ppo_surrogate_loss]) *)

(** *** Tensors *)

(** Tensors of rank 1 are lists of rationals.  A reduction of a tensor
    to a rank 0 tensor is a [scalar]: a mean over no element is [NaN]. *)
Definition sum_list (t : list Q) : Q := fold_right Qplus 0 t.

Definition mean_of (total : Q) (count : nat) : scalar :=
  if (count =? 0)%nat then NaN else Num (total / inject_Z (Z.of_nat count)).

Definition scalar_add (a b : scalar) : scalar :=
  match a, b with
  | Num x, Num y => Num (x + y)
  | _, _ => NaN
  end.

Definition scalar_div_nat (a : scalar) (n : nat) : scalar :=
  match a with
  | Num x => mean_of x n
  | NaN => NaN
  end.

(** [torch.mean(t)] and [torch.sum(t)] on rank 1 tensors. *)
Definition torch_mean (t : list Q) : scalar := mean_of (sum_list t) (length t).
Definition torch_sum_scalars (t : list scalar) : scalar := fold_right scalar_add (Num 0) t.
Definition torch_mean_scalars (t : list scalar) : scalar :=
  scalar_div_nat (torch_sum_scalars t) (length t).

(** [torch.stack(values)] on rank 0 tensors: every element must be a tensor
    and there must be at least one. *)
Definition torch_stack (values : list pyval) : result (list scalar) :=
  match values with
  | [] => raise RuntimeError
  | _ => mapM (λ v, match v with Tensor0 x => mret x | _ => raise TypeError end) values
  end.

(** [torch.clamp(x, lo, hi)] *)
Definition clamp (x lo hi : Q) : Q := Qmin (Qmax x lo) hi.

(** [a[:, i]] and [a[..., i]] on a tensor of rank 2, as a rank 1 tensor. *)
Definition tensor_column (a : ndarray) (i : nat) : result (list Q) :=
  c ← column a i;
  match c with
  | Float1 xs => mret xs
  | _ => raise IndexError
  end.

(** [torch.sum(a, axis=1)] *)
Definition sum_axis1 (a : ndarray) : result (list Q) :=
  match a with
  | Float2 _ rows => mret (map sum_list rows)
  | _ => raise IndexError
  end.

(** [len(a[0])] *)
Definition len_first_row (a : ndarray) : result nat :=
  match a with
  | Float2 w (_ :: _) => mret w
  | Float2 _ [] => raise IndexError
  | Float1 [] | Int1 [] | Bool1 [] | Infos [] => raise IndexError
  | _ => raise TypeError
  end.

(** RLlib's [sequence_mask(lengths, maxlen, time_major)], an external
    function: entry [(b, t)] tells whether step [t] of sequence [b] is real
    data, [t < lengths[b]]; the mask has shape [(B, maxlen)], or
    [(maxlen, B)] when time-major. *)
Definition sequence_mask (lengths : list nat) (maxlen : nat) (time_major : bool) :
    list (list bool) :=
  if time_major then
    map (λ t, map (λ len, (t <? len)%nat) lengths) (seq 0 maxlen)
  else
    map (λ len, map (λ t, (t <? len)%nat) (seq 0 maxlen)) lengths.

(** [t[mask]] *)
Definition masked_select (t : list Q) (mask : list bool) : list Q :=
  (zip t mask ≫= λ '(x, b), if b : bool then [x] else []).

(** What the model and the action distributions return for the train batch:
    [logits.shape[0]] and the recurrent state of [model.from_batch], whether
    the model is time-major, [curr_action_dist.logp(actions)],
    [curr_action_dist.entropy()], [prev_action_dist.kl(curr_action_dist)] and
    [model.value_function()]. *)
Record ForwardOut := {
  logits_rows : nat;
  state : list ndarray;
  is_time_major : bool;
  logp : ndarray;
  entropy : ndarray;
  action_kl : ndarray;
  value_fn_out : ndarray;
}.

(** The statistics the loss stores on the policy; [None] is an attribute that
    has not been assigned.  ([_total_loss] is a 1-tuple in the source.) *)
Record Stats := {
  _total_loss : option scalar;
  _mean_policy_loss : option scalar;
  _mean_vf_loss : option scalar;
  _mean_entropy : option scalar;
  _vf_explained_var : option scalar;
  _mean_kl : option scalar;
}.

Definition no_stats : Stats :=
  {| _total_loss := None; _mean_policy_loss := None; _mean_vf_loss := None;
     _mean_entropy := None; _vf_explained_var := None; _mean_kl := None |}.

Definition set_total_loss (x : scalar) : M Stats () := λ st,
  ({| _total_loss := Some x; _mean_policy_loss := _mean_policy_loss st;
      _mean_vf_loss := _mean_vf_loss st; _mean_entropy := _mean_entropy st;
      _vf_explained_var := _vf_explained_var st; _mean_kl := _mean_kl st |}, inr ()).
Definition set_mean_policy_loss (x : scalar) : M Stats () := λ st,
  ({| _total_loss := _total_loss st; _mean_policy_loss := Some x;
      _mean_vf_loss := _mean_vf_loss st; _mean_entropy := _mean_entropy st;
      _vf_explained_var := _vf_explained_var st; _mean_kl := _mean_kl st |}, inr ()).
Definition set_mean_vf_loss (x : scalar) : M Stats () := λ st,
  ({| _total_loss := _total_loss st; _mean_policy_loss := _mean_policy_loss st;
      _mean_vf_loss := Some x; _mean_entropy := _mean_entropy st;
      _vf_explained_var := _vf_explained_var st; _mean_kl := _mean_kl st |}, inr ()).
Definition set_mean_entropy (x : scalar) : M Stats () := λ st,
  ({| _total_loss := _total_loss st; _mean_policy_loss := _mean_policy_loss st;
      _mean_vf_loss := _mean_vf_loss st; _mean_entropy := Some x;
      _vf_explained_var := _vf_explained_var st; _mean_kl := _mean_kl st |}, inr ()).
Definition set_vf_explained_var (x : scalar) : M Stats () := λ st,
  ({| _total_loss := _total_loss st; _mean_policy_loss := _mean_policy_loss st;
      _mean_vf_loss := _mean_vf_loss st; _mean_entropy := _mean_entropy st;
      _vf_explained_var := Some x; _mean_kl := _mean_kl st |}, inr ()).
Definition set_mean_kl (x : scalar) : M Stats () := λ st,
  ({| _total_loss := _total_loss st; _mean_policy_loss := _mean_policy_loss st;
      _mean_vf_loss := _mean_vf_loss st; _mean_entropy := _mean_entropy st;
      _vf_explained_var := _vf_explained_var st; _mean_kl := Some x |}, inr ()).

(** One entry of [loss_data]. *)
Record LossData := {
  total_loss : pyval;
  mean_policy_loss : pyval;
  mean_vf_loss : pyval;
  mean_entropy : pyval;
}.

(** *** The mask and the mean over valid positions (lines 153-170) *)

(** [mask], [None] in the non-RNN case. *)
Definition valid_mask (fwd : ForwardOut) (train_batch : SampleBatch) :
    result (option (list bool)) :=
  if bool_decide (state fwd = []) then mret None
  else
    seq_lens ← getitem train_batch "seq_lens";
    match seq_lens with
    | Int1 lens =>
        let B := length lens in
        if (B =? 0)%nat then raise ZeroDivisionError
        else
          let max_seq_len := (logits_rows fwd / B)%nat in
          mret (Some (concat (sequence_mask lens max_seq_len (is_time_major fwd))))
    | _ => raise TypeError
    end.

(** [reduce_mean_valid], the closure over [mask] and [num_valid]. *)
Definition reduce_mean_valid (mask : option (list bool)) (t : list Q) : result scalar :=
  match mask with
  | Some mask =>
      let num_valid := count_occ bool_dec mask true in
      if (length mask =? length t)%nat then
        mret (mean_of (sum_list (masked_select t mask)) num_valid)
      else raise IndexError
  | None => mret (torch_mean t)
  end.

(** *** The per-timestep terms of one agent's loss *)

(** Tensors combined elementwise have the same length on a train batch, whose
    columns all have one row per timestep. *)
Definition surrogate_term (clip advantage logp_ratio : Q) : Q :=
  Qmin (advantage * logp_ratio)
       (advantage * clamp logp_ratio (1 - clip) (1 + clip)).

Definition surrogate (clip : Q) (advantages logp_ratio : list Q) : list Q :=
  zip_with (surrogate_term clip) advantages logp_ratio.

(** An entry of [-surrogate_loss], the tensor averaged into
    [mean_policy_loss]. *)
Definition policy_loss_term (clip advantage logp_ratio : Q) : Q :=
  - surrogate_term clip advantage logp_ratio.

Definition value_loss (vf_clip : Q) (prev_value_fn_out value_fn_out value_targets : list Q) :
    list Q :=
  let vf_loss1 := zip_with (λ v t, (v - t) ^ 2) value_fn_out value_targets in
  let vf_clipped :=
    zip_with (λ p v, p + clamp (v - p) (- vf_clip) vf_clip)
             prev_value_fn_out value_fn_out in
  let vf_loss2 := zip_with (λ c t, (c - t) ^ 2) vf_clipped value_targets in
  zip_with Qmax vf_loss1 vf_loss2.

(** The tensors averaged into [total_loss], with and without the value
    term. *)
Definition total_terms_gae (kl_coeff vf_loss_coeff entropy_coeff : Q)
    (surrogate_loss action_kl vf_loss curr_entropy : list Q) : list Q :=
  zip_with (λ x e, x - entropy_coeff * e)
    (zip_with (λ x v, x + vf_loss_coeff * v)
       (zip_with (λ s k, - s + kl_coeff * k) surrogate_loss action_kl)
       vf_loss)
    curr_entropy.

Definition total_terms_no_gae (kl_coeff entropy_coeff : Q)
    (surrogate_loss action_kl curr_entropy : list Q) : list Q :=
  zip_with (λ x e, x - entropy_coeff * e)
    (zip_with (λ s k, - s + kl_coeff * k) surrogate_loss action_kl)
    curr_entropy.

Section Loss.

(** [torch.exp] on one entry, and RLlib's [explained_variance]; both are
    external. *)
Variable exp : Q → Q.
Variable explained_variance : ndarray → ndarray → scalar.

(** The body of the loop over the agents (lines 182-226), given the mean
    to use. *)
Definition agent_loss (reduce_mean_valid : list Q → result scalar)
    (policy : Policy) (fwd : ForwardOut) (train_batch : SampleBatch) (i : nat) :
    result LossData :=
  curr_logp ← tensor_column (logp fwd) i;
  action_logp ← getitem train_batch ACTION_LOGP;
  prev_logp ← tensor_column action_logp i;
  let logp_ratio := zip_with (λ c p, exp (c - p)) curr_logp prev_logp in
  curr_entropy ← tensor_column (entropy fwd) i;
  mean_entropy ← reduce_mean_valid curr_entropy;
  advantages ← getitem train_batch ADVANTAGES;
  advantages_i ← tensor_column advantages i;
  let surrogate_loss :=
    surrogate (clip_param (config policy)) advantages_i logp_ratio in
  mean_policy_loss ← reduce_mean_valid (map Qopp surrogate_loss);
  if use_gae (config policy) then
    vf_preds ← getitem train_batch VF_PREDS;
    prev_value_fn_out ← tensor_column vf_preds i;
    value_fn_out_i ← tensor_column (value_fn_out fwd) i;
    value_targets ← getitem train_batch VALUE_TARGETS;
    value_targets_i ← tensor_column value_targets i;
    let vf_loss :=
      value_loss (vf_clip_param (config policy))
                 prev_value_fn_out value_fn_out_i value_targets_i in
    mean_vf_loss ← reduce_mean_valid vf_loss;
    action_kl_i ← tensor_column (action_kl fwd) i;
    total_loss ← reduce_mean_valid
      (total_terms_gae (kl_coeff (kl policy)) (vf_loss_coeff (config policy))
         (entropy_coeff policy) surrogate_loss action_kl_i vf_loss curr_entropy);
    mret {| total_loss := Tensor0 total_loss;
            mean_policy_loss := Tensor0 mean_policy_loss;
            mean_vf_loss := Tensor0 mean_vf_loss;
            mean_entropy := Tensor0 mean_entropy |}
  else
    action_kl_i ← tensor_column (action_kl fwd) i;
    total_loss ← reduce_mean_valid
      (total_terms_no_gae (kl_coeff (kl policy)) (entropy_coeff policy)
         surrogate_loss action_kl_i curr_entropy);
    mret {| total_loss := Tensor0 total_loss;
            mean_policy_loss := Tensor0 mean_policy_loss;
            mean_vf_loss := PyFloat 0;
            mean_entropy := Tensor0 mean_entropy |}.

(** Lines 172-243, given the mean to use. *)
Definition loss_with_mean (reduce_mean_valid : list Q → result scalar)
    (policy : Policy) (fwd : ForwardOut) (train_batch : SampleBatch) : M Stats scalar :=
  kl_sums ← lift (sum_axis1 (action_kl fwd));
  mean_kl ← lift (reduce_mean_valid kl_sums);
  vf_preds ← lift (getitem train_batch VF_PREDS);
  agents ← lift (len_first_row vf_preds);
  loss_data ← lift (mapM (agent_loss reduce_mean_valid policy fwd train_batch)
                         (seq 0 agents));
  total_losses ← lift (torch_stack (total_loss <$> loss_data));
  let total := torch_sum_scalars total_losses in
  _ ← set_total_loss total;
  policy_losses ← lift (torch_stack (mean_policy_loss <$> loss_data));
  _ ← set_mean_policy_loss (torch_mean_scalars policy_losses);
  vf_losses ← lift (torch_stack (mean_vf_loss <$> loss_data));
  _ ← set_mean_vf_loss (torch_mean_scalars vf_losses);
  entropies ← lift (torch_stack (mean_entropy <$> loss_data));
  _ ← set_mean_entropy (torch_mean_scalars entropies);
  value_targets ← lift (getitem train_batch VALUE_TARGETS);
  _ ← set_vf_explained_var (explained_variance value_targets (value_fn_out fwd));
  _ ← set_mean_kl mean_kl;
  mret total.

Definition ppo_surrogate_loss (policy : Policy) (fwd : ForwardOut)
    (train_batch : SampleBatch) : M Stats scalar :=
  mask ← lift (valid_mask fwd train_batch);
  loss_with_mean (reduce_mean_valid mask) policy fwd train_batch.

End Loss.

(** ** The statistics function ([kl_and_loss_stats]) *)

(** The values of the statistics dict: Python floats, rank 0 tensors, and
    the 1-tuple holding a rank 0 tensor that the loss assigns to
    [policy._total_loss] (and returns). *)
Inductive stat :=
| StatFloat (x : Q)
| StatTensor (x : scalar)
| StatTuple (x : scalar).

(** [policy.<attr>] for a statistic of the loss: an attribute that was never
    assigned raises. *)
Definition getattr (x : option scalar) : result scalar :=
  match x with
  | Some v => mret v
  | None => raise AttributeError
  end.

(** [kl_and_loss_stats]: the statistics reported after a training step, read
    from the policy.  [cur_lr] is the attribute kept by RLlib's
    [LearningRateSchedule]; the train batch is not read. *)
Definition kl_and_loss_stats (policy : Policy) (cur_lr : Q) (stats : Stats) :
    result (gmap string stat) :=
  total_loss ← getattr (_total_loss stats);
  policy_loss ← getattr (_mean_policy_loss stats);
  vf_loss ← getattr (_mean_vf_loss stats);
  vf_explained_var ← getattr (_vf_explained_var stats);
  mean_kl ← getattr (_mean_kl stats);
  mean_entropy ← getattr (_mean_entropy stats);
  mret (<["cur_kl_coeff" := StatFloat (kl_coeff (kl policy))]>
       (<["cur_lr" := StatFloat cur_lr]>
       (<["total_loss" := StatTuple total_loss]>
       (<["policy_loss" := StatTensor policy_loss]>
       (<["vf_loss" := StatTensor vf_loss]>
       (<["vf_explained_var" := StatTensor vf_explained_var]>
       (<["kl" := StatTensor mean_kl]>
       (<["entropy" := StatTensor mean_entropy]>
       {[ "entropy_coeff" := StatFloat (entropy_coeff policy) ]})))))))).


(** ** Stacking along a trailing axis, as the data model words it *)

(** Three sequences of length [T] stacked along a new trailing axis: an
    array of shape [(T, 3)] whose row [t] holds entry [t] of each. *)
Definition stacked (c0 c1 c2 : list Q) : ndarray :=
  Float2 3 (map (λ t, [nth t c0 0; nth t c1 0; nth t c2 0]) (seq 0 (length c0))).

(** [x] is column [k] of the three batches, stacked. *)
Definition stacked_from (b0 b1 b2 : SampleBatch) (k : string) (x : ndarray) : Prop :=
  ∃ c0 c1 c2,
    b0 !! k = Some (Float1 c0) ∧ b1 !! k = Some (Float1 c1) ∧
    b2 !! k = Some (Float1 c2) ∧
    length c1 = length c0 ∧ length c2 = length c0 ∧
    x = stacked c0 c1 c2.

(** ** Means and agents, as the loss evaluator's contract words them *)

(** Equality of rank 0 tensors, up to equality of rationals. *)
Definition scalar_eq (a b : scalar) : Prop :=
  match a, b with
  | Num x, Num y => x == y
  | NaN, NaN => True
  | _, _ => False
  end.

Definition scalar_scale (c : Q) (a : scalar) : scalar :=
  match a with
  | Num x => Num (c * x)
  | NaN => NaN
  end.

(** The mean over valid positions: the sum of the tensor over the positions
    the mask selects, divided by the number of selected positions. *)
Definition mean_over_valid (mask : list bool) (t : list Q) : scalar :=
  mean_of (sum_list (zip_with (λ (b : bool) x, if b then x else 0) mask t))
          (length (filter (λ b : bool, b = true) mask)).

(** The unweighted mean over all positions. *)
Definition unweighted_mean (t : list Q) : scalar :=
  mean_of (sum_list t) (length t).

(** Position [p] of the flattened time axis is real data, not padding: it is
    step [t] of sequence [b] with [t < seq_lens[b]], where [p = b * L + t]
    (and [p = t * B + b] for a time-major model), [L] being the padded
    length and [B] the number of sequences. *)
Definition valid_step (seq_lens : list nat) (max_seq_len : nat) (time_major : bool)
    (p : nat) : bool :=
  if time_major then
    (p / length seq_lens <? nth (p mod length seq_lens) seq_lens 0)%nat
  else
    (p mod max_seq_len <? nth (p / max_seq_len) seq_lens 0)%nat.

(** The slots of agents 0, 1 and 2 of a tensor coincide. *)
Definition same_columns (a : ndarray) : Prop :=
  tensor_column a 1 = tensor_column a 0 ∧ tensor_column a 2 = tensor_column a 0.

(** The three agents have identical inputs: in every tensor the loss reads
    per agent, from the batch and from the model's forward pass. *)
Definition identical_agents (fwd : ForwardOut) (train_batch : SampleBatch) : Prop :=
  same_columns (logp fwd) ∧ same_columns (entropy fwd) ∧
  same_columns (action_kl fwd) ∧ same_columns (value_fn_out fwd) ∧
  ∀ k a, k ∈ [ACTION_LOGP; ADVANTAGES; VF_PREDS; VALUE_TARGETS] →
         train_batch !! k = Some a → same_columns a.

(** ** Well-formed segments *)

(** A segment of [T] timesteps the postprocessor can process, with
    [rewards] the outcome of deserialising its info column: the columns the
    postprocessor touches are there, actions and value predictions are of
    rank 2 with at least three value slots, the final DONES flag can be read
    (and, when it is false, [_value] returns a value estimate with three
    slots: GAE is on and either the trajectory view API is used and the value
    head has three slots, or the input dict binds to the arguments of the
    direct call and the value head then has three slots),
    and the reward sequence of each agent has one entry per timestep.  The
    width of the action column is not constrained. *)
Record well_formed_segment (policy : Policy) (sample_batch : SampleBatch)
    (rewards : option SampleBatch) (T : nat) : Prop := {
  wf_state_out : ∀ j, (j < num_state_tensors policy)%nat →
    is_Some (sample_batch !! ("state_out_" +:+ pretty j));
  wf_next_obs : is_Some (sample_batch !! NEXT_OBS);
  wf_rewards : is_Some (sample_batch !! REWARDS);
  wf_actions : ∃ w rows, sample_batch !! ACTIONS = Some (Float2 w rows);
  wf_vf_preds : ∃ w rows,
    sample_batch !! VF_PREDS = Some (Float2 w rows) ∧ (3 ≤ w)%nat ∧ length rows = T;
  wf_dones : ∃ dones d,
    sample_batch !! DONES = Some dones ∧ last_truth dones = inr d ∧
    (d = false →
       use_gae (config policy) = true ∧
       let input_dict := get_input_dict policy sample_batch (IndexStr "last") in
       if _use_trajectory_view_api (config policy) then
         (3 ≤ length (value_function policy input_dict))%nat
       else
         ∃ ob prev_action prev_reward,
           bind_value_arguments input_dict = inr (ob, prev_action, prev_reward) ∧
           (3 ≤ length (call_value policy ob prev_action prev_reward []))%nat);
  wf_infos : ∃ infos,
    sample_batch !! INFOS = Some infos ∧ decomposed_rewards infos = inr rewards ∧
    match rewards with
    | None => ∃ r, infos = Float1 r ∧ length r = T
    | Some m => ∀ i, (i < 3)%nat → ∃ r, m !! pretty i = Some (Float1 r) ∧ length r = T
    end;
}.

(** What the postprocessor needs of [compute_advantages]: on a rollout whose
    reward and value columns are sequences of length [T] it returns the
    rollout with two more sequences of length [T], the advantages and the
    value targets. *)
Definition advantages_total
    (compute_advantages : SampleBatch → Q → Q → Q → bool → bool → result SampleBatch)
    (cfg : Config) (T : nat) : Prop :=
  ∀ (rollout : SampleBatch) (last_r : Q) (r v : list Q),
    rollout !! REWARDS = Some (Float1 r) → rollout !! VF_PREDS = Some (Float1 v) →
    length r = T → length v = T →
    ∃ adv vt,
      length adv = T ∧ length vt = T ∧
      compute_advantages rollout last_r (gamma cfg) (lambda cfg) (use_gae cfg)
        (default true (use_critic cfg))
      = inr (<[VALUE_TARGETS := Float1 vt]> (<[ADVANTAGES := Float1 adv]> rollout)).

(** ** Sample inputs *)

(** A policy with γ = 0.99, λ = 0.95, ε = 0.2, on the trajectory view API,
    whose value head answers [5, 6, 7] on every input and whose model hands
    the whole segment over as input dict. *)
Definition sample_config (gae : bool) : Config :=
  {| gamma := 99 # 100; lambda := 95 # 100; use_gae := gae;
     _use_trajectory_view_api := true; use_critic := None;
     clip_param := 1 # 5; vf_clip_param := 10; vf_loss_coeff := 1;
     config_kl_coeff := 1 # 5; config_kl_target := 1 # 100 |}.

Definition sample_policy (gae : bool) : Policy :=
  {| config := sample_config gae;
     num_state_tensors := 0;
     get_input_dict := λ sample_batch _, sample_batch;
     value_function := λ _, [5; 6; 7];
     call_value := λ _ _ _ _, [5; 6; 7];
     kl := KLCoeffMixin_init (sample_config gae);
     entropy_coeff := 0 |}.





Definition sample_info (r0 r1 r2 : Q) : gmap string info_value :=
  {[ "rewards" := RewardDict (<[0%Z := r0]> (<[1%Z := r1]> {[ 2%Z := r2 ]})) ]}.

(** A segment of two timesteps for three agents; [done] is its final DONES
    flag. *)
Definition sample_segment (done : bool) : SampleBatch :=
  <[INFOS := Infos [sample_info 1 2 3; sample_info 4 5 6]]>
  (<[ACTIONS := Float2 3 [[0; 1; 2]; [1; 0; 1]]]>
  (<[REWARDS := Float1 [6; 15]]>
  (<[VF_PREDS := Float2 3 [[1 # 2; 1 # 3; 1 # 4]; [1 # 5; 1 # 6; 1 # 7]]]>
  (<[DONES := Bool1 [false; done]]>
  {[ NEXT_OBS := Float2 1 [[0]; [0]] ]})))).

(** The same segment with the float32 placeholder in its info column, with
    info dicts that carry no reward decomposition, and with four or two
    action and value slots. *)
Definition placeholder_segment (done : bool) : SampleBatch :=
  <[INFOS := Float1 [7; 8]]> (sample_segment done).

Definition no_rewards_segment : SampleBatch :=
  <[INFOS := Infos [{[ "steps" := InfoScalar 1 ]}; {[ "steps" := InfoScalar 2 ]}]]>
    (sample_segment true).

Definition wide_segment : SampleBatch :=
  <[ACTIONS := Float2 4 [[0; 1; 2; 3]; [1; 0; 1; 0]]]>
  (<[VF_PREDS := Float2 4 [[1 # 2; 1 # 3; 1 # 4; 1]; [1 # 5; 1 # 6; 1 # 7; 1]]]>
     (sample_segment true)).

Definition narrow_segment : SampleBatch :=
  <[ACTIONS := Float2 2 [[0; 1]; [1; 0]]]>
  (<[VF_PREDS := Float2 2 [[1 # 2; 1 # 3]; [1 # 5; 1 # 6]]]>
     (sample_segment true)).

(** A train batch of two timesteps whose three agents have the same
    columns, and what the model returns on it: current log-probabilities
    equal to the stored ones, so that every probability ratio is [exp 0].
    [kl_rows] is the KL tensor of the forward pass and [state] its recurrent
    state. *)
Definition sample_train_batch : SampleBatch :=
  <["seq_lens" := Int1 [1%nat]]>
  (<[ACTION_LOGP := Float2 3 [[-1; -1; -1]; [-2; -2; -2]]]>
  (<[ADVANTAGES := Float2 3 [[1; 1; 1]; [-1; -1; -1]]]>
  (<[VF_PREDS := Float2 3 [[1 # 2; 1 # 2; 1 # 2]; [1 # 4; 1 # 4; 1 # 4]]]>
  {[ VALUE_TARGETS := Float2 3 [[1; 1; 1]; [0; 0; 0]] ]}))).

Definition sample_forward (state : list ndarray) (kl_rows : list (list Q)) : ForwardOut :=
  {| logits_rows := 2;
     state := state;
     is_time_major := false;
     logp := Float2 3 [[-1; -1; -1]; [-2; -2; -2]];
     entropy := Float2 3 [[1; 1; 1]; [1; 1; 1]];
     action_kl := Float2 3 kl_rows;
     value_fn_out := Float2 3 [[1 # 2; 1 # 2; 1 # 2]; [1 # 2; 1 # 2; 1 # 2]] |}.

(** Stand-ins for [torch.exp], exact at 0, and for [explained_variance]. *)
Definition sample_exp (x : Q) : Q := 1 + x.
Definition sample_explained_variance (y pred : ndarray) : scalar := Num 0.

(** The KL tensor of the sample forward pass, and the sample batch with all
    its steps padding, with no sequence, and with no timestep. *)
Definition sample_kl : list (list Q) :=
  [[1 # 10; 1 # 10; 1 # 10]; [1 # 10; 1 # 10; 1 # 10]].

Definition padding_train_batch : SampleBatch :=
  <["seq_lens" := Int1 [0%nat]]> sample_train_batch.

Definition no_sequence_train_batch : SampleBatch :=
  <["seq_lens" := Int1 []]> sample_train_batch.

Definition empty_train_batch : SampleBatch :=
  <[VF_PREDS := Float2 3 []]> sample_train_batch.

(** The reward sequences of the three agents in the sample segment, as the
    deserialisation of its info column returns them. *)
Definition sample_rewards : SampleBatch :=
  <["0" := Float1 [1; 4]]> (<["1" := Float1 [2; 5]]> {[ "2" := Float1 [3; 6] ]}).

(** * Properties *)

(** ** Adaptive KL coefficient *)




(** When the target is not negative the two tests of [update_kl] exclude each
    other, so the order in which the code makes them does not matter. *)
Lemma update_kl_tests_exclusive (target kl : Q) :
  0 <= target → kl < (1 # 2) * target → ¬ 2 * target < kl.
Proof. intros Ht Hlow Hhigh. lra. Qed.

(** With a negative target both tests can hold; the first one wins. *)
Example update_kl_negative_target :
  let self := {| kl_coeff := 1; kl_target := -1 |} in
  -1 < (1 # 2) * kl_target self ∧ snd (update_kl self (-1)) == 3 # 2.
Proof. split; reflexivity. Qed.




(** ** The KL coefficient on doubles *)

Section Binary64Facts.

Import Binary64.

(** *** Rounding keeps the sign *)

Lemma shr_1_nonneg mrs : (0 <= shr_m mrs)%Z → (0 <= shr_m (shr_1 mrs))%Z.
Proof.
  destruct mrs as [m r s]. simpl.
  destruct m as [|[p|p|]|p]; simpl; lia.
Qed.

Lemma iter_pos_invariant {A} (P : A → Prop) (f : A → A) :
  (∀ x, P x → P (f x)) → ∀ n x, P x → P (SpecFloat.iter_pos f n x).
Proof.
  intros Hf. induction n as [n IH|n IH|]; intros x Hx; simpl; auto.
Qed.

Lemma shr_fexp_nonneg prec emax m e l :
  (0 <= m)%Z → (0 <= shr_m (fst (shr_fexp prec emax m e l)))%Z.
Proof.
  intros Hm. unfold shr_fexp, shr.
  assert (0 <= shr_m (shr_record_of_loc m l))%Z as H0
    by (destruct l as [|[]]; exact Hm).
  destruct (fexp prec emax (Zdigits2 m + e) - e)%Z; simpl; try exact H0.
  apply (iter_pos_invariant (λ mrs, (0 <= shr_m mrs)%Z)); [apply shr_1_nonneg|exact H0].
Qed.

Lemma round_nearest_even_nonneg m l : (0 <= m)%Z → (0 <= round_nearest_even m l)%Z.
Proof.
  intros Hm. unfold round_nearest_even.
  destruct l as [|[]]; try destruct (Z.even m); lia.
Qed.

Lemma binary_round_aux_signed prec emax s m e l :
  (0 <= m)%Z → signed s (binary_round_aux prec emax s m e l).
Proof.
  intros Hm. unfold binary_round_aux.
  pose proof (shr_fexp_nonneg prec emax m e l Hm) as H1.
  destruct (shr_fexp prec emax m e l) as [mrs' e']. simpl in H1.
  pose proof (shr_fexp_nonneg prec emax
                (round_nearest_even (shr_m mrs') (loc_of_shr_record mrs')) e' loc_Exact
                (round_nearest_even_nonneg _ _ H1)) as H2.
  destruct (shr_fexp prec emax _ e' loc_Exact) as [mrs'' e'']. simpl in H2.
  destruct (shr_m mrs'') as [|p|p]; [exact eq_refl| |lia].
  destruct (e'' <=? emax - prec)%Z; exact eq_refl.
Qed.

(** Multiplying by a positive finite number keeps the sign bit, and keeps a
    zero, an infinity and a NaN as they are. *)
Lemma mul_signed s x my ey :
  signed s x → signed s (mul x (S754_finite false my ey)).
Proof.
  unfold mul.
  destruct x as [sx|sx| |sx mx ex]; simpl; try (intros <-; apply xorb_false_r); [tauto|].
  intros <-. rewrite xorb_false_r.
  apply binary_round_aux_signed. lia.
Qed.

Lemma mul_not_finite x my ey :
  match x with S754_finite _ _ _ => False | _ => True end →
  mul x (S754_finite false my ey) = x.
Proof.
  unfold mul.
  destruct x as [sx|sx| |sx mx ex]; simpl; try tauto; intros _; f_equal; apply xorb_false_r.
Qed.

Lemma mul_zero x my ey :
  equal x zero = true → equal (mul x (S754_finite false my ey)) zero = true.
Proof.
  destruct x as [[]|[]| |[] mx ex]; intros H; try (cbv in H; discriminate H); exact eq_refl.
Qed.

Lemma signed_positive x : less zero x = true → signed false x.
Proof.
  destruct x as [[]|[]| |[] m e]; intros H; try (cbv in H; discriminate H); exact eq_refl.
Qed.

Lemma signed_negative x : less x zero = true → signed true x.
Proof.
  destruct x as [[]|[]| |[] m e]; intros H; try (cbv in H; discriminate H); exact eq_refl.
Qed.

Lemma dyadic_3_2 : dyadic 3 (-1) = S754_finite false 6755399441055744 (-52).
Proof. vm_compute. reflexivity. Qed.

Lemma dyadic_1_2 : dyadic 1 (-1) = S754_finite false 4503599627370496 (-53).
Proof. vm_compute. reflexivity. Qed.

(** *** One call and many *)

Lemma float_update_kl_cases self kl :
  kl_target (fst (update_kl self kl)) = kl_target self ∧
  (kl_coeff (fst (update_kl self kl)) = mul (kl_coeff self) (dyadic 3 (-1)) ∨
   kl_coeff (fst (update_kl self kl)) = mul (kl_coeff self) (dyadic 1 (-1)) ∨
   kl_coeff (fst (update_kl self kl)) = kl_coeff self).
Proof.
  unfold update_kl. cbv zeta.
  destruct (less (mul (dyadic 1 1) (kl_target self)) kl);
    [cbn [fst kl_coeff kl_target]; auto|].
  destruct (less kl (mul (dyadic 1 (-1)) (kl_target self)));
    cbn [fst kl_coeff kl_target]; auto.
Qed.

Lemma float_update_kl_steps_snoc self kls kl :
  update_kl_steps self (kls ++ [kl]) = fst (update_kl (update_kl_steps self kls) kl).
Proof. unfold update_kl_steps. rewrite fold_left_app. reflexivity. Qed.

(** A property of the coefficient that the two products keep holds after
    any number of calls. *)
Lemma float_update_kl_steps_invariant (P : float → Prop) self kls :
  (∀ x my ey, P x → P (mul x (S754_finite false my ey))) →
  P (kl_coeff self) → P (kl_coeff (update_kl_steps self kls)).
Proof.
  intros HP H0. induction kls as [|kl kls IH] using rev_ind; [exact H0|].
  rewrite float_update_kl_steps_snoc.
  destruct (float_update_kl_cases (update_kl_steps self kls) kl) as [_ [H|[H|H]]];
    rewrite H; [rewrite dyadic_3_2|rewrite dyadic_1_2|]; auto.
Qed.

Lemma float_update_kl_steps_target self kls :
  kl_target (update_kl_steps self kls) = kl_target self.
Proof.
  induction kls as [|kl kls IH] using rev_ind; [reflexivity|].
  rewrite float_update_kl_steps_snoc.
  destruct (float_update_kl_cases (update_kl_steps self kls) kl) as [-> _]. exact IH.
Qed.

Lemma signed_positive_or_zero x :
  signed false x → less zero x = true ∨ equal x zero = true.
Proof.
  destruct x as [[]|[]| |[] m e]; intros H;
    try discriminate H; try contradiction; cbv; auto.
Qed.

Lemma signed_negative_or_zero x :
  signed true x → less x zero = true ∨ equal x zero = true.
Proof.
  destruct x as [[]|[]| |[] m e]; intros H;
    try discriminate H; try contradiction; cbv; auto.
Qed.

(** C10 (as amended).  On doubles, every call of [update_kl] keeps the
    target, returns the coefficient it leaves on the controller, and leaves
    as coefficient the rounded product of the old one by 1.5 or by 0.5, or
    the old one.  Over any sequence of calls the sign never flips: a positive
    coefficient stays positive or becomes zero, a negative one stays negative
    or becomes zero, and a coefficient equal to zero stays equal to zero. *)
Theorem update_kl_sign_never_flips (self : KLCoeffMixin) (kls : list float) :
  kl_target (update_kl_steps self kls) = kl_target self ∧
  (∀ kl,
     kl_target (fst (update_kl self kl)) = kl_target self ∧
     snd (update_kl self kl) = kl_coeff (fst (update_kl self kl)) ∧
     (kl_coeff (fst (update_kl self kl)) = mul (kl_coeff self) (dyadic 3 (-1)) ∨
      kl_coeff (fst (update_kl self kl)) = mul (kl_coeff self) (dyadic 1 (-1)) ∨
      kl_coeff (fst (update_kl self kl)) = kl_coeff self)) ∧
  (less zero (kl_coeff self) = true →
     less zero (kl_coeff (update_kl_steps self kls)) = true ∨
     equal (kl_coeff (update_kl_steps self kls)) zero = true) ∧
  (less (kl_coeff self) zero = true →
     less (kl_coeff (update_kl_steps self kls)) zero = true ∨
     equal (kl_coeff (update_kl_steps self kls)) zero = true) ∧
  (equal (kl_coeff self) zero = true →
     equal (kl_coeff (update_kl_steps self kls)) zero = true).
Proof.
  split; [apply float_update_kl_steps_target|].
  split; [intros kl; destruct (float_update_kl_cases self kl); auto|].
  split; [|split].
  - intros H. apply signed_positive in H. apply signed_positive_or_zero.
    apply (float_update_kl_steps_invariant (signed false)); [|exact H].
    intros x my ey. apply mul_signed.
  - intros H. apply signed_negative in H. apply signed_negative_or_zero.
    apply (float_update_kl_steps_invariant (signed true)); [|exact H].
    intros x my ey. apply mul_signed.
  - apply (float_update_kl_steps_invariant (λ x, equal x zero = true)).
    intros x my ey. apply mul_zero.
Qed.

(** From 0.2 with target 0.01: a step with a high KL, one with a low KL and
    one in the band.  From -0.2 and from 0.0 likewise. *)
Lemma update_kl_sign_never_flips_witness :
  (less zero (kl_coeff (update_kl_steps {| kl_coeff := d0_2; kl_target := d0_01 |}
                          [d0_03; d0_001; d0_01])) = true ∨
   equal (kl_coeff (update_kl_steps {| kl_coeff := d0_2; kl_target := d0_01 |}
                      [d0_03; d0_001; d0_01])) zero = true) ∧
  (less (kl_coeff (update_kl_steps {| kl_coeff := SFopp d0_2; kl_target := d0_01 |}
                     [d0_03; d0_001; d0_01])) zero = true ∨
   equal (kl_coeff (update_kl_steps {| kl_coeff := SFopp d0_2; kl_target := d0_01 |}
                      [d0_03; d0_001; d0_01])) zero = true) ∧
  equal (kl_coeff (update_kl_steps {| kl_coeff := zero; kl_target := d0_01 |}
                     [d0_03; d0_001; d0_01])) zero = true.
Proof.
  split; [|split].
  - destruct (update_kl_sign_never_flips {| kl_coeff := d0_2; kl_target := d0_01 |}
                [d0_03; d0_001; d0_01]) as (_ & _ & H & _).
    apply H. vm_compute. reflexivity.
  - destruct (update_kl_sign_never_flips {| kl_coeff := SFopp d0_2; kl_target := d0_01 |}
                [d0_03; d0_001; d0_01]) as (_ & _ & _ & H & _).
    apply H. vm_compute. reflexivity.
  - destruct (update_kl_sign_never_flips {| kl_coeff := zero; kl_target := d0_01 |}
                [d0_03; d0_001; d0_01]) as (_ & _ & _ & _ & H).
    apply H. vm_compute. reflexivity.
Defined.

(** The sign itself is not kept: the smallest positive double, 5e-324, times
    0.5 rounds to zero, and so does 0.2 after 1073 steps with a low KL; the
    coefficient is then no longer positive. *)
Example update_kl_sign_underflow :
  (let self := {| kl_coeff := dyadic 1 (-1074); kl_target := dyadic 1 0 |} in
   less zero (kl_coeff self) = true ∧
   kl_coeff (fst (update_kl self (dyadic 1 (-2)))) = zero ∧
   less zero (kl_coeff (fst (update_kl self (dyadic 1 (-2))))) = false) ∧
  (let self := {| kl_coeff := d0_2; kl_target := d0_01 |} in
   less zero (kl_coeff self) = true ∧
   kl_coeff (update_kl_steps self (replicate 1073 d0_001)) = zero ∧
   less zero (kl_coeff (update_kl_steps self (replicate 1073 d0_001))) = false).
Proof. vm_compute. auto 10. Qed.

End Binary64Facts.

(** ** Clipped surrogate *)

Lemma clamp_monotone (lo hi r1 r2 : Q) : r1 <= r2 → clamp r1 lo hi <= clamp r2 lo hi.
Proof.
  intros H. unfold clamp.
  apply Q.min_le_compat_r, Q.max_le_compat_r, H.
Qed.

Lemma clamp_above (lo hi r : Q) : hi <= r → clamp r lo hi == hi.
Proof.
  intros H. unfold clamp. apply Q.min_r.
  apply Qle_trans with r; [exact H|apply Q.le_max_l].
Qed.

Lemma surrogate_term_monotone (clip a r1 r2 : Q) :
  0 < a → r1 <= r2 → surrogate_term clip a r1 <= surrogate_term clip a r2.
Proof.
  intros Ha H. unfold surrogate_term.
  apply Q.min_le_compat; apply Qmult_le_l; auto using clamp_monotone.
Qed.

Lemma surrogate_term_flat (clip a r : Q) :
  0 < a → 1 + clip <= r → surrogate_term clip a r == a * (1 + clip).
Proof.
  intros Ha H. unfold surrogate_term.
  rewrite (clamp_above _ _ _ H).
  apply Q.min_r. apply Qmult_le_l; assumption.
Qed.

(** The entries of the tensor averaged into [mean_policy_loss] are the
    per-timestep terms. *)
Lemma policy_loss_entries (clip : Q) (advantages logp_ratio : list Q) (t : nat) (a r : Q) :
  advantages !! t = Some a → logp_ratio !! t = Some r →
  map Qopp (surrogate clip advantages logp_ratio) !! t = Some (policy_loss_term clip a r).
Proof.
  intros Ha Hr. unfold surrogate, policy_loss_term.
  rewrite list_lookup_fmap, lookup_zip_with, Ha. simpl. rewrite Hr. reflexivity.
Qed.

(** C8 (as amended).  For a positive advantage the per-timestep loss
    contribution [-min(advantage * ratio, advantage * clip(ratio, 1-ε, 1+ε))]
    is non-increasing as the ratio increases (the surrogate itself is
    non-decreasing), and it is constant, equal to [-advantage * (1+ε)], for
    every ratio from [1+ε] on. *)
Theorem policy_loss_term_clipped (clip advantage r1 r2 : Q) :
  0 < advantage →
  (r1 <= r2 → policy_loss_term clip advantage r2 <= policy_loss_term clip advantage r1) ∧
  (1 + clip <= r1 → policy_loss_term clip advantage r1 == - (advantage * (1 + clip))) ∧
  (1 + clip <= r1 → 1 + clip <= r2 →
     policy_loss_term clip advantage r1 == policy_loss_term clip advantage r2).
Proof.
  intros Ha. unfold policy_loss_term. split; [|split].
  - intros H. apply Qopp_le_compat, surrogate_term_monotone; assumption.
  - intros H. rewrite (surrogate_term_flat _ _ _ Ha H). reflexivity.
  - intros H1 H2.
    rewrite (surrogate_term_flat _ _ _ Ha H1), (surrogate_term_flat _ _ _ Ha H2).
    reflexivity.
Qed.

(** Advantage 1 and ε = 0.2: the loss falls from ratio 0.5 to ratio 1 and is
    the same at ratios 1.5 and 2. *)
Lemma policy_loss_term_clipped_witness :
  policy_loss_term (1 # 5) 1 1 <= policy_loss_term (1 # 5) 1 (1 # 2) ∧
  policy_loss_term (1 # 5) 1 (3 # 2) == policy_loss_term (1 # 5) 1 2.
Proof.
  split.
  - destruct (policy_loss_term_clipped (1 # 5) 1 (1 # 2) 1) as (H & _); [reflexivity|].
    apply H. discriminate.
  - destruct (policy_loss_term_clipped (1 # 5) 1 (3 # 2) 2) as (_ & _ & H); [reflexivity|].
    apply H; discriminate.
Defined.

(** C8 as stated fails: with advantage 1 and ε = 0.2 the loss contribution
    at ratio 1 is strictly below the one at ratio 0.5, both ratios being
    below 1+ε. *)
Lemma policy_loss_term_not_nondecreasing :
  0 < 1 ∧ 1 # 2 <= 1 ∧ 1 <= 1 + (1 # 5) ∧
  ¬ policy_loss_term (1 # 5) 1 (1 # 2) <= policy_loss_term (1 # 5) 1 1.
Proof. split; [reflexivity|]. split; [discriminate|]. split; [discriminate|]. vm_compute. auto. Qed.

(** ** The exception monads *)

Lemma result_bind_inr {A B} (m : result A) (f : A → result B) (y : B) :
  m ≫= f = inr y → ∃ x, m = inr x ∧ f x = inr y.
Proof. destruct m as [e|x]; [discriminate|]. intros H. exists x. auto. Qed.

Lemma M_bind_inr {S A B} (m : M S A) (f : A → M S B) (st st' : S) (y : B) :
  (m ≫= f) st = (st', inr y) → ∃ x st1, m st = (st1, inr x) ∧ f x st1 = (st', inr y).
Proof.
  unfold mbind, M_bind. destruct (m st) as [st1 [e|x]]; [discriminate|].
  intros H. exists x, st1. auto.
Qed.

Lemma lift_inr {S A} (r : result A) (st st' : S) (x : A) :
  lift r st = (st', inr x) → st' = st ∧ r = inr x.
Proof. unfold lift. intros H. injection H as <- ->. auto. Qed.

Lemma getitem_inr {V} (d : gmap string V) (k : string) (v : V) :
  getitem d k = inr v ↔ d !! k = Some v.
Proof.
  unfold getitem. destruct (d !! k); split; intros H; try discriminate.
  - injection H as ->. reflexivity.
  - injection H as ->. reflexivity.
Qed.

Lemma M_ret_inr {S A} (x y : A) (st st' : S) :
  (mret x : M S A) st = (st', inr y) → st' = st ∧ y = x.
Proof. unfold mret, M_ret. intros H. injection H as <- <-. auto. Qed.

Lemma result_ret_inr {A} (x y : A) : (mret x : result A) = inr y → y = x.
Proof. intros H. injection H as <-. reflexivity. Qed.

Lemma result_bind_ok {A B} (m : result A) (f : A → result B) (x : A) :
  m = inr x → m ≫= f = f x.
Proof. intros ->. reflexivity. Qed.

Lemma result_ret_bind {A B} (x : A) (f : A → result B) : mret x ≫= f = f x.
Proof. reflexivity. Qed.

Lemma M_bind_ok {S A B} (m : M S A) (f : A → M S B) (st st1 : S) (x : A) :
  m st = (st1, inr x) → (m ≫= f) st = f x st1.
Proof. intros H. unfold mbind, M_bind. rewrite H. reflexivity. Qed.

Lemma M_bind_lift_ok {S A B} (r : result A) (f : A → M S B) (st : S) (x : A) :
  r = inr x → (lift r ≫= f) st = f x st.
Proof. intros ->. reflexivity. Qed.

Lemma M_bind_raise {S A B} (m : M S A) (f : A → M S B) (st st1 : S) (e : exn) :
  m st = (st1, inl e) → (m ≫= f) st = (st1, inl e).
Proof. intros H. unfold mbind, M_bind. rewrite H. reflexivity. Qed.

(** Inverts a successful run, bind after bind. *)
Ltac invert_run H :=
  repeat match type of H with
  | (_ ≫= _) _ = (_, inr _) =>
      let x := fresh "x" in let st := fresh "st" in let H1 := fresh "Hstep" in
      apply M_bind_inr in H as (x & st & H1 & H); invert_run H1
  | lift _ _ = (_, inr _) =>
      let E := fresh "Hst" in apply lift_inr in H as [E H]; try subst
  | _ ≫= _ = inr _ =>
      let x := fresh "x" in let H1 := fresh "Hstep" in
      apply result_bind_inr in H as (x & H1 & H); invert_run H1
  | mret _ _ = (_, inr _) =>
      let E := fresh "Hst" in apply M_ret_inr in H as [E H]; try subst
  | mret _ = inr _ => apply result_ret_inr in H; try subst
  | getitem _ _ = inr _ => apply getitem_inr in H
  end.

(** ** Trajectory postprocessor *)

Section PostprocessorFacts.

Variable compute_advantages :
  SampleBatch → Q → Q → Q → bool → bool → result SampleBatch.

Lemma last_r_done policy (sample_batch : SampleBatch) dones i log :
  sample_batch !! DONES = Some dones → last_truth dones = inr true →
  last_r policy sample_batch i log = (log, inr 0).
Proof.
  intros Hd Ht. unfold last_r, mbind, M_bind, lift, getitem.
  rewrite Hd. simpl. rewrite Ht. reflexivity.
Qed.

Lemma bind_value_arguments_raises (input_dict : SampleBatch) e :
  bind_value_arguments input_dict = inl e → e = TypeError.
Proof.
  unfold bind_value_arguments.
  destruct (input_dict !! "ob"), (input_dict !! "prev_action"),
    (input_dict !! "prev_reward"); try (intros H; injection H as <-; reflexivity).
  destruct (bool_decide _); [discriminate|]. intros H; injection H as <-; reflexivity.
Qed.


Lemma last_r_truncated policy (sample_batch : SampleBatch) dones i log :
  sample_batch !! DONES = Some dones → last_truth dones = inr false →
  last_r policy sample_batch i log =
    let input_dict := get_input_dict policy sample_batch (IndexStr "last") in
    if use_gae (config policy) then
      if _use_trajectory_view_api (config policy) then
        (log ++ [Forward input_dict],
         index (Tensor1 (value_function policy input_dict)) i)
      else
        match bind_value_arguments input_dict with
        | inr (ob, prev_action, prev_reward) =>
            (log ++ [ModelCall ob prev_action prev_reward []],
             index (Tensor1 (call_value policy ob prev_action prev_reward [])) i)
        | inl e => (log, inl TypeError)
        end
    else (log, inl TypeError).
Proof.
  intros Hd Ht. unfold last_r, mbind, M_bind, lift, getitem, _value.
  rewrite Hd. simpl. rewrite Ht.
  destruct (use_gae (config policy)); [|reflexivity].
  destruct (_use_trajectory_view_api (config policy)); [reflexivity|].
  destruct (bind_value_arguments _) as [e|[[ob prev_action] prev_reward]] eqn:E;
    [|reflexivity].
  apply bind_value_arguments_raises in E as ->. reflexivity.
Qed.

Lemma agent_batch_inr policy (sample_batch : SampleBatch) rewards i log log' b :
  agent_batch compute_advantages policy sample_batch rewards i log = (log', inr b) →
  ∃ rollout r log1,
    agent_sample_batch sample_batch rewards i = inr rollout ∧
    last_r policy sample_batch i log = (log1, inr r) ∧
    log' = log1 ++ [ComputeAdvantages rollout r] ∧
    compute_advantages rollout r (gamma (config policy)) (lambda (config policy))
      (use_gae (config policy)) (default true (use_critic (config policy))) = inr b.
Proof.
  intros H. unfold agent_batch in H. invert_run H.
  unfold tell in Hstep1. injection Hstep1 as <- _.
  eauto 10.
Qed.

Lemma compute_gae_inr policy (sample_batch : SampleBatch) log out :
  run (compute_gae_for_sample_batch compute_advantages policy sample_batch) = (log, inr out) →
  ∃ infos rewards b0 b1 b2 log1 log2,
    sample_batch !! INFOS = Some infos ∧
    decomposed_rewards infos = inr rewards ∧
    agent_batch compute_advantages policy sample_batch rewards 0 [] = (log1, inr b0) ∧
    agent_batch compute_advantages policy sample_batch rewards 1 log1 = (log2, inr b1) ∧
    agent_batch compute_advantages policy sample_batch rewards 2 log2 = (log, inr b2) ∧
    foldlM (overwrite_stacked [b0; b1; b2]) sample_batch
           [REWARDS; VF_PREDS; ADVANTAGES; VALUE_TARGETS] = inr out.
Proof.
  intros H. unfold run, compute_gae_for_sample_batch in H. invert_run H.
  simpl in Hstep5. invert_run Hstep5.
  repeat eexists; eassumption.
Qed.

Lemma np_stack_three a0 a1 a2 out :
  np_stack [a0; a1; a2] = inr out →
  ∃ c0 c1 c2,
    a0 = Float1 c0 ∧ a1 = Float1 c1 ∧ a2 = Float1 c2 ∧
    length c1 = length c0 ∧ length c2 = length c0 ∧
    out = stacked c0 c1 c2.
Proof.
  unfold np_stack.
  destruct a0 as [c0| | | |]; try discriminate.
  destruct a1 as [c1| | | |]; try discriminate.
  destruct a2 as [c2| | | |]; try discriminate.
  simpl. rewrite Nat.eqb_refl. simpl.
  destruct (length c1 =? length c0)%nat eqn:E1; [|discriminate].
  destruct (length c2 =? length c0)%nat eqn:E2; [|discriminate].
  simpl. intros H. injection H as <-.
  apply Nat.eqb_eq in E1, E2. exists c0, c1, c2. auto 10.
Qed.

Lemma overwrite_stacked_three (b0 b1 b2 sample_batch : SampleBatch) k out :
  overwrite_stacked [b0; b1; b2] sample_batch k = inr out →
  ∃ x, stacked_from b0 b1 b2 k x ∧ out = <[k := x]> sample_batch.
Proof.
  intros H. unfold overwrite_stacked in H. simpl in H. invert_run H.
  match goal with
  | Hs : np_stack _ = inr _ |- _ =>
      apply np_stack_three in Hs as (c0 & c1 & c2 & -> & -> & -> & E1 & E2 & ->)
  end.
  eexists. split; [|reflexivity]. exists c0, c1, c2. auto 10.
Qed.

Lemma overwrite_stacked_four (b0 b1 b2 sample_batch : SampleBatch) k1 k2 k3 k4 out :
  foldlM (overwrite_stacked [b0; b1; b2]) sample_batch [k1; k2; k3; k4] = inr out →
  ∃ x1 x2 x3 x4,
    stacked_from b0 b1 b2 k1 x1 ∧ stacked_from b0 b1 b2 k2 x2 ∧
    stacked_from b0 b1 b2 k3 x3 ∧ stacked_from b0 b1 b2 k4 x4 ∧
    out = <[k4 := x4]> (<[k3 := x3]> (<[k2 := x2]> (<[k1 := x1]> sample_batch))).
Proof.
  simpl. intros H.
  apply result_bind_inr in H as (s1 & H1 & H).
  apply result_bind_inr in H as (s2 & H2 & H).
  apply result_bind_inr in H as (s3 & H3 & H).
  apply result_bind_inr in H as (s4 & H4 & H).
  apply result_ret_inr in H as ->.
  apply overwrite_stacked_three in H1 as (x1 & S1 & ->).
  apply overwrite_stacked_three in H2 as (x2 & S2 & ->).
  apply overwrite_stacked_three in H3 as (x3 & S3 & ->).
  apply overwrite_stacked_three in H4 as (x4 & S4 & ->).
  exists x1, x2, x3, x4. auto 10.
Qed.

(** *** Segments the postprocessor completes *)

Lemma touch_state_out (sample_batch : SampleBatch) (js : list nat) :
  (∀ j, j ∈ js → is_Some (sample_batch !! ("state_out_" +:+ pretty j))) →
  ∃ xs, mapM (λ j : nat, getitem sample_batch ("state_out_" +:+ pretty j)) js = inr xs.
Proof.
  induction js as [|j js IH]; intros H; [exists []; reflexivity|].
  destruct (H j) as [x Hx]; [left|].
  destruct IH as [xs Hxs]; [intros j' Hj'; apply H; right; exact Hj'|].
  exists (x :: xs). simpl.
  rewrite (result_bind_ok _ _ x) by (apply getitem_inr; exact Hx).
  rewrite (result_bind_ok _ _ xs) by exact Hxs.
  reflexivity.
Qed.

Lemma agent_sample_batch_ok policy (sample_batch : SampleBatch) rewards T i :
  well_formed_segment policy sample_batch rewards T → (i < 3)%nat →
  ∃ rollout r v,
    agent_sample_batch sample_batch rewards i = inr rollout ∧
    rollout !! REWARDS = Some (Float1 r) ∧ length r = T ∧
    rollout !! VF_PREDS = Some (Float1 v) ∧ length v = T.
Proof.
  intros [_ _ _ (wa & arows & Ha) (wv & vrows & Hv & Hw & Hlen) _
            (infos & Hi & _ & Hr)] Hi3.
  assert (∃ r, match rewards with
               | Some m => getitem m (pretty i)
               | None => getitem sample_batch INFOS
               end = inr (Float1 r) ∧ length r = T) as (r & Hget & Hrlen).
  { destruct rewards as [m|].
    - destruct (Hr i Hi3) as (r & Hm & Hrl). exists r. split; [|exact Hrl].
      apply getitem_inr. exact Hm.
    - destruct Hr as (r & -> & Hrl). exists r. split; [|exact Hrl].
      apply getitem_inr. exact Hi. }
  exists (<[VF_PREDS := Float1 (map (λ row, nth i row 0) vrows)]>
            (<[ACTIONS := Float2 (Nat.min (i + 1) wa - Nat.min i wa)
                                 (map (λ row, take (i + 1 - i) (drop i row)) arows)]>
               (<[REWARDS := Float1 r]> sample_batch))),
         r, (map (λ row, nth i row 0) vrows).
  split; [|split; [|split; [|split]]].
  - unfold agent_sample_batch.
    rewrite (result_bind_ok _ _ _ Hget).
    rewrite (result_bind_ok _ _ (Float2 wa arows)) by (apply getitem_inr; exact Ha).
    simpl slice_columns. rewrite result_ret_bind.
    rewrite (result_bind_ok _ _ (Float2 wv vrows)) by (apply getitem_inr; exact Hv).
    unfold column. replace (i <? wv)%nat with true by (symmetry; apply Nat.ltb_lt; lia).
    reflexivity.
  - rewrite !lookup_insert_ne by discriminate. apply lookup_insert_eq.
  - exact Hrlen.
  - apply lookup_insert_eq.
  - rewrite length_map. exact Hlen.
Qed.

Lemma last_r_ok policy (sample_batch : SampleBatch) rewards T i log :
  well_formed_segment policy sample_batch rewards T → (i < 3)%nat →
  ∃ r log', last_r policy sample_batch i log = (log', inr r).
Proof.
  intros [_ _ _ _ _ (dones & d & Hd & Ht & Hgae) _] Hi3.
  destruct d.
  - exists 0, log. eapply last_r_done; eassumption.
  - destruct Hgae as [Hgae Hlen]; [reflexivity|].
    rewrite (last_r_truncated _ _ _ _ _ Hd Ht), Hgae. cbv zeta in Hlen |- *.
    destruct (_use_trajectory_view_api (config policy)).
    + destruct (lookup_lt_is_Some_2
                  (value_function policy
                     (get_input_dict policy sample_batch (IndexStr "last"))) i)
        as [v Hv]; [lia|].
      simpl. rewrite Hv. eauto.
    + destruct Hlen as (ob & prev_action & prev_reward & -> & Hlen).
      destruct (lookup_lt_is_Some_2 (call_value policy ob prev_action prev_reward []) i)
        as [v Hv]; [lia|].
      simpl. rewrite Hv. eauto.
Qed.

Lemma agent_batch_ok policy (sample_batch : SampleBatch) rewards T i log :
  well_formed_segment policy sample_batch rewards T →
  advantages_total compute_advantages (config policy) T → (i < 3)%nat →
  ∃ b log',
    agent_batch compute_advantages policy sample_batch rewards i log = (log', inr b) ∧
    ∀ k, k ∈ [REWARDS; VF_PREDS; ADVANTAGES; VALUE_TARGETS] →
         ∃ c, b !! k = Some (Float1 c) ∧ length c = T.
Proof.
  intros Hwf Hca Hi3.
  destruct (agent_sample_batch_ok _ _ _ _ _ Hwf Hi3)
    as (rollout & r & v & Hroll & Hr & Hrl & Hv & Hvl).
  destruct (last_r_ok _ _ _ _ _ log Hwf Hi3) as (lr & log' & Hlr).
  destruct (Hca rollout lr r v Hr Hv Hrl Hvl) as (adv & vt & Hal & Htl & Hcall).
  exists (<[VALUE_TARGETS := Float1 vt]> (<[ADVANTAGES := Float1 adv]> rollout)),
         (log' ++ [ComputeAdvantages rollout lr]).
  split.
  - unfold agent_batch.
    rewrite (M_bind_lift_ok _ _ _ _ Hroll).
    rewrite (M_bind_ok _ _ _ _ _ Hlr).
    unfold mbind at 1, M_bind at 1, tell, lift. rewrite Hcall. reflexivity.
  - intros k Hk. repeat (apply elem_of_cons in Hk as [->|Hk]).
    + exists r. split; [|exact Hrl].
      rewrite !lookup_insert_ne by discriminate. exact Hr.
    + exists v. split; [|exact Hvl].
      rewrite !lookup_insert_ne by discriminate. exact Hv.
    + exists adv. split; [|exact Hal].
      rewrite lookup_insert_ne by discriminate. apply lookup_insert_eq.
    + exists vt. split; [|exact Htl]. apply lookup_insert_eq.
    + apply elem_of_nil in Hk. contradiction.
Qed.

Lemma overwrite_stacked_ok (b0 b1 b2 sample_batch : SampleBatch) k T :
  (∃ c, b0 !! k = Some (Float1 c) ∧ length c = T) →
  (∃ c, b1 !! k = Some (Float1 c) ∧ length c = T) →
  (∃ c, b2 !! k = Some (Float1 c) ∧ length c = T) →
  ∃ x, overwrite_stacked [b0; b1; b2] sample_batch k = inr (<[k := x]> sample_batch).
Proof.
  intros (c0 & H0 & L0) (c1 & H1 & L1) (c2 & H2 & L2).
  exists (stacked c0 c1 c2). unfold overwrite_stacked. simpl.
  unfold getitem. rewrite H0, H1, H2. simpl.
  unfold np_stack. simpl.
  rewrite Nat.eqb_refl.
  replace (length c1 =? length c0)%nat with true by (symmetry; apply Nat.eqb_eq; lia).
  replace (length c2 =? length c0)%nat with true by (symmetry; apply Nat.eqb_eq; lia).
  reflexivity.
Qed.

(** On a well-formed segment the postprocessor returns a batch, whatever the
    width of the action column and for any number of value slots from three
    on. *)
Lemma compute_gae_ok policy (sample_batch : SampleBatch) rewards T :
  well_formed_segment policy sample_batch rewards T →
  advantages_total compute_advantages (config policy) T →
  ∃ log out,
    run (compute_gae_for_sample_batch compute_advantages policy sample_batch)
      = (log, inr out).
Proof.
  intros Hwf Hca.
  destruct (agent_batch_ok _ _ _ _ 0%nat [] Hwf Hca) as (b0 & l0 & Hb0 & Hk0); [lia|].
  destruct (agent_batch_ok _ _ _ _ 1%nat l0 Hwf Hca) as (b1 & l1 & Hb1 & Hk1); [lia|].
  destruct (agent_batch_ok _ _ _ _ 2%nat l1 Hwf Hca) as (b2 & l2 & Hb2 & Hk2); [lia|].
  destruct Hwf as [Hso [nobs Hno] [rew Hre] (wa & arows & Ha) _ _
                     (infos & Hi & Hdec & _)].
  destruct (touch_state_out sample_batch (seq 0 (num_state_tensors policy)))
    as [xs Hxs].
  { intros j Hj. apply Hso. apply elem_of_seq in Hj. lia. }
  destruct (overwrite_stacked_ok b0 b1 b2 sample_batch REWARDS T) as [x1 H1];
    [apply Hk0|apply Hk1|apply Hk2|]; [repeat constructor..|].
  destruct (overwrite_stacked_ok b0 b1 b2 (<[REWARDS := x1]> sample_batch) VF_PREDS T)
    as [x2 H2]; [apply Hk0|apply Hk1|apply Hk2|]; [repeat constructor..|].
  destruct (overwrite_stacked_ok b0 b1 b2
              (<[VF_PREDS := x2]> (<[REWARDS := x1]> sample_batch)) ADVANTAGES T)
    as [x3 H3]; [apply Hk0|apply Hk1|apply Hk2|]; [repeat constructor..|].
  destruct (overwrite_stacked_ok b0 b1 b2
              (<[ADVANTAGES := x3]> (<[VF_PREDS := x2]> (<[REWARDS := x1]> sample_batch)))
              VALUE_TARGETS T)
    as [x4 H4]; [apply Hk0|apply Hk1|apply Hk2|]; [repeat constructor..|].
  eexists _, _. unfold run, compute_gae_for_sample_batch.
  rewrite (M_bind_lift_ok _ _ _ infos) by (apply getitem_inr; exact Hi).
  rewrite (M_bind_lift_ok _ _ _ _ Hdec).
  rewrite (M_bind_lift_ok _ _ _ _ Hxs).
  rewrite (M_bind_lift_ok _ _ _ nobs) by (apply getitem_inr; exact Hno).
  rewrite (M_bind_lift_ok _ _ _ (Float2 wa arows)) by (apply getitem_inr; exact Ha).
  rewrite (M_bind_lift_ok _ _ _ rew) by (apply getitem_inr; exact Hre).
  assert (mapM (agent_batch compute_advantages policy sample_batch rewards)
               [0; 1; 2]%nat [] = (l2, inr [b0; b1; b2])) as Hloop.
  { simpl. unfold mbind, M_bind.
    rewrite Hb0. cbv beta iota. rewrite Hb1. cbv beta iota. rewrite Hb2.
    reflexivity. }
  rewrite (M_bind_ok _ _ _ _ _ Hloop).
  unfold lift. simpl foldlM. rewrite H1. simpl. rewrite H2. simpl. rewrite H3. simpl.
  rewrite H4. reflexivity.
Qed.

(** *** The info side channel *)

Lemma mapM_SampleBatch_row {V} (rows rows' : list (gmap string V)) :
  mapM SampleBatch_row rows = inr rows' → rows' = rows.
Proof.
  revert rows'. induction rows as [|s rows IH]; intros rows' H; simpl in H.
  - apply result_ret_inr in H. exact H.
  - apply result_bind_inr in H as (s' & Hs & H).
    apply result_bind_inr in H as (tl & Htl & H).
    apply result_ret_inr in H as ->.
    unfold SampleBatch_row in Hs. destruct (bool_decide (s = ∅)); [discriminate|].
    apply result_ret_inr in Hs as ->. f_equal. apply IH. exact Htl.
Qed.

Lemma mapM_keyed_fst {W} (g : string → result W) (keys : list string)
    (cols : list (string * W)) :
  mapM (λ k, vs ← g k; mret (k, vs)) keys = inr cols → cols.*1 = keys.
Proof.
  revert cols. induction keys as [|k keys IH]; intros cols H; simpl in H.
  - apply result_ret_inr in H as ->. reflexivity.
  - apply result_bind_inr in H as (c & Hc & H).
    apply result_bind_inr in H as (tl & Htl & H).
    apply result_ret_inr in H as ->.
    apply result_bind_inr in Hc as (vs & _ & Hc).
    apply result_ret_inr in Hc as ->.
    simpl. f_equal. apply IH. exact Htl.
Qed.

(** The concatenation has no column the first batch lacks. *)
Lemma concat_samples_lookup_None {V} (s0 : gmap string V) rest m k :
  concat_samples (s0 :: rest) = inr m → s0 !! k = None → m !! k = None.
Proof.
  unfold concat_samples. intros H Hk.
  apply result_bind_inr in H as (cols & Hcols & H).
  apply result_ret_inr in H as ->.
  apply mapM_keyed_fst in Hcols.
  apply not_elem_of_list_to_map_1. rewrite Hcols.
  intros Hin. apply list_elem_of_fmap in Hin as ([k' v] & -> & Hin).
  apply elem_of_map_to_list in Hin. simpl in Hk. congruence.
Qed.

(** Without a "rewards" entry in the first info dict the deserialisation
    raises. *)
Lemma decomposed_rewards_raises d dicts :
  d !! "rewards" = None → ∃ e, decomposed_rewards (Infos (d :: dicts)) = inl e.
Proof.
  intros Hd. unfold decomposed_rewards. simpl dtype_is_float32. cbv iota.
  simpl iter_dicts. rewrite result_ret_bind.
  destruct (mapM SampleBatch_row (d :: dicts)) as [e|rows] eqn:Hrows;
    [exists e; reflexivity|].
  apply mapM_SampleBatch_row in Hrows as ->.
  change (inr (d :: dicts) ≫= ?f) with (f (d :: dicts)). cbv beta.
  destruct (concat_samples (d :: dicts)) as [e|m] eqn:Hm; [exists e; reflexivity|].
  apply (concat_samples_lookup_None _ _ _ "rewards") in Hm; [|exact Hd].
  exists (KeyError "rewards").
  change (inr m ≫= ?f) with (f m). cbv beta.
  unfold getitem at 1. rewrite Hm. reflexivity.
Qed.




(** C9.  The batch returned by the postprocessor has its REWARDS, VF_PREDS,
    ADVANTAGES and VALUE_TARGETS columns stacked from the three per-agent
    batches along a new trailing axis (row [t] of the column holds entry [t]
    of agents 0, 1 and 2), and every other column is the one of the segment
    it was given. *)
Theorem training_batch_columns policy (sample_batch : SampleBatch) log out :
  run (compute_gae_for_sample_batch compute_advantages policy sample_batch) = (log, inr out) →
  ∃ rewards b0 b1 b2 log1 log2,
    agent_batch compute_advantages policy sample_batch rewards 0 [] = (log1, inr b0) ∧
    agent_batch compute_advantages policy sample_batch rewards 1 log1 = (log2, inr b1) ∧
    agent_batch compute_advantages policy sample_batch rewards 2 log2 = (log, inr b2) ∧
    (∀ k, k ∈ [REWARDS; VF_PREDS; ADVANTAGES; VALUE_TARGETS] →
       ∃ x, stacked_from b0 b1 b2 k x ∧ out !! k = Some x) ∧
    (∀ k, k ∉ [REWARDS; VF_PREDS; ADVANTAGES; VALUE_TARGETS] →
       out !! k = sample_batch !! k).
Proof.
  intros Hrun.
  apply compute_gae_inr in Hrun
    as (infos & rewards & b0 & b1 & b2 & log1 & log2 & _ & _ & H0 & H1 & H2 & Hout).
  apply overwrite_stacked_four in Hout as (x1 & x2 & x3 & x4 & S1 & S2 & S3 & S4 & ->).
  exists rewards, b0, b1, b2, log1, log2. repeat split; try assumption.
  - intros k Hk. repeat (apply elem_of_cons in Hk as [->|Hk]).
    + exists x1. split; [assumption|].
      rewrite !lookup_insert_ne by discriminate. apply lookup_insert_eq.
    + exists x2. split; [assumption|].
      rewrite !lookup_insert_ne by discriminate. apply lookup_insert_eq.
    + exists x3. split; [assumption|].
      rewrite !lookup_insert_ne by discriminate. apply lookup_insert_eq.
    + exists x4. split; [assumption|]. apply lookup_insert_eq.
    + apply elem_of_nil in Hk. contradiction.
  - intros k Hk.
    rewrite !lookup_insert_ne; [reflexivity|..]; intros <-; apply Hk;
      repeat constructor.
Qed.

Lemma agent_sample_batch_placeholder (sample_batch : SampleBatch) infos i rollout :
  sample_batch !! INFOS = Some infos →
  agent_sample_batch sample_batch None i = inr rollout →
  rollout !! REWARDS = Some infos.
Proof.
  intros Hi H. unfold agent_sample_batch in H. invert_run H.
  rewrite !lookup_insert_ne by discriminate.
  rewrite lookup_insert_eq. congruence.
Qed.

(** C2 (as amended).  When the info column is a float32 array (the
    placeholder passed when there is no info), the postprocessor does not
    deserialise it and gives every agent the info column itself as reward
    column: on an otherwise well-formed segment it returns a batch whose
    stacked REWARDS column holds the info sequence in each of the three
    slots.  When the info column holds info dicts there is no fallback: if
    the first dict has no "rewards" entry the postprocessor raises, before
    calling any collaborator. *)
Theorem infos_fallback policy (sample_batch : SampleBatch) infos T :
  sample_batch !! INFOS = Some infos →
  (dtype_is_float32 infos = true →
     decomposed_rewards infos = inr None ∧
     (∀ i rollout,
        agent_sample_batch sample_batch None i = inr rollout →
        rollout !! REWARDS = Some infos) ∧
     (well_formed_segment policy sample_batch None T →
      advantages_total compute_advantages (config policy) T →
      ∃ log out r,
        run (compute_gae_for_sample_batch compute_advantages policy sample_batch)
          = (log, inr out) ∧
        infos = Float1 r ∧ out !! REWARDS = Some (stacked r r r))) ∧
  (∀ d dicts, infos = Infos (d :: dicts) → d !! "rewards" = None →
     ∃ e, run (compute_gae_for_sample_batch compute_advantages policy sample_batch)
          = ([], inl e)).
Proof.
  intros Hi. split.
  - intros Hf. split; [|split].
    + unfold decomposed_rewards. rewrite Hf. reflexivity.
    + intros i rollout. apply agent_sample_batch_placeholder. exact Hi.
    + intros Hwf Hca.
      destruct (compute_gae_ok _ _ _ _ Hwf Hca) as (log & out & Hrun).
      assert (∃ r, infos = Float1 r ∧ length r = T) as (r & -> & Hrl).
      { destruct Hwf as [_ _ _ _ _ _ (infos' & Hi' & _ & Hr)].
        rewrite Hi in Hi'. injection Hi' as <-. exact Hr. }
      exists log, out, r. split; [exact Hrun|]. split; [reflexivity|].
      apply compute_gae_inr in Hrun
        as (infos' & rewards & b0 & b1 & b2 & log1 & log2 & Hi' & Hdec & H0 & H1 & H2 & Hout).
      rewrite Hi in Hi'. injection Hi' as <-.
      unfold decomposed_rewards in Hdec. simpl in Hdec. injection Hdec as <-.
      assert (∀ i log log' b, (i < 3)%nat →
                agent_batch compute_advantages policy sample_batch None i log = (log', inr b) →
                b !! REWARDS = Some (Float1 r)) as Hb.
      { intros i l l' b Hi3 Hb.
        apply agent_batch_inr in Hb as (rollout & lr & l1 & Hroll & _ & _ & Hcall).
        destruct (agent_sample_batch_ok _ _ _ _ _ Hwf Hi3)
          as (rollout' & r' & v & Hroll' & Hr' & Hrl' & Hv & Hvl).
        rewrite Hroll in Hroll'. injection Hroll' as <-.
        destruct (Hca rollout lr r' v Hr' Hv Hrl' Hvl) as (adv & vt & _ & _ & Hcall').
        rewrite Hcall in Hcall'. injection Hcall' as ->.
        rewrite !lookup_insert_ne by discriminate.
        apply (agent_sample_batch_placeholder _ _ _ _ Hi Hroll). }
      apply Hb in H0; [|lia]. apply Hb in H1; [|lia]. apply Hb in H2; [|lia].
      apply overwrite_stacked_four in Hout
        as (x1 & x2 & x3 & x4 & (c0 & c1 & c2 & E0 & E1 & E2 & _ & _ & ->) & _ & _ & _ & ->).
      rewrite H0 in E0. rewrite H1 in E1. rewrite H2 in E2.
      injection E0 as <-. injection E1 as <-. injection E2 as <-.
      rewrite !lookup_insert_ne by discriminate. apply lookup_insert_eq.
  - intros d dicts -> Hd.
    destruct (decomposed_rewards_raises d dicts Hd) as [e He].
    exists e. unfold run, compute_gae_for_sample_batch.
    rewrite (M_bind_lift_ok _ _ _ (Infos (d :: dicts))) by (apply getitem_inr; exact Hi).
    apply M_bind_raise. unfold lift. rewrite He. reflexivity.
Qed.

End PostprocessorFacts.

(** *** The advantage recurrence *)

Lemma length_gae_advantages γ λ_ last rewards values :
  length rewards = length values →
  length (gae_advantages γ λ_ last rewards values) = length rewards.
Proof.
  revert values. induction rewards as [|r rs IH]; intros [|v vs] H;
    try discriminate; [reflexivity|].
  simpl in *. f_equal. apply IH. lia.
Qed.

Lemma length_discounted_returns γ last rewards :
  length (discounted_returns γ last rewards) = length rewards.
Proof. induction rewards as [|r rs IH]; simpl; [reflexivity|f_equal; exact IH]. Qed.

(** The recurrence of the data model is total on sequences of equal length,
    for every setting of the flags. *)
Lemma compute_advantages_spec_total cfg T :
  advantages_total compute_advantages_spec cfg T.
Proof.
  intros rollout lr r v Hr Hv Hrl Hvl. unfold compute_advantages_spec.
  rewrite (result_bind_ok _ _ (Float1 r)) by (apply getitem_inr; exact Hr).
  rewrite (result_bind_ok _ _ (Float1 v)) by (apply getitem_inr; exact Hv).
  replace (length r =? length v)%nat with true by (symmetry; apply Nat.eqb_eq; lia).
  eexists _, _. split; [|split; [|reflexivity]].
  - destruct (use_gae cfg).
    + rewrite length_gae_advantages; [exact Hrl|].
      destruct (default true (use_critic cfg)); rewrite ?length_map; lia.
    + rewrite length_zip_with, length_discounted_returns.
      destruct (default true (use_critic cfg)); rewrite ?length_map; lia.
  - destruct (default true (use_critic cfg)).
    + rewrite length_zip_with. destruct (use_gae cfg).
      * rewrite length_gae_advantages; lia.
      * rewrite length_zip_with, length_discounted_returns. lia.
    + rewrite length_discounted_returns. exact Hrl.
Qed.

(** The general advantage recurrence with [λ = 0] is the one-step residual:
    on the sample values, [delta[t] = reward[t] + γ V[t+1] - V[t]]. *)
Example gae_advantages_sample :
  gae_advantages (1 # 2) 0 4 [1; 2] [10; 20] = [1 + (1 # 2) * 20 - 10 + (1 # 2) * 0 * (2 + (1 # 2) * 4 - 20 + (1 # 2) * 0 * 0);
                                                   2 + (1 # 2) * 4 - 20 + (1 # 2) * 0 * 0].
Proof. reflexivity. Qed.

(** The sample segment, completed: the stacked advantages are there and the
    action column is the one of the segment. *)
Lemma training_batch_columns_witness :
  ∃ log out,
    run (compute_gae_for_sample_batch compute_advantages_spec
           (sample_policy true) (sample_segment true)) = (log, inr out) ∧
    (∃ b0 b1 b2 x, stacked_from b0 b1 b2 ADVANTAGES x ∧ out !! ADVANTAGES = Some x) ∧
    out !! ACTIONS = sample_segment true !! ACTIONS.
Proof.
  destruct (run (compute_gae_for_sample_batch compute_advantages_spec
                   (sample_policy true) (sample_segment true)))
    as [log [e|out]] eqn:E; [vm_compute in E; discriminate|].
  exists log, out. split; [reflexivity|].
  destruct (training_batch_columns _ _ _ _ _ E)
    as (rewards & b0 & b1 & b2 & log1 & log2 & _ & _ & _ & Hstack & Hframe).
  split.
  - exists b0, b1, b2. apply Hstack. vm_compute. do 2 right. left.
  - apply Hframe. intros Hk.
    repeat (apply elem_of_cons in Hk as [Hk|Hk]; [discriminate|]).
    apply elem_of_nil in Hk. exact Hk.
Defined.

Lemma placeholder_segment_well_formed :
  well_formed_segment (sample_policy true) (placeholder_segment true) None 2.
Proof.
  constructor.
  - simpl. intros j Hj. lia.
  - eexists. vm_compute. reflexivity.
  - eexists. vm_compute. reflexivity.
  - eexists _, _. vm_compute. reflexivity.
  - eexists _, _. split; [vm_compute; reflexivity|]. split; [lia|reflexivity].
  - exists (Bool1 [false; true]), true.
    split; [vm_compute; reflexivity|]. split; [reflexivity|discriminate].
  - exists (Float1 [7; 8]). split; [vm_compute; reflexivity|].
    split; [reflexivity|]. exists [7; 8]. split; reflexivity.
Qed.

(** The sample segment with the placeholder [7, 8] in its info column is
    completed with that sequence in every reward slot; the one whose info
    dicts have no "rewards" entry raises. *)
Lemma infos_fallback_witness :
  (∃ log out,
     run (compute_gae_for_sample_batch compute_advantages_spec
            (sample_policy true) (placeholder_segment true)) = (log, inr out) ∧
     out !! REWARDS = Some (stacked [7; 8] [7; 8] [7; 8])) ∧
  (∃ e, run (compute_gae_for_sample_batch compute_advantages_spec
               (sample_policy true) no_rewards_segment) = ([], inl e)).
Proof.
  split.
  - destruct (infos_fallback compute_advantages_spec (sample_policy true)
                (placeholder_segment true) (Float1 [7; 8]) 2) as [H _];
      [vm_compute; reflexivity|].
    destruct H as (_ & _ & H); [reflexivity|].
    destruct H as (log & out & r & Hrun & Hr & Hout);
      [apply placeholder_segment_well_formed|apply compute_advantages_spec_total|].
    injection Hr as <-. exists log, out. split; assumption.
  - destruct (infos_fallback compute_advantages_spec (sample_policy true)
                no_rewards_segment
                (Infos [{[ "steps" := InfoScalar 1 ]}; {[ "steps" := InfoScalar 2 ]}]) 2)
      as [_ H]; [vm_compute; reflexivity|].
    apply (H _ _ eq_refl). vm_compute. reflexivity.
Defined.

(** C2 as stated fails.  Info dicts without a reward decomposition make the
    postprocessor raise [KeyError]; and with the placeholder [7, 8] in the
    info column the reward slots of the result hold [7, 8], not the shared
    reward sequence [6, 15]. *)
Lemma infos_fallback_counterexample :
  run (compute_gae_for_sample_batch compute_advantages_spec
         (sample_policy true) no_rewards_segment) = ([], inl (KeyError "rewards")) ∧
  placeholder_segment true !! REWARDS = Some (Float1 [6; 15]) ∧
  ∃ log out,
    run (compute_gae_for_sample_batch compute_advantages_spec
           (sample_policy true) (placeholder_segment true)) = (log, inr out) ∧
    out !! REWARDS = Some (Float2 3 [[7; 7; 7]; [8; 8; 8]]).
Proof.
  split; [vm_compute; reflexivity|]. split; [vm_compute; reflexivity|].
  eexists _, _. split; [vm_compute; reflexivity|]. vm_compute. reflexivity.
Qed.

(** ** Surrogate loss evaluator *)

(** *** Means *)

Lemma scalar_eq_refl a : scalar_eq a a.
Proof. destruct a; simpl; [reflexivity|exact I]. Qed.

Lemma mean_of_proper (x y : Q) (n : nat) : x == y → scalar_eq (mean_of x n) (mean_of y n).
Proof.
  intros H. unfold mean_of. destruct (n =? 0)%nat; simpl; [exact I|].
  rewrite H. reflexivity.
Qed.

Lemma masked_select_sum (mask : list bool) (t : list Q) :
  sum_list (masked_select t mask)
  == sum_list (zip_with (λ (b : bool) x, if b then x else 0) mask t).
Proof.
  unfold masked_select. revert t.
  induction mask as [|b mask IH]; intros [|x t]; simpl; try reflexivity.
  destruct b; simpl; rewrite IH; ring.
Qed.

Lemma count_valid (mask : list bool) :
  count_occ bool_dec mask true = length (filter (λ b : bool, b = true) mask).
Proof.
  induction mask as [|b mask IH]; [reflexivity|].
  destruct b.
  - rewrite filter_cons_True by reflexivity. simpl. f_equal. exact IH.
  - rewrite filter_cons_False by discriminate. simpl. exact IH.
Qed.

(** The closure built in the RNN case computes the mean over valid
    positions. *)
Lemma reduce_mean_valid_masked (mask : list bool) (t : list Q) :
  length t = length mask →
  ∃ m, reduce_mean_valid (Some mask) t = inr m ∧ scalar_eq m (mean_over_valid mask t).
Proof.
  intros Hlen. unfold reduce_mean_valid.
  replace (length mask =? length t)%nat with true by (symmetry; apply Nat.eqb_eq; lia).
  eexists. split; [reflexivity|].
  unfold mean_over_valid. rewrite count_valid.
  apply mean_of_proper, masked_select_sum.
Qed.

Lemma reduce_mean_valid_shape (mask : list bool) (t : list Q) :
  length t ≠ length mask → reduce_mean_valid (Some mask) t = inl IndexError.
Proof.
  intros Hlen. unfold reduce_mean_valid.
  replace (length mask =? length t)%nat with false; [reflexivity|].
  symmetry. apply Nat.eqb_neq. lia.
Qed.

(** *** The mask over the flattened time axis *)

Lemma lookup_concat_uniform {A} (rows : list (list A)) (n i j : nat) :
  Forall (λ r, length r = n) rows → (j < n)%nat →
  concat rows !! (i * n + j)%nat = rows !! i ≫= (.!! j).
Proof.
  intros Hrows Hj. revert i. induction Hrows as [|r rows Hr Hrows IH]; intros i.
  - reflexivity.
  - simpl concat. destruct i as [|i].
    + simpl. rewrite lookup_app_l by lia. reflexivity.
    + rewrite lookup_app_r by (simpl; lia).
      replace (S i * n + j - length r)%nat with (i * n + j)%nat by (simpl; lia).
      apply IH.
Qed.

Lemma length_concat_uniform {A} (rows : list (list A)) (n : nat) :
  Forall (λ r, length r = n) rows → length (concat rows) = (length rows * n)%nat.
Proof.
  intros Hrows. induction Hrows as [|r rows Hr Hrows IH]; [reflexivity|].
  simpl. rewrite length_app, IH, Hr. reflexivity.
Qed.

Lemma sequence_mask_rows (lens : list nat) (L : nat) (time_major : bool) :
  Forall (λ r : list bool, length r = if time_major then length lens else L)
         (sequence_mask lens L time_major) ∧
  length (sequence_mask lens L time_major)
  = if time_major then L else length lens.
Proof.
  unfold sequence_mask. destruct time_major; split.
  - apply Forall_fmap, Forall_forall. intros t _. simpl. apply length_map.
  - rewrite length_map, length_seq. reflexivity.
  - apply Forall_fmap, Forall_forall. intros len _. simpl.
    rewrite length_map, length_seq. reflexivity.
  - apply length_map.
Qed.

(** The flattened mask has one entry per padded position and marks exactly
    the real steps. *)
Lemma flat_mask_valid (lens : list nat) (L : nat) (time_major : bool) :
  let mask := concat (sequence_mask lens L time_major) in
  length mask = (length lens * L)%nat ∧
  ∀ p, (p < length lens * L)%nat →
       mask !! p = Some (valid_step lens L time_major p).
Proof.
  destruct (sequence_mask_rows lens L time_major) as [Hrows Hlen].
  split.
  - rewrite (length_concat_uniform _ _ Hrows), Hlen. destruct time_major; lia.
  - intros p Hp. unfold valid_step. destruct time_major.
    + assert (length lens ≠ 0)%nat as HB by lia.
      assert (p / length lens < L)%nat as Ht
        by (apply Nat.Div0.div_lt_upper_bound; lia).
      assert (p mod length lens < length lens)%nat as Hb
        by (apply Nat.mod_upper_bound; exact HB).
      rewrite (Nat.div_mod_eq p (length lens)) at 1.
      rewrite (Nat.mul_comm (length lens)).
      rewrite (lookup_concat_uniform _ _ _ _ Hrows Hb).
      unfold sequence_mask. rewrite list_lookup_fmap, lookup_seq_lt by exact Ht.
      simpl. rewrite list_lookup_fmap.
      destruct (lookup_lt_is_Some_2 lens (p mod length lens) Hb) as [len Hl].
      rewrite Hl. simpl. rewrite (nth_lookup_Some _ _ _ _ Hl). reflexivity.
    + assert (L ≠ 0)%nat as HL by lia.
      assert (p / L < length lens)%nat as Hb
        by (apply Nat.Div0.div_lt_upper_bound; lia).
      assert (p mod L < L)%nat as Ht by (apply Nat.mod_upper_bound; exact HL).
      rewrite (Nat.div_mod_eq p L) at 1. rewrite (Nat.mul_comm L).
      rewrite (lookup_concat_uniform _ _ _ _ Hrows Ht).
      unfold sequence_mask. rewrite list_lookup_fmap.
      destruct (lookup_lt_is_Some_2 lens (p / L) Hb) as [len Hl].
      rewrite Hl. simpl. rewrite list_lookup_fmap, lookup_seq_lt by exact Ht.
      simpl. rewrite (nth_lookup_Some _ _ _ _ Hl). reflexivity.
Qed.

Section LossFacts.

Variable exp : Q → Q.
Variable explained_variance : ndarray → ndarray → scalar.

(** *** One agent's loss *)

(** Every mean of an agent's loss is the given mean, applied to the agent's
    entropies, to its negated surrogate, to its value loss and to its total
    terms; without GAE the value loss is the float [0.0] and the total has no
    value term. *)
Lemma agent_loss_means rmv policy fwd (train_batch : SampleBatch) i ld :
  agent_loss exp rmv policy fwd train_batch i = inr ld →
  ∃ curr_logp action_logp prev_logp curr_entropy advantages adv_i action_kl_i m_e m_p m_t,
    tensor_column (logp fwd) i = inr curr_logp ∧
    train_batch !! ACTION_LOGP = Some action_logp ∧
    tensor_column action_logp i = inr prev_logp ∧
    tensor_column (entropy fwd) i = inr curr_entropy ∧
    train_batch !! ADVANTAGES = Some advantages ∧
    tensor_column advantages i = inr adv_i ∧
    tensor_column (action_kl fwd) i = inr action_kl_i ∧
    rmv curr_entropy = inr m_e ∧ mean_entropy ld = Tensor0 m_e ∧
    rmv (map Qopp (surrogate (clip_param (config policy)) adv_i
                     (zip_with (λ c p, exp (c - p)) curr_logp prev_logp))) = inr m_p ∧
    mean_policy_loss ld = Tensor0 m_p ∧
    total_loss ld = Tensor0 m_t ∧
    if use_gae (config policy) then
      ∃ vf_preds prev_v v value_targets vt m_v,
        train_batch !! VF_PREDS = Some vf_preds ∧
        tensor_column vf_preds i = inr prev_v ∧
        tensor_column (value_fn_out fwd) i = inr v ∧
        train_batch !! VALUE_TARGETS = Some value_targets ∧
        tensor_column value_targets i = inr vt ∧
        rmv (value_loss (vf_clip_param (config policy)) prev_v v vt) = inr m_v ∧
        mean_vf_loss ld = Tensor0 m_v ∧
        rmv (total_terms_gae (kl_coeff (kl policy)) (vf_loss_coeff (config policy))
               (entropy_coeff policy)
               (surrogate (clip_param (config policy)) adv_i
                  (zip_with (λ c p, exp (c - p)) curr_logp prev_logp))
               action_kl_i
               (value_loss (vf_clip_param (config policy)) prev_v v vt)
               curr_entropy) = inr m_t
    else
      mean_vf_loss ld = PyFloat 0 ∧
      rmv (total_terms_no_gae (kl_coeff (kl policy)) (entropy_coeff policy)
             (surrogate (clip_param (config policy)) adv_i
                (zip_with (λ c p, exp (c - p)) curr_logp prev_logp))
             action_kl_i curr_entropy) = inr m_t.
Proof.
  intros H. unfold agent_loss in H.
  apply result_bind_inr in H as (curr_logp & H1 & H).
  apply result_bind_inr in H as (action_logp & H2 & H). apply getitem_inr in H2.
  apply result_bind_inr in H as (prev_logp & H3 & H).
  apply result_bind_inr in H as (curr_entropy & H4 & H).
  apply result_bind_inr in H as (m_e & H5 & H).
  apply result_bind_inr in H as (advantages & H6 & H). apply getitem_inr in H6.
  apply result_bind_inr in H as (adv_i & H7 & H).
  apply result_bind_inr in H as (m_p & H8 & H).
  destruct (use_gae (config policy)).
  - apply result_bind_inr in H as (vf_preds & G1 & H). apply getitem_inr in G1.
    apply result_bind_inr in H as (prev_v & G2 & H).
    apply result_bind_inr in H as (v & G3 & H).
    apply result_bind_inr in H as (value_targets & G4 & H). apply getitem_inr in G4.
    apply result_bind_inr in H as (vt & G5 & H).
    apply result_bind_inr in H as (m_v & G6 & H).
    apply result_bind_inr in H as (action_kl_i & G7 & H).
    apply result_bind_inr in H as (m_t & G8 & H).
    apply result_ret_inr in H as ->. simpl.
    exists curr_logp, action_logp, prev_logp, curr_entropy, advantages, adv_i,
      action_kl_i, m_e, m_p, m_t.
    repeat (split; [assumption || reflexivity|]).
    exists vf_preds, prev_v, v, value_targets, vt, m_v.
    repeat (split; [assumption || reflexivity|]). assumption.
  - apply result_bind_inr in H as (action_kl_i & G7 & H).
    apply result_bind_inr in H as (m_t & G8 & H).
    apply result_ret_inr in H as ->. simpl.
    exists curr_logp, action_logp, prev_logp, curr_entropy, advantages, adv_i,
      action_kl_i, m_e, m_p, m_t.
    repeat (split; [assumption || reflexivity|]). assumption.
Qed.

(** *** The aggregated loss *)

Lemma torch_stack_inr values xs :
  torch_stack values = inr xs → values = Tensor0 <$> xs ∧ values ≠ [].
Proof.
  unfold torch_stack. destruct values as [|v0 values0]; [discriminate|].
  set (values := v0 :: values0). intros H.
  split; [|discriminate].
  clearbody values. clear v0 values0.
  revert xs H. induction values as [|v values IH]; intros xs H; simpl in H.
  - apply result_ret_inr in H as ->. reflexivity.
  - apply result_bind_inr in H as (x & Hx & H).
    apply result_bind_inr in H as (tl & Htl & H).
    apply result_ret_inr in H as ->.
    destruct v; try discriminate. apply result_ret_inr in Hx as ->.
    simpl. f_equal. apply IH. exact Htl.
Qed.

(** A completed evaluation: the agents are the slots of VF_PREDS, and the
    total stored on the policy and returned is the sum of their totals. *)
Lemma loss_with_mean_inr rmv policy fwd (train_batch : SampleBatch) st st' total :
  loss_with_mean exp explained_variance rmv policy fwd train_batch st = (st', inr total) →
  ∃ w rows loss_data totals,
    train_batch !! VF_PREDS = Some (Float2 w rows) ∧ rows ≠ [] ∧
    mapM (agent_loss exp rmv policy fwd train_batch) (seq 0 w) = inr loss_data ∧
    total_loss <$> loss_data = Tensor0 <$> totals ∧
    total = torch_sum_scalars totals ∧
    _total_loss st' = Some total ∧
    ∃ kl_sums mean_kl,
      sum_axis1 (action_kl fwd) = inr kl_sums ∧ rmv kl_sums = inr mean_kl ∧
      _mean_kl st' = Some mean_kl.
Proof.
  intros H. unfold loss_with_mean in H.
  apply M_bind_inr in H as (kl_sums & s1 & H1 & H). apply lift_inr in H1 as [-> H1].
  apply M_bind_inr in H as (mean_kl & s2 & H2 & H). apply lift_inr in H2 as [-> H2].
  apply M_bind_inr in H as (vf_preds & s3 & H3 & H). apply lift_inr in H3 as [-> H3].
  apply getitem_inr in H3.
  apply M_bind_inr in H as (agents & s4 & H4 & H). apply lift_inr in H4 as [-> H4].
  apply M_bind_inr in H as (loss_data & s5 & H5 & H). apply lift_inr in H5 as [-> H5].
  apply M_bind_inr in H as (totals & s6 & H6 & H). apply lift_inr in H6 as [-> H6].
  apply M_bind_inr in H as ([] & s7 & H7 & H).
  apply M_bind_inr in H as (pls & s8 & H8 & H). apply lift_inr in H8 as [-> H8].
  apply M_bind_inr in H as ([] & s9 & H9 & H).
  apply M_bind_inr in H as (vls & s10 & H10 & H). apply lift_inr in H10 as [-> H10].
  apply M_bind_inr in H as ([] & s11 & H11 & H).
  apply M_bind_inr in H as (ents & s12 & H12 & H). apply lift_inr in H12 as [-> H12].
  apply M_bind_inr in H as ([] & s13 & H13 & H).
  apply M_bind_inr in H as (vts & s14 & H14 & H). apply lift_inr in H14 as [-> H14].
  apply M_bind_inr in H as ([] & s15 & H15 & H).
  apply M_bind_inr in H as ([] & s16 & H16 & H).
  apply M_ret_inr in H as [-> ->].
  unfold set_total_loss in H7. injection H7 as <-.
  unfold set_mean_policy_loss in H9. injection H9 as <-.
  unfold set_mean_vf_loss in H11. injection H11 as <-.
  unfold set_mean_entropy in H13. injection H13 as <-.
  unfold set_vf_explained_var in H15. injection H15 as <-.
  unfold set_mean_kl in H16. injection H16 as <-.
  assert (∃ w rows, vf_preds = Float2 w rows ∧ rows ≠ [] ∧ agents = w)
    as (w & rows & -> & Hrows & ->).
  { destruct vf_preds as [[|]|w [|row rows]|[|]|[|]|[|]]; try discriminate.
    apply result_ret_inr in H4 as ->. exists w, (row :: rows).
    split; [reflexivity|]. split; [discriminate|reflexivity]. }
  apply torch_stack_inr in H6 as [H6 _].
  exists w, rows, loss_data, totals. simpl.
  repeat (split; [assumption || reflexivity|]).
  exists kl_sums, mean_kl. auto.
Qed.

Lemma mapM_tensors xs :
  mapM (λ v : pyval, match v with
                     | Tensor0 x => mret x
                     | _ => raise TypeError
                     end) (Tensor0 <$> xs) = (inr xs : result (list scalar)).
Proof.
  induction xs as [|x xs IH]; [reflexivity|].
  change (Tensor0 <$> x :: xs) with (Tensor0 x :: (Tensor0 <$> xs)).
  cbn [mapM]. rewrite IH. reflexivity.
Qed.

Lemma torch_stack_tensors xs : xs ≠ [] → torch_stack (Tensor0 <$> xs) = inr xs.
Proof.
  intros Hxs. destruct xs as [|x0 xs0]; [contradiction|].
  exact (mapM_tensors (x0 :: xs0)).
Qed.

Lemma torch_stack_float q values : torch_stack (PyFloat q :: values) = inl TypeError.
Proof. reflexivity. Qed.

(** Without GAE every entry of [loss_data] carries the float [0.0] as its
    value loss, next to tensors for its total and its policy loss. *)
Lemma loss_data_no_gae rmv policy fwd (train_batch : SampleBatch) agents loss_data :
  use_gae (config policy) = false →
  mapM (agent_loss exp rmv policy fwd train_batch) agents = inr loss_data →
  ∃ totals policy_losses,
    total_loss <$> loss_data = Tensor0 <$> totals ∧
    mean_policy_loss <$> loss_data = Tensor0 <$> policy_losses ∧
    mean_vf_loss <$> loss_data = (λ _, PyFloat 0) <$> loss_data ∧
    length totals = length loss_data ∧ length policy_losses = length loss_data.
Proof.
  intros Hgae. revert loss_data.
  induction agents as [|i agents IH]; intros loss_data H; simpl in H.
  - apply result_ret_inr in H as ->. exists [], []. auto.
  - apply result_bind_inr in H as (ld & Hld & H).
    apply result_bind_inr in H as (lds & Hlds & H).
    apply result_ret_inr in H as ->.
    destruct (IH lds Hlds) as (ts & ps & Ht & Hp & Hv & Hlt & Hlp).
    apply agent_loss_means in Hld
      as (? & ? & ? & ? & ? & ? & ? & m_e & m_p & m_t &
          _ & _ & _ & _ & _ & _ & _ & _ & _ & _ & Hmp & Hmt & Hrest).
    rewrite Hgae in Hrest. destruct Hrest as [Hmv _].
    exists (m_t :: ts), (m_p :: ps).
    rewrite !fmap_cons, Hmt, Hmp, Hmv, Ht, Hp, Hv. simpl.
    rewrite Hlt, Hlp. auto.
Qed.

(** Without GAE the evaluation raises, whatever the batch: at the latest
    when it stacks the value losses, which are floats.  The value loss, the
    entropy, the explained variance and the KL are never stored. *)
Lemma loss_with_mean_no_gae rmv policy fwd (train_batch : SampleBatch) st :
  use_gae (config policy) = false →
  ∃ e st',
    loss_with_mean exp explained_variance rmv policy fwd train_batch st = (st', inl e) ∧
    _mean_vf_loss st' = _mean_vf_loss st ∧ _mean_entropy st' = _mean_entropy st ∧
    _vf_explained_var st' = _vf_explained_var st ∧ _mean_kl st' = _mean_kl st.
Proof.
  intros Hgae. unfold loss_with_mean.
  destruct (sum_axis1 (action_kl fwd)) as [e|kl_sums] eqn:E1;
    [exists e, st; split; [reflexivity|auto]|].
  rewrite (M_bind_lift_ok _ _ _ _ eq_refl).
  destruct (rmv kl_sums) as [e|mean_kl] eqn:E2;
    [exists e, st; split; [reflexivity|auto]|].
  rewrite (M_bind_lift_ok _ _ _ _ eq_refl).
  destruct (getitem train_batch VF_PREDS) as [e|vf_preds] eqn:E3;
    [exists e, st; split; [reflexivity|auto]|].
  rewrite (M_bind_lift_ok _ _ _ _ eq_refl).
  destruct (len_first_row vf_preds) as [e|agents] eqn:E4;
    [exists e, st; split; [reflexivity|auto]|].
  rewrite (M_bind_lift_ok _ _ _ _ eq_refl).
  destruct (mapM (agent_loss exp rmv policy fwd train_batch) (seq 0 agents))
    as [e|loss_data] eqn:E5; [exists e, st; split; [reflexivity|auto]|].
  rewrite (M_bind_lift_ok _ _ _ _ eq_refl).
  destruct (loss_data_no_gae _ _ _ _ _ _ Hgae E5)
    as (ts & ps & Ht & Hp & Hv & Hlt & Hlp).
  rewrite Ht, Hp, Hv.
  destruct loss_data as [|ld lds].
  - exists RuntimeError, st. destruct ts; [|discriminate]. split; [reflexivity|auto].
  - rewrite (M_bind_lift_ok _ _ _ ts)
      by (apply torch_stack_tensors; intros ->; discriminate).
    unfold mbind at 1, M_bind at 1, set_total_loss.
    rewrite (M_bind_lift_ok _ _ _ ps)
      by (apply torch_stack_tensors; intros ->; discriminate).
    unfold mbind at 1, M_bind at 1, set_mean_policy_loss.
    eexists TypeError, _. split; [reflexivity|]. simpl. auto.
Qed.

(** With identical inputs the three agents have the same loss. *)
Lemma agent_loss_identical rmv policy fwd (train_batch : SampleBatch) :
  identical_agents fwd train_batch →
  agent_loss exp rmv policy fwd train_batch 1 = agent_loss exp rmv policy fwd train_batch 0 ∧
  agent_loss exp rmv policy fwd train_batch 2 = agent_loss exp rmv policy fwd train_batch 0.
Proof.
  intros ([Hl1 Hl2] & [He1 He2] & [Hk1 Hk2] & [Hv1 Hv2] & Hb).
  assert (∀ k, k ∈ [ACTION_LOGP; ADVANTAGES; VF_PREDS; VALUE_TARGETS] →
            match train_batch !! k with
            | Some a => same_columns a
            | None => True
            end) as Hcol.
  { intros k Hk. destruct (train_batch !! k) as [a|] eqn:E; [|exact I].
    apply (Hb k a Hk E). }
  pose proof (Hcol ACTION_LOGP ltac:(repeat constructor)) as H1.
  pose proof (Hcol ADVANTAGES ltac:(repeat constructor)) as H2.
  pose proof (Hcol VF_PREDS ltac:(repeat constructor)) as H3.
  pose proof (Hcol VALUE_TARGETS ltac:(repeat constructor)) as H4.
  clear Hcol Hb.
  unfold agent_loss, getitem, mbind, result_bind, mret, result_ret, raise.
  destruct (train_batch !! ACTION_LOGP) as [a1|];
    destruct (train_batch !! ADVANTAGES) as [a2|];
    destruct (train_batch !! VF_PREDS) as [a3|];
    destruct (train_batch !! VALUE_TARGETS) as [a4|];
    cbv beta iota;
    repeat match goal with
           | H : same_columns _ |- _ => destruct H as [? ?]
           end;
    split;
    repeat match goal with
           | H : tensor_column _ _ = tensor_column _ 0%nat |- _ => rewrite H; clear H
           end;
    reflexivity.
Qed.

End LossFacts.

(** *** Properties of a whole evaluation *)

Lemma mapM_result_length {A B} (f : A → result B) (l : list A) (ys : list B) :
  mapM f l = inr ys → length ys = length l.
Proof.
  revert ys. induction l as [|x l IH]; intros ys H; simpl in H.
  - apply result_ret_inr in H as ->. reflexivity.
  - apply result_bind_inr in H as (y & _ & H).
    apply result_bind_inr in H as (tl & Htl & H).
    apply result_ret_inr in H as ->. simpl. f_equal. apply IH. exact Htl.
Qed.

Section LossProperties.

Variable exp : Q → Q.
Variable explained_variance : ndarray → ndarray → scalar.

Lemma ppo_surrogate_loss_no_gae policy fwd (train_batch : SampleBatch) st :
  use_gae (config policy) = false →
  ∃ e st',
    ppo_surrogate_loss exp explained_variance policy fwd train_batch st = (st', inl e) ∧
    _mean_vf_loss st' = _mean_vf_loss st ∧ _mean_entropy st' = _mean_entropy st ∧
    _vf_explained_var st' = _vf_explained_var st ∧ _mean_kl st' = _mean_kl st.
Proof.
  intros Hgae. unfold ppo_surrogate_loss.
  destruct (valid_mask fwd train_batch) as [e|mask] eqn:E.
  - exists e, st. split; [reflexivity|auto].
  - rewrite (M_bind_lift_ok _ _ _ _ eq_refl).
    apply loss_with_mean_no_gae. exact Hgae.
Qed.


(** X1.  With [use_gae] off the loss never returns: whatever the batch and
    the model outputs it raises, at the latest when [torch.stack] meets the
    float [0.0] stored as each agent's value loss, and the value loss, the
    entropy, the explained variance and the KL are not stored on the
    policy. *)
Theorem loss_raises_without_gae policy fwd (train_batch : SampleBatch) st :
  use_gae (config policy) = false →
  ∃ e st',
    ppo_surrogate_loss exp explained_variance policy fwd train_batch st = (st', inl e) ∧
    _mean_vf_loss st' = _mean_vf_loss st ∧ _mean_entropy st' = _mean_entropy st ∧
    _vf_explained_var st' = _vf_explained_var st ∧ _mean_kl st' = _mean_kl st.
Proof. apply ppo_surrogate_loss_no_gae. Qed.

Lemma ppo_surrogate_loss_inr policy fwd (train_batch : SampleBatch) st st' total :
  ppo_surrogate_loss exp explained_variance policy fwd train_batch st = (st', inr total) →
  ∃ mask,
    valid_mask fwd train_batch = inr mask ∧
    loss_with_mean exp explained_variance (reduce_mean_valid mask) policy fwd train_batch st
    = (st', inr total).
Proof.
  intros H. unfold ppo_surrogate_loss in H.
  apply M_bind_inr in H as (mask & s1 & H1 & H). apply lift_inr in H1 as [-> H1].
  exists mask. auto.
Qed.

(** X2.  The loss returned is the sum, not the mean, of the agents' total
    losses, one agent per slot of VF_PREDS (however many there are), and it
    is the value stored as [_total_loss]. *)
Theorem total_loss_sums_agents policy fwd (train_batch : SampleBatch) st st' total :
  ppo_surrogate_loss exp explained_variance policy fwd train_batch st = (st', inr total) →
  ∃ mask w rows loss_data totals,
    valid_mask fwd train_batch = inr mask ∧
    train_batch !! VF_PREDS = Some (Float2 w rows) ∧ rows ≠ [] ∧
    mapM (agent_loss exp (reduce_mean_valid mask) policy fwd train_batch) (seq 0 w)
      = inr loss_data ∧
    total_loss <$> loss_data = Tensor0 <$> totals ∧ length totals = w ∧
    total = torch_sum_scalars totals ∧ _total_loss st' = Some total.
Proof.
  intros H. apply ppo_surrogate_loss_inr in H as (mask & Hmask & H).
  apply loss_with_mean_inr in H
    as (w & rows & loss_data & totals & Hvf & Hrows & Hld & Hts & -> & Hst & _).
  exists mask, w, rows, loss_data, totals. repeat split; try assumption.
  apply mapM_result_length in Hld. rewrite length_seq in Hld.
  apply (f_equal length) in Hts. rewrite !length_fmap in Hts. lia.
Qed.

(** X3.  When VF_PREDS has three slots and the three agents have identical
    inputs (batch columns and model outputs), the loss returned is three
    times the total loss of agent 0. *)
Theorem total_loss_identical_agents policy fwd (train_batch : SampleBatch)
    st st' total rows :
  ppo_surrogate_loss exp explained_variance policy fwd train_batch st = (st', inr total) →
  train_batch !! VF_PREDS = Some (Float2 3 rows) →
  identical_agents fwd train_batch →
  ∃ mask ld single,
    valid_mask fwd train_batch = inr mask ∧
    agent_loss exp (reduce_mean_valid mask) policy fwd train_batch 0 = inr ld ∧
    total_loss ld = Tensor0 single ∧
    scalar_eq total (scalar_scale 3 single).
Proof.
  intros H Hvf Hid. apply ppo_surrogate_loss_inr in H as (mask & Hmask & H).
  apply loss_with_mean_inr in H
    as (w & rows' & loss_data & totals & Hvf' & _ & Hld & Hts & -> & _ & _).
  rewrite Hvf in Hvf'. injection Hvf' as <- <-.
  destruct (agent_loss_identical exp (reduce_mean_valid mask) policy fwd train_batch Hid)
    as [H1 H2].
  simpl in Hld. rewrite H1, H2 in Hld.
  destruct (agent_loss exp (reduce_mean_valid mask) policy fwd train_batch 0)
    as [e|ld] eqn:E; [discriminate|].
  simpl in Hld. injection Hld as <-.
  destruct totals as [|t0 [|t1 [|t2 [|]]]]; try discriminate.
  simpl in Hts. injection Hts as Ht0 Ht1 Ht2.
  exists mask, ld, t0. split; [exact Hmask|]. split; [exact E|].
  split; [exact Ht0|].
  rewrite Ht0 in Ht1, Ht2. injection Ht1 as <-. injection Ht2 as <-.
  destruct t0 as [x|]; simpl; [ring|exact I].
Qed.

Lemma ppo_surrogate_loss_stats policy fwd (train_batch : SampleBatch) st st' total :
  ppo_surrogate_loss exp explained_variance policy fwd train_batch st = (st', inr total) →
  ∃ mask w rows loss_data totals policy_losses vf_losses entropies value_targets
      kl_sums mean_kl,
    valid_mask fwd train_batch = inr mask ∧
    train_batch !! VF_PREDS = Some (Float2 w rows) ∧
    mapM (agent_loss exp (reduce_mean_valid mask) policy fwd train_batch) (seq 0 w)
      = inr loss_data ∧
    total_loss <$> loss_data = Tensor0 <$> totals ∧
    mean_policy_loss <$> loss_data = Tensor0 <$> policy_losses ∧
    mean_vf_loss <$> loss_data = Tensor0 <$> vf_losses ∧
    mean_entropy <$> loss_data = Tensor0 <$> entropies ∧
    train_batch !! VALUE_TARGETS = Some value_targets ∧
    sum_axis1 (action_kl fwd) = inr kl_sums ∧
    reduce_mean_valid mask kl_sums = inr mean_kl ∧
    total = torch_sum_scalars totals ∧
    st' = {| _total_loss := Some (torch_sum_scalars totals);
             _mean_policy_loss := Some (torch_mean_scalars policy_losses);
             _mean_vf_loss := Some (torch_mean_scalars vf_losses);
             _mean_entropy := Some (torch_mean_scalars entropies);
             _vf_explained_var :=
               Some (explained_variance value_targets (value_fn_out fwd));
             _mean_kl := Some mean_kl |}.
Proof.
  intros H. apply ppo_surrogate_loss_inr in H as (mask & Hmask & H).
  unfold loss_with_mean in H.
  apply M_bind_inr in H as (kl_sums & s1 & H1 & H). apply lift_inr in H1 as [-> H1].
  apply M_bind_inr in H as (mean_kl & s2 & H2 & H). apply lift_inr in H2 as [-> H2].
  apply M_bind_inr in H as (vf_preds & s3 & H3 & H). apply lift_inr in H3 as [-> H3].
  apply getitem_inr in H3.
  apply M_bind_inr in H as (agents & s4 & H4 & H). apply lift_inr in H4 as [-> H4].
  apply M_bind_inr in H as (loss_data & s5 & H5 & H). apply lift_inr in H5 as [-> H5].
  apply M_bind_inr in H as (totals & s6 & H6 & H). apply lift_inr in H6 as [-> H6].
  apply M_bind_inr in H as ([] & s7 & H7 & H).
  apply M_bind_inr in H as (pls & s8 & H8 & H). apply lift_inr in H8 as [-> H8].
  apply M_bind_inr in H as ([] & s9 & H9 & H).
  apply M_bind_inr in H as (vls & s10 & H10 & H). apply lift_inr in H10 as [-> H10].
  apply M_bind_inr in H as ([] & s11 & H11 & H).
  apply M_bind_inr in H as (ents & s12 & H12 & H). apply lift_inr in H12 as [-> H12].
  apply M_bind_inr in H as ([] & s13 & H13 & H).
  apply M_bind_inr in H as (vts & s14 & H14 & H). apply lift_inr in H14 as [-> H14].
  apply getitem_inr in H14.
  apply M_bind_inr in H as ([] & s15 & H15 & H).
  apply M_bind_inr in H as ([] & s16 & H16 & H).
  apply M_ret_inr in H as [-> ->].
  unfold set_total_loss in H7. injection H7 as <-.
  unfold set_mean_policy_loss in H9. injection H9 as <-.
  unfold set_mean_vf_loss in H11. injection H11 as <-.
  unfold set_mean_entropy in H13. injection H13 as <-.
  unfold set_vf_explained_var in H15. injection H15 as <-.
  unfold set_mean_kl in H16. injection H16 as <-.
  assert (∃ w rows, vf_preds = Float2 w rows ∧ agents = w) as (w & rows & -> & ->).
  { destruct vf_preds as [[|]|w [|row rows]|[|]|[|]|[|]]; try discriminate.
    apply result_ret_inr in H4 as ->. eauto. }
  apply torch_stack_inr in H6 as [H6 _]. apply torch_stack_inr in H8 as [H8 _].
  apply torch_stack_inr in H10 as [H10 _]. apply torch_stack_inr in H12 as [H12 _].
  exists mask, w, rows, loss_data, totals, pls, vls, ents, vts, kl_sums, mean_kl.
  simpl. repeat (split; [assumption || reflexivity|]). reflexivity.
Qed.

Lemma valid_mask_rnn fwd (train_batch : SampleBatch) lens :
  state fwd ≠ [] → train_batch !! "seq_lens" = Some (Int1 lens) → lens ≠ [] →
  ∃ mask,
    valid_mask fwd train_batch = inr (Some mask) ∧
    length mask = (length lens * (logits_rows fwd / length lens))%nat ∧
    ∀ p, (p < length mask)%nat →
         mask !! p = Some (valid_step lens (logits_rows fwd / length lens)
                             (is_time_major fwd) p).
Proof.
  intros Hstate Hlens Hne.
  destruct (flat_mask_valid lens (logits_rows fwd / length lens) (is_time_major fwd))
    as [Hlen Hvalid].
  eexists. split; [|split; [exact Hlen|]].
  - unfold valid_mask. rewrite bool_decide_eq_false_2 by exact Hstate.
    rewrite (result_bind_ok _ _ (Int1 lens)) by (apply getitem_inr; exact Hlens).
    destruct lens; [contradiction|]. reflexivity.
  - intros p Hp. apply Hvalid. rewrite <- Hlen. exact Hp.
Qed.



(** X4.  A completed evaluation assigns all six statistics, and what it
    leaves on the policy is determined by the batch and the model outputs
    alone, nothing of the statistics of an earlier step survives: the total
    is the sum over the agents, the policy loss, value loss and entropy are
    the unweighted means over the agents of the agents' means, the explained
    variance is taken once on the whole VALUE_TARGETS column and the KL is
    the mean of the KL summed over the agents' sub-actions. *)
Theorem loss_stores_all_stats policy fwd (train_batch : SampleBatch) st st' total :
  ppo_surrogate_loss exp explained_variance policy fwd train_batch st = (st', inr total) →
  ∃ mask w rows loss_data totals policy_losses vf_losses entropies value_targets
      kl_sums mean_kl,
    valid_mask fwd train_batch = inr mask ∧
    train_batch !! VF_PREDS = Some (Float2 w rows) ∧
    mapM (agent_loss exp (reduce_mean_valid mask) policy fwd train_batch) (seq 0 w)
      = inr loss_data ∧
    total_loss <$> loss_data = Tensor0 <$> totals ∧
    mean_policy_loss <$> loss_data = Tensor0 <$> policy_losses ∧
    mean_vf_loss <$> loss_data = Tensor0 <$> vf_losses ∧
    mean_entropy <$> loss_data = Tensor0 <$> entropies ∧
    train_batch !! VALUE_TARGETS = Some value_targets ∧
    sum_axis1 (action_kl fwd) = inr kl_sums ∧
    reduce_mean_valid mask kl_sums = inr mean_kl ∧
    total = torch_sum_scalars totals ∧
    st' = {| _total_loss := Some (torch_sum_scalars totals);
             _mean_policy_loss := Some (torch_mean_scalars policy_losses);
             _mean_vf_loss := Some (torch_mean_scalars vf_losses);
             _mean_entropy := Some (torch_mean_scalars entropies);
             _vf_explained_var :=
               Some (explained_variance value_targets (value_fn_out fwd));
             _mean_kl := Some mean_kl |}.
Proof. apply ppo_surrogate_loss_stats. Qed.

(** X5.  When the model returns recurrent state, the mask over the flattened
    time axis has one entry for each of the [B * (rows // B)] padded
    positions and marks exactly the real steps: position [p] is valid when
    its step index is below the length of its sequence. *)
Theorem mask_marks_real_steps fwd (train_batch : SampleBatch) lens :
  state fwd ≠ [] → train_batch !! "seq_lens" = Some (Int1 lens) → lens ≠ [] →
  ∃ mask,
    valid_mask fwd train_batch = inr (Some mask) ∧
    length mask = (length lens * (logits_rows fwd / length lens))%nat ∧
    ∀ p, (p < length mask)%nat →
         mask !! p = Some (valid_step lens (logits_rows fwd / length lens)
                             (is_time_major fwd) p).
Proof. apply valid_mask_rnn. Qed.

(** X6.  The mean the loss uses in the RNN case is the mean over the valid
    positions (the masked sum divided by the number of valid positions) on a
    tensor with one entry per mask position; on a tensor of any other length
    the boolean indexing raises.  Without recurrent state it is the
    unweighted mean, for which no batch column is read. *)
Theorem reduce_mean_valid_mean (mask : list bool) (t : list Q) :
  (length t = length mask →
     ∃ m, reduce_mean_valid (Some mask) t = inr m ∧
          scalar_eq m (mean_over_valid mask t)) ∧
  (length t ≠ length mask → reduce_mean_valid (Some mask) t = inl IndexError) ∧
  reduce_mean_valid None t = inr (unweighted_mean t).
Proof.
  split; [apply reduce_mean_valid_masked|].
  split; [apply reduce_mean_valid_shape|reflexivity].
Qed.

Lemma count_occ_all_false (mask : list bool) :
  Forall (λ b, b = false) mask → count_occ bool_dec mask true = 0%nat.
Proof.
  induction 1 as [|b mask -> _ IH]; [reflexivity|]. simpl. exact IH.
Qed.

(** X7.  A batch that is all padding (every sequence length is 0) is not
    rejected: every mean the loss takes over it is [nan]. *)
Theorem all_padding_gives_nan fwd (train_batch : SampleBatch) lens :
  state fwd ≠ [] → train_batch !! "seq_lens" = Some (Int1 lens) → lens ≠ [] →
  Forall (λ n, n = 0%nat) lens →
  ∃ mask,
    valid_mask fwd train_batch = inr (Some mask) ∧
    ∀ t, length t = length mask → reduce_mean_valid (Some mask) t = inr NaN.
Proof.
  intros Hstate Hlens Hne Hzero.
  destruct (valid_mask_rnn fwd train_batch lens Hstate Hlens Hne)
    as (mask & Hmask & Hlen & Hvalid).
  exists mask. split; [exact Hmask|].
  intros t Ht. unfold reduce_mean_valid.
  replace (length mask =? length t)%nat with true by (symmetry; apply Nat.eqb_eq; lia).
  rewrite count_occ_all_false; [reflexivity|].
  apply Forall_lookup. intros p b Hb.
  rewrite Hvalid in Hb by (eapply lookup_lt_Some; exact Hb).
  injection Hb as <-. unfold valid_step.
  assert (∀ i, nth i lens 0%nat = 0%nat) as Hnth.
  { intros i. destruct (lens !! i) as [n|] eqn:E.
    - rewrite (nth_lookup_Some _ _ _ _ E).
      eapply (proj1 (Forall_lookup _ _) Hzero). exact E.
    - apply nth_overflow. apply lookup_ge_None. exact E. }
  destruct (is_time_major fwd); rewrite Hnth; apply Nat.ltb_ge; lia.
Qed.

(** X8.  A batch without timesteps is not evaluated: when VF_PREDS has no
    row, reading the number of agents off its first row raises and no loss
    is returned. *)
Theorem empty_batch_raises policy fwd (train_batch : SampleBatch) w st :
  train_batch !! VF_PREDS = Some (Float2 w []) →
  ∃ e st', ppo_surrogate_loss exp explained_variance policy fwd train_batch st = (st', inl e).
Proof.
  intros Hvf.
  destruct (ppo_surrogate_loss exp explained_variance policy fwd train_batch st)
    as [st' [e|total]] eqn:E; [eauto|].
  apply ppo_surrogate_loss_inr in E as (mask & _ & E).
  apply loss_with_mean_inr in E as (w' & rows & _ & _ & Hvf' & Hrows & _).
  rewrite Hvf in Hvf'. injection Hvf' as <- <-. contradiction.
Qed.

(** X9.  With recurrent state and an empty [seq_lens] column the padded
    length [logits.shape[0] // B] is a division by zero: the loss raises
    before any statistic is assigned. *)
Theorem empty_seq_lens_raises policy fwd (train_batch : SampleBatch) st :
  state fwd ≠ [] → train_batch !! "seq_lens" = Some (Int1 []) →
  ppo_surrogate_loss exp explained_variance policy fwd train_batch st
  = (st, inl ZeroDivisionError).
Proof.
  intros Hstate Hlens. unfold ppo_surrogate_loss. apply M_bind_raise.
  unfold lift, valid_mask. rewrite bool_decide_eq_false_2 by exact Hstate.
  rewrite (result_bind_ok _ _ (Int1 [])) by (apply getitem_inr; exact Hlens).
  reflexivity.
Qed.

(** X10.  The statistics function reads the six attributes the loss assigns:
    after a completed evaluation it returns nine entries, with the loss just
    returned under "total_loss" and the current KL coefficient under
    "cur_kl_coeff"; after an evaluation without GAE on a policy that has no
    statistics yet it raises [AttributeError]. *)
Theorem stats_after_loss policy fwd (train_batch : SampleBatch) cur_lr st :
  (∀ st' total,
     ppo_surrogate_loss exp explained_variance policy fwd train_batch st = (st', inr total) →
     ∃ m, kl_and_loss_stats policy cur_lr st' = inr m ∧
          size m = 9%nat ∧
          m !! "total_loss" = Some (StatTuple total) ∧
          m !! "cur_kl_coeff" = Some (StatFloat (kl_coeff (kl policy)))) ∧
  (use_gae (config policy) = false → st = no_stats →
     ∀ st' r,
       ppo_surrogate_loss exp explained_variance policy fwd train_batch st = (st', r) →
       kl_and_loss_stats policy cur_lr st' = inl AttributeError).
Proof.
  split.
  - intros st' total H.
    apply ppo_surrogate_loss_stats in H
      as (mask & w & rows & ld & ts & ps & vs & es & vt & ks & mk &
          _ & _ & _ & _ & _ & _ & _ & _ & _ & _ & -> & ->).
    eexists. split; [reflexivity|]. split; [|split].
    + rewrite !map_size_insert_None, map_size_singleton; [reflexivity|..];
        rewrite ?lookup_insert_ne by discriminate;
        try apply lookup_singleton_ne; discriminate.
    + rewrite !lookup_insert_ne by discriminate. apply lookup_insert_eq.
    + apply lookup_insert_eq.
  - intros Hgae -> st' r H.
    destruct (ppo_surrogate_loss_no_gae policy fwd train_batch no_stats Hgae)
      as (e & st'' & H' & Hv & _).
    rewrite H in H'. injection H' as <- _.
    unfold kl_and_loss_stats. simpl in Hv.
    destruct (_total_loss st') as [t|]; [|reflexivity].
    destruct (_mean_policy_loss st') as [p|]; [|reflexivity].
    rewrite Hv. reflexivity.
Qed.

End LossProperties.

Lemma sample_identical_agents :
  identical_agents (sample_forward [] sample_kl) sample_train_batch.
Proof.
  repeat split; try reflexivity.
  all: repeat match goal with
       | H : _ ∈ _ :: _ |- _ => apply elem_of_cons in H as [->|H]
       | H : _ ∈ [] |- _ => apply elem_of_nil in H; contradiction
       end.
  all: match goal with
       | H : _ !! _ = Some _ |- _ => vm_compute in H; injection H as <-
       end; reflexivity.
Qed.

Lemma loss_raises_without_gae_witness :
  ∃ e st',
    ppo_surrogate_loss sample_exp sample_explained_variance (sample_policy false)
      (sample_forward [] sample_kl) sample_train_batch no_stats = (st', inl e).
Proof.
  destruct (loss_raises_without_gae sample_exp sample_explained_variance
              (sample_policy false) (sample_forward [] sample_kl) sample_train_batch
              no_stats eq_refl) as (e & st' & H & _).
  exists e, st'. exact H.
Defined.

Lemma total_loss_sums_agents_witness :
  ∃ st' total totals,
    ppo_surrogate_loss sample_exp sample_explained_variance (sample_policy true)
      (sample_forward [] sample_kl) sample_train_batch no_stats = (st', inr total) ∧
    length totals = 3%nat ∧ total = torch_sum_scalars totals.
Proof.
  destruct (ppo_surrogate_loss sample_exp sample_explained_variance (sample_policy true)
              (sample_forward [] sample_kl) sample_train_batch no_stats)
    as [st' [e|total]] eqn:E; [vm_compute in E; discriminate|].
  destruct (total_loss_sums_agents _ _ _ _ _ _ _ _ E)
    as (mask & w & rows & ld & totals & _ & Hvf & _ & _ & _ & Hlen & Htot & _).
  vm_compute in Hvf. injection Hvf as <- _.
  exists st', total, totals. auto.
Defined.

Lemma total_loss_identical_agents_witness :
  ∃ st' total single,
    ppo_surrogate_loss sample_exp sample_explained_variance (sample_policy true)
      (sample_forward [] sample_kl) sample_train_batch no_stats = (st', inr total) ∧
    scalar_eq total (scalar_scale 3 single).
Proof.
  destruct (ppo_surrogate_loss sample_exp sample_explained_variance (sample_policy true)
              (sample_forward [] sample_kl) sample_train_batch no_stats)
    as [st' [e|total]] eqn:E; [vm_compute in E; discriminate|].
  destruct (total_loss_identical_agents _ _ _ _ _ _ _ _
              [[1 # 2; 1 # 2; 1 # 2]; [1 # 4; 1 # 4; 1 # 4]] E)
    as (mask & ld & single & _ & _ & _ & H);
    [vm_compute; reflexivity|apply sample_identical_agents|].
  exists st', total, single. auto.
Defined.

Lemma loss_stores_all_stats_witness :
  ∃ st' total,
    ppo_surrogate_loss sample_exp sample_explained_variance (sample_policy true)
      (sample_forward [] sample_kl) sample_train_batch no_stats = (st', inr total) ∧
    _total_loss st' = Some total ∧ is_Some (_mean_kl st').
Proof.
  destruct (ppo_surrogate_loss sample_exp sample_explained_variance (sample_policy true)
              (sample_forward [] sample_kl) sample_train_batch no_stats)
    as [st' [e|total]] eqn:E; [vm_compute in E; discriminate|].
  destruct (loss_stores_all_stats _ _ _ _ _ _ _ _ E)
    as (mask & w & rows & ld & ts & ps & vs & es & vt & ks & mk &
        _ & _ & _ & _ & _ & _ & _ & _ & _ & _ & -> & ->).
  eexists _, _. split; [reflexivity|]. split; [reflexivity|]. simpl. eauto.
Defined.

Lemma mask_marks_real_steps_witness :
  ∃ mask,
    valid_mask (sample_forward [Float1 []] sample_kl) sample_train_batch = inr (Some mask) ∧
    mask !! 0%nat = Some true ∧ mask !! 1%nat = Some false.
Proof.
  destruct (mask_marks_real_steps (sample_forward [Float1 []] sample_kl)
              sample_train_batch [1%nat]) as (mask & Hmask & Hlen & Hvalid);
    [discriminate|vm_compute; reflexivity|discriminate|].
  exists mask. split; [exact Hmask|].
  split; rewrite Hvalid by (rewrite Hlen; simpl; lia); reflexivity.
Defined.

Lemma reduce_mean_valid_mean_witness :
  (∃ m, reduce_mean_valid (Some [true; false]) [3; 5] = inr m ∧
        scalar_eq m (mean_over_valid [true; false] [3; 5])) ∧
  reduce_mean_valid (Some [true; false]) [3] = inl IndexError.
Proof.
  destruct (reduce_mean_valid_mean [true; false] [3; 5]) as (H & _ & _).
  destruct (reduce_mean_valid_mean [true; false] [3]) as (_ & H' & _).
  split; [apply H; reflexivity|apply H'; discriminate].
Defined.

Lemma all_padding_gives_nan_witness :
  ∃ mask,
    valid_mask (sample_forward [Float1 []] sample_kl) padding_train_batch = inr (Some mask) ∧
    reduce_mean_valid (Some mask) [3; 5] = inr NaN.
Proof.
  destruct (all_padding_gives_nan (sample_forward [Float1 []] sample_kl)
              padding_train_batch [0%nat]) as (mask & Hmask & Hnan);
    [discriminate|vm_compute; reflexivity|discriminate|repeat constructor|].
  exists mask. split; [exact Hmask|]. apply Hnan.
  vm_compute in Hmask. injection Hmask as <-. reflexivity.
Defined.

Lemma empty_batch_raises_witness :
  ∃ e st',
    ppo_surrogate_loss sample_exp sample_explained_variance (sample_policy true)
      (sample_forward [] sample_kl) empty_train_batch no_stats = (st', inl e).
Proof.
  apply (empty_batch_raises sample_exp sample_explained_variance (sample_policy true)
           (sample_forward [] sample_kl) empty_train_batch 3 no_stats).
  vm_compute. reflexivity.
Defined.

Lemma empty_seq_lens_raises_witness :
  ppo_surrogate_loss sample_exp sample_explained_variance (sample_policy true)
    (sample_forward [Float1 []] sample_kl) no_sequence_train_batch no_stats
  = (no_stats, inl ZeroDivisionError).
Proof.
  apply empty_seq_lens_raises; [discriminate|vm_compute; reflexivity].
Defined.

Lemma stats_after_loss_witness :
  (∃ st' total m,
     ppo_surrogate_loss sample_exp sample_explained_variance (sample_policy true)
       (sample_forward [] sample_kl) sample_train_batch no_stats = (st', inr total) ∧
     kl_and_loss_stats (sample_policy true) (1 # 1000) st' = inr m ∧
     m !! "total_loss" = Some (StatTuple total)) ∧
  (∃ st' r,
     ppo_surrogate_loss sample_exp sample_explained_variance (sample_policy false)
       (sample_forward [] sample_kl) sample_train_batch no_stats = (st', r) ∧
     kl_and_loss_stats (sample_policy false) (1 # 1000) st' = inl AttributeError).
Proof.
  split.
  - destruct (ppo_surrogate_loss sample_exp sample_explained_variance (sample_policy true)
                (sample_forward [] sample_kl) sample_train_batch no_stats)
      as [st' [e|total]] eqn:E; [vm_compute in E; discriminate|].
    destruct (stats_after_loss sample_exp sample_explained_variance (sample_policy true)
                (sample_forward [] sample_kl) sample_train_batch (1 # 1000) no_stats)
      as [H _].
    destruct (H st' total E) as (m & Hm & _ & Ht & _).
    exists st', total, m. auto.
  - destruct (ppo_surrogate_loss sample_exp sample_explained_variance (sample_policy false)
                (sample_forward [] sample_kl) sample_train_batch no_stats)
      as [st' r] eqn:E.
    destruct (stats_after_loss sample_exp sample_explained_variance (sample_policy false)
                (sample_forward [] sample_kl) sample_train_batch (1 # 1000) no_stats)
      as [_ H].
    exists st', r. split; [reflexivity|]. apply (H eq_refl eq_refl st' r E).
Defined.

(** ** More on the trajectory postprocessor *)

Lemma M_bind_lift_cases {S A B} (r : result A) (f : A → M S B) (st : S) :
  (lift r ≫= f) st = match r with inl e => (st, inl e) | inr x => f x st end.
Proof. destruct r; reflexivity. Qed.

Lemma mapM_getitem_inr {V} (d : gmap string V) (key : nat → string) js xs :
  mapM (λ j : nat, getitem d (key j)) js = inr xs →
  ∀ j, j ∈ js → is_Some (d !! key j).
Proof.
  revert xs. induction js as [|j0 js IH]; intros xs H j Hj.
  - apply elem_of_nil in Hj. contradiction.
  - simpl in H.
    apply result_bind_inr in H as (x & Hx & H).
    apply result_bind_inr in H as (tl & Htl & _).
    apply elem_of_cons in Hj as [->|Hj].
    + apply getitem_inr in Hx. eauto.
    + eapply IH; eassumption.
Qed.

Lemma agent_sample_batch_inr (sample_batch : SampleBatch) rewards i rollout :
  agent_sample_batch sample_batch rewards i = inr rollout →
  ∃ r wa arows wv vrows,
    match rewards with
    | Some m => m !! pretty i = Some r
    | None => sample_batch !! INFOS = Some r
    end ∧
    sample_batch !! ACTIONS = Some (Float2 wa arows) ∧
    sample_batch !! VF_PREDS = Some (Float2 wv vrows) ∧ (i < wv)%nat ∧
    rollout = <[VF_PREDS := Float1 (map (λ row, nth i row 0) vrows)]>
                (<[ACTIONS := Float2 (Nat.min (i + 1) wa - Nat.min i wa)
                                     (map (λ row, take (i + 1 - i) (drop i row)) arows)]>
                   (<[REWARDS := r]> sample_batch)).
Proof.
  intros H. unfold agent_sample_batch in H.
  apply result_bind_inr in H as (r & Hr & H).
  apply result_bind_inr in H as (actions & Ha & H). apply getitem_inr in Ha.
  apply result_bind_inr in H as (actions_i & Hai & H).
  apply result_bind_inr in H as (vf_preds & Hv & H). apply getitem_inr in Hv.
  apply result_bind_inr in H as (vf_preds_i & Hvi & H).
  apply result_ret_inr in H as ->.
  destruct actions as [|wa arows| | |]; try discriminate.
  destruct vf_preds as [|wv vrows| | |]; try discriminate.
  simpl in Hai. apply result_ret_inr in Hai as ->.
  unfold column in Hvi. destruct (i <? wv)%nat eqn:E; [|discriminate].
  apply result_ret_inr in Hvi as ->. apply Nat.ltb_lt in E.
  exists r, wa, arows, wv, vrows. repeat split; try assumption.
  destruct rewards; apply getitem_inr; exact Hr.
Qed.

Lemma last_r_inr policy (sample_batch : SampleBatch) i log log' r :
  last_r policy sample_batch i log = (log', inr r) →
  ∃ dones d,
    sample_batch !! DONES = Some dones ∧ last_truth dones = inr d ∧
    (d = false →
       use_gae (config policy) = true ∧
       if _use_trajectory_view_api (config policy) then
         value_function policy (get_input_dict policy sample_batch (IndexStr "last")) !! i
         = Some r
       else
         ∃ ob prev_action prev_reward,
           bind_value_arguments (get_input_dict policy sample_batch (IndexStr "last"))
           = inr (ob, prev_action, prev_reward) ∧
           call_value policy ob prev_action prev_reward [] !! i = Some r).
Proof.
  intros H. pose proof H as H'. unfold last_r in H.
  apply M_bind_inr in H as (dones & s1 & H1 & H). apply lift_inr in H1 as [-> H1].
  apply getitem_inr in H1.
  apply M_bind_inr in H as (d & s2 & H2 & _). apply lift_inr in H2 as [-> H2].
  exists dones, d. split; [exact H1|]. split; [exact H2|].
  intros ->. rewrite (last_r_truncated _ _ _ _ _ H1 H2) in H'. cbv zeta in H'.
  destruct (use_gae (config policy)); [|discriminate].
  split; [reflexivity|].
  destruct (_use_trajectory_view_api (config policy)).
  - simpl in H'.
    destruct (value_function policy _ !! i); [|discriminate].
    injection H' as _ ->. reflexivity.
  - destruct (bind_value_arguments _) as [e|[[ob prev_action] prev_reward]];
      [discriminate|].
    exists ob, prev_action, prev_reward. split; [reflexivity|].
    simpl in H'. destruct (call_value policy _ _ _ _ !! i); [|discriminate].
    injection H' as _ ->. reflexivity.
Qed.

(** *** The info side channel, column by column *)

Lemma mapM_getitem_Forall2 {V} (samples : list (gmap string V)) k vs :
  mapM (λ s : gmap string V, getitem s k) samples = inr vs →
  Forall2 (λ s v, s !! k = Some v) samples vs.
Proof.
  revert vs. induction samples as [|s samples IH]; intros vs H; simpl in H.
  - apply result_ret_inr in H as ->. constructor.
  - apply result_bind_inr in H as (v & Hv & H).
    apply result_bind_inr in H as (tl & Htl & H).
    apply result_ret_inr in H as ->.
    constructor; [apply getitem_inr; exact Hv|apply IH; exact Htl].
Qed.

Lemma mapM_keyed_elem {W} (g : string → result W) (keys : list string)
    (cols : list (string * W)) k vs :
  mapM (λ k, vs ← g k; mret (k, vs)) keys = inr cols → (k, vs) ∈ cols → g k = inr vs.
Proof.
  revert cols. induction keys as [|k0 keys IH]; intros cols H Hin; simpl in H.
  - apply result_ret_inr in H as ->. apply elem_of_nil in Hin. contradiction.
  - apply result_bind_inr in H as (c & Hc & H).
    apply result_bind_inr in H as (tl & Htl & H).
    apply result_ret_inr in H as ->.
    apply result_bind_inr in Hc as (vs0 & Hvs0 & Hc).
    apply result_ret_inr in Hc as ->.
    apply elem_of_cons in Hin as [Heq|Hin].
    + injection Heq as -> ->. exact Hvs0.
    + eapply IH; eassumption.
Qed.

(** Every column of the concatenation holds, row by row, the entries of the
    batches under that key. *)
Lemma concat_samples_lookup {V} (samples : list (gmap string V)) m k vs :
  concat_samples samples = inr m → m !! k = Some vs →
  Forall2 (λ s v, s !! k = Some v) samples vs.
Proof.
  destruct samples as [|s0 rest]; [discriminate|].
  unfold concat_samples. intros H Hk.
  apply result_bind_inr in H as (cols & Hcols & H).
  apply result_ret_inr in H as ->.
  apply elem_of_list_to_map_2 in Hk.
  apply (mapM_keyed_elem _ _ _ _ _ Hcols) in Hk.
  apply mapM_getitem_Forall2 in Hk. exact Hk.
Qed.

Lemma mapM_reward_row rewards rrows :
  mapM reward_row rewards = inr rrows →
  Forall2 (λ v rrow, ∃ d, v = RewardDict d ∧ rrow = kmap pretty d) rewards rrows.
Proof.
  revert rrows. induction rewards as [|v rewards IH]; intros rrows H; simpl in H.
  - apply result_ret_inr in H as ->. constructor.
  - apply result_bind_inr in H as (row & Hrow & H).
    apply result_bind_inr in H as (tl & Htl & H).
    apply result_ret_inr in H as ->.
    constructor; [|apply IH; exact Htl].
    destruct v as [d|x]; [|discriminate].
    exists d. split; [reflexivity|].
    unfold reward_row, SampleBatch_row in Hrow.
    destruct (bool_decide _); [discriminate|].
    apply result_ret_inr in Hrow as ->. reflexivity.
Qed.

Lemma decomposed_rewards_inr infos m :
  decomposed_rewards infos = inr (Some m) →
  ∃ dicts,
    infos = Infos dicts ∧ dicts ≠ [] ∧
    ∀ key col, m !! key = Some col →
      ∃ c, col = Float1 c ∧ length c = length dicts ∧
        ∀ t d, dicts !! t = Some d →
          ∃ rd, d !! "rewards" = Some (RewardDict rd) ∧
                ∀ z : Z, pretty z = key → rd !! z = c !! t.
Proof.
  intros H. unfold decomposed_rewards in H.
  destruct (dtype_is_float32 infos) eqn:Hf; [discriminate|].
  apply result_bind_inr in H as (ds & Hds & H).
  apply result_bind_inr in H as (rows & Hrows & H).
  apply mapM_SampleBatch_row in Hrows as ->.
  apply result_bind_inr in H as (sbi & Hsbi & H).
  apply result_bind_inr in H as (rewards & Hrw & H). apply getitem_inr in Hrw.
  apply result_bind_inr in H as (rrows & Hrr & H).
  apply result_bind_inr in H as (sir & Hsir & H).
  apply result_ret_inr in H. injection H as ->.
  assert (ds ≠ []) as Hne by (intros ->; discriminate).
  assert (infos = Infos ds) as ->.
  { destruct infos as [xs|w xs|xs|xs|xs]; try discriminate;
      try (destruct xs; [|discriminate]; apply result_ret_inr in Hds; congruence).
    apply result_ret_inr in Hds as ->. reflexivity. }
  exists ds. split; [reflexivity|]. split; [exact Hne|].
  intros key col Hcol. rewrite lookup_fmap in Hcol.
  apply fmap_Some in Hcol as (c & Hc & ->).
  pose proof (concat_samples_lookup _ _ _ _ Hsbi Hrw) as F1.
  pose proof (mapM_reward_row _ _ Hrr) as F2.
  pose proof (concat_samples_lookup _ _ _ _ Hsir Hc) as F3.
  exists c. split; [reflexivity|]. split.
  { rewrite <- (Forall2_length _ _ _ F3), <- (Forall2_length _ _ _ F2).
    symmetry. exact (Forall2_length _ _ _ F1). }
  intros t d Ht.
  destruct (Forall2_lookup_l _ _ _ _ _ F1 Ht) as (v & Hv & Hdv).
  destruct (Forall2_lookup_l _ _ _ _ _ F2 Hv) as (rrow & Hrrow & rd & -> & ->).
  destruct (Forall2_lookup_l _ _ _ _ _ F3 Hrrow) as (x & Hx & Hkx).
  exists rd. split; [exact Hdv|].
  intros z <-. rewrite lookup_kmap in Hkx; [congruence|apply pretty_Z_inj].
Qed.

(** X13.  Deserialising the info column: a result is only returned for a
    non-empty array of info dicts, and then the sequence under key [str(z)]
    has one entry per timestep, entry [t] being the reward of agent [z] in
    the "rewards" dict of info dict [t]; the entries are all floats in the
    order of the timesteps. *)
Theorem rewards_deserialised infos m :
  decomposed_rewards infos = inr (Some m) →
  ∃ dicts,
    infos = Infos dicts ∧ dicts ≠ [] ∧
    ∀ key col, m !! key = Some col →
      ∃ c, col = Float1 c ∧ length c = length dicts ∧
        ∀ t d, dicts !! t = Some d →
          ∃ rd, d !! "rewards" = Some (RewardDict rd) ∧
                ∀ z : Z, pretty z = key → rd !! z = c !! t.
Proof. apply decomposed_rewards_inr. Qed.

Lemma nth_map_lookup (f : list Q → Q) (vrows : list (list Q)) t row :
  vrows !! t = Some row → nth t (map f vrows) 0 = f row.
Proof.
  intros E. apply nth_lookup_Some. change (map f vrows) with (f <$> vrows).
  rewrite list_lookup_fmap, E. reflexivity.
Qed.

Lemma stacked_columns (vrows : list (list Q)) :
  stacked (map (λ row, nth 0 row 0) vrows) (map (λ row, nth 1 row 0) vrows)
          (map (λ row, nth 2 row 0) vrows)
  = Float2 3 (map (λ row, [nth 0 row 0; nth 1 row 0; nth 2 row 0]) vrows).
Proof.
  unfold stacked. f_equal. rewrite length_map. apply list_eq. intros t.
  rewrite !list_lookup_fmap.
  destruct (vrows !! t) as [row|] eqn:E.
  - rewrite lookup_seq_lt by (eapply lookup_lt_Some; exact E). simpl.
    rewrite !(nth_map_lookup _ _ _ _ E). reflexivity.
  - rewrite lookup_seq_ge by (apply lookup_ge_None; exact E). reflexivity.
Qed.

Lemma stacked_lookup (c0 c1 c2 : list Q) t x0 x1 x2 :
  c0 !! t = Some x0 → c1 !! t = Some x1 → c2 !! t = Some x2 →
  ∃ rows, stacked c0 c1 c2 = Float2 3 rows ∧ length rows = length c0 ∧
          rows !! t = Some [x0; x1; x2].
Proof.
  intros H0 H1 H2. eexists. split; [reflexivity|]. split.
  - rewrite length_map, length_seq. reflexivity.
  - rewrite list_lookup_fmap, lookup_seq_lt by (eapply lookup_lt_Some; exact H0).
    simpl. rewrite (nth_lookup_Some _ _ _ _ H0), (nth_lookup_Some _ _ _ _ H1),
      (nth_lookup_Some _ _ _ _ H2). reflexivity.
Qed.

Section PostprocessorProperties.

Variable compute_advantages :
  SampleBatch → Q → Q → Q → bool → bool → result SampleBatch.

Lemma compute_gae_inr_touched policy (sample_batch : SampleBatch) log out :
  run (compute_gae_for_sample_batch compute_advantages policy sample_batch) = (log, inr out) →
  (∀ j, (j < num_state_tensors policy)%nat →
        is_Some (sample_batch !! ("state_out_" +:+ pretty j))) ∧
  is_Some (sample_batch !! NEXT_OBS) ∧ is_Some (sample_batch !! REWARDS).
Proof.
  intros H. unfold run, compute_gae_for_sample_batch in H.
  apply M_bind_inr in H as (infos & s1 & H1 & H). apply lift_inr in H1 as [-> H1].
  apply M_bind_inr in H as (rewards & s2 & H2 & H). apply lift_inr in H2 as [-> H2].
  apply M_bind_inr in H as (xs & s3 & H3 & H). apply lift_inr in H3 as [-> H3].
  apply M_bind_inr in H as (no & s4 & H4 & H). apply lift_inr in H4 as [-> H4].
  apply getitem_inr in H4.
  apply M_bind_inr in H as (ac & s5 & H5 & H). apply lift_inr in H5 as [-> H5].
  apply M_bind_inr in H as (re & s6 & H6 & H). apply lift_inr in H6 as [-> H6].
  apply getitem_inr in H6.
  split; [|eauto].
  intros j Hj.
  apply (mapM_getitem_inr sample_batch (λ j, "state_out_" +:+ pretty j) _ _ H3).
  apply elem_of_seq. lia.
Qed.

Lemma compute_gae_requires policy (sample_batch : SampleBatch) log out :
  run (compute_gae_for_sample_batch compute_advantages policy sample_batch) = (log, inr out) →
  is_Some (sample_batch !! INFOS) ∧
  (∀ j, (j < num_state_tensors policy)%nat →
        is_Some (sample_batch !! ("state_out_" +:+ pretty j))) ∧
  is_Some (sample_batch !! NEXT_OBS) ∧ is_Some (sample_batch !! REWARDS) ∧
  (∃ w rows, sample_batch !! ACTIONS = Some (Float2 w rows)) ∧
  (∃ w rows, sample_batch !! VF_PREDS = Some (Float2 w rows) ∧ (3 ≤ w)%nat) ∧
  (∃ dones d,
     sample_batch !! DONES = Some dones ∧ last_truth dones = inr d ∧
     (d = false →
        use_gae (config policy) = true ∧
        if _use_trajectory_view_api (config policy) then
          (3 ≤ length (value_function policy
                         (get_input_dict policy sample_batch (IndexStr "last"))))%nat
        else
          ∃ ob prev_action prev_reward,
            bind_value_arguments (get_input_dict policy sample_batch (IndexStr "last"))
            = inr (ob, prev_action, prev_reward) ∧
            (3 ≤ length (call_value policy ob prev_action prev_reward []))%nat)).
Proof.
  intros H.
  destruct (compute_gae_inr_touched _ _ _ _ H) as (Hso & Hno & Hre).
  apply compute_gae_inr in H
    as (infos & rewards & b0 & b1 & b2 & log1 & log2 & Hi & _ & _ & _ & H2 & _).
  apply agent_batch_inr in H2 as (rollout & r & l & Hroll & Hlast & _ & _).
  apply agent_sample_batch_inr in Hroll
    as (rw & wa & arows & wv & vrows & _ & Ha & Hv & Hw & _).
  apply last_r_inr in Hlast as (dones & d & Hd & Ht & Hgae).
  split; [eauto|]. split; [exact Hso|]. split; [exact Hno|]. split; [exact Hre|].
  split; [eauto|]. split; [exists wv, vrows; split; [exact Hv|lia]|].
  exists dones, d. split; [exact Hd|]. split; [exact Ht|].
  intros Hf. destruct (Hgae Hf) as [Hg Hl]. split; [exact Hg|].
  destruct (_use_trajectory_view_api (config policy)).
  - apply lookup_lt_Some in Hl. lia.
  - destruct Hl as (ob & prev_action & prev_reward & Hbind & Hl).
    exists ob, prev_action, prev_reward. split; [exact Hbind|].
    apply lookup_lt_Some in Hl. lia.
Qed.

(** X11.  What a segment must provide for the postprocessor to return, for
    any [compute_advantages]: the INFOS, NEXT_OBS and REWARDS columns and
    every [state_out_j] column (they are read although their value is not
    used); an ACTIONS column of rank 2; a VF_PREDS column of rank 2 with at
    least three slots; a DONES column whose last flag can be read; and, when
    that flag is false, GAE enabled and a value estimate of at least three
    slots: with the trajectory view API the value head read after
    [from_batch] on the last-timestep input dict, and without it an input
    dict that binds to the arguments of the direct call and the value head
    read after that call.  In every other case the postprocessor raises. *)
Theorem postprocess_requires policy (sample_batch : SampleBatch) log out :
  run (compute_gae_for_sample_batch compute_advantages policy sample_batch) = (log, inr out) →
  is_Some (sample_batch !! INFOS) ∧
  (∀ j, (j < num_state_tensors policy)%nat →
        is_Some (sample_batch !! ("state_out_" +:+ pretty j))) ∧
  is_Some (sample_batch !! NEXT_OBS) ∧ is_Some (sample_batch !! REWARDS) ∧
  (∃ w rows, sample_batch !! ACTIONS = Some (Float2 w rows)) ∧
  (∃ w rows, sample_batch !! VF_PREDS = Some (Float2 w rows) ∧ (3 ≤ w)%nat) ∧
  (∃ dones d,
     sample_batch !! DONES = Some dones ∧ last_truth dones = inr d ∧
     (d = false →
        use_gae (config policy) = true ∧
        if _use_trajectory_view_api (config policy) then
          (3 ≤ length (value_function policy
                         (get_input_dict policy sample_batch (IndexStr "last"))))%nat
        else
          ∃ ob prev_action prev_reward,
            bind_value_arguments (get_input_dict policy sample_batch (IndexStr "last"))
            = inr (ob, prev_action, prev_reward) ∧
            (3 ≤ length (call_value policy ob prev_action prev_reward []))%nat)).
Proof. apply compute_gae_requires. Qed.

Lemma agent_batch_no_gae policy (sample_batch : SampleBatch) rewards dones i log :
  sample_batch !! DONES = Some dones → last_truth dones = inr false →
  use_gae (config policy) = false →
  ∃ e, agent_batch compute_advantages policy sample_batch rewards i log = (log, inl e).
Proof.
  intros Hd Ht Hgae. unfold agent_batch. rewrite M_bind_lift_cases.
  destruct (agent_sample_batch sample_batch rewards i) as [e|rollout];
    [exists e; reflexivity|].
  exists TypeError. apply M_bind_raise.
  rewrite (last_r_truncated _ _ _ _ _ Hd Ht), Hgae. reflexivity.
Qed.

(** X12.  A truncated segment (final DONES flag false) cannot be
    postprocessed without GAE: the postprocessor raises for the first agent
    already, before any forward evaluation of the model and before any call
    of [compute_advantages]. *)
Theorem truncated_without_gae_raises policy (sample_batch : SampleBatch) dones :
  sample_batch !! DONES = Some dones → last_truth dones = inr false →
  use_gae (config policy) = false →
  ∃ e, run (compute_gae_for_sample_batch compute_advantages policy sample_batch)
       = ([], inl e).
Proof.
  intros Hd Ht Hgae. unfold run, compute_gae_for_sample_batch.
  rewrite M_bind_lift_cases.
  destruct (getitem sample_batch INFOS) as [e|infos]; [exists e; reflexivity|].
  rewrite M_bind_lift_cases.
  destruct (decomposed_rewards infos) as [e|rewards]; [exists e; reflexivity|].
  rewrite M_bind_lift_cases.
  destruct (mapM _ (seq 0 (num_state_tensors policy))) as [e|xs]; [exists e; reflexivity|].
  rewrite M_bind_lift_cases.
  destruct (getitem sample_batch NEXT_OBS) as [e|no]; [exists e; reflexivity|].
  rewrite M_bind_lift_cases.
  destruct (getitem sample_batch ACTIONS) as [e|ac]; [exists e; reflexivity|].
  rewrite M_bind_lift_cases.
  destruct (getitem sample_batch REWARDS) as [e|re]; [exists e; reflexivity|].
  destruct (agent_batch_no_gae policy sample_batch rewards dones 0 [] Hd Ht Hgae)
    as [e He].
  exists e. apply M_bind_raise. simpl. apply M_bind_raise. exact He.
Qed.

Lemma agent_batch_columns policy (sample_batch : SampleBatch) rewards T i log log' b :
  well_formed_segment policy sample_batch rewards T →
  advantages_total compute_advantages (config policy) T → (i < 3)%nat →
  agent_batch compute_advantages policy sample_batch rewards i log = (log', inr b) →
  ∃ r wv vrows,
    match rewards with
    | Some m => m !! pretty i = Some (Float1 r)
    | None => sample_batch !! INFOS = Some (Float1 r)
    end ∧
    length r = T ∧
    sample_batch !! VF_PREDS = Some (Float2 wv vrows) ∧
    b !! REWARDS = Some (Float1 r) ∧
    b !! VF_PREDS = Some (Float1 (map (λ row, nth i row 0) vrows)).
Proof.
  intros Hwf Hca Hi3 Hb.
  apply agent_batch_inr in Hb as (rollout & lr & l1 & Hroll & _ & _ & Hcall).
  destruct (agent_sample_batch_ok _ _ _ _ _ Hwf Hi3)
    as (rollout' & r & v & Hroll' & Hr & Hrl & Hv & Hvl).
  rewrite Hroll in Hroll'. injection Hroll' as <-.
  destruct (Hca rollout lr r v Hr Hv Hrl Hvl) as (adv & vt & _ & _ & Hcall').
  rewrite Hcall in Hcall'. injection Hcall' as ->.
  apply agent_sample_batch_inr in Hroll
    as (rw & wa & arows & wv & vrows & Hrw & _ & Hvf & _ & ->).
  rewrite lookup_insert_eq in Hv. injection Hv as <-.
  rewrite !lookup_insert_ne in Hr by discriminate.
  rewrite lookup_insert_eq in Hr. injection Hr as ->.
  exists r, wv, vrows. split; [exact Hrw|]. split; [exact Hrl|]. split; [exact Hvf|].
  split.
  - rewrite !lookup_insert_ne by discriminate. apply lookup_insert_eq.
  - rewrite !lookup_insert_ne by discriminate. apply lookup_insert_eq.
Qed.

Lemma compute_gae_well_formed policy (sample_batch : SampleBatch) rewards T wv vrows :
  well_formed_segment policy sample_batch rewards T →
  advantages_total compute_advantages (config policy) T →
  sample_batch !! VF_PREDS = Some (Float2 wv vrows) →
  ∃ log out r0 r1 r2,
    run (compute_gae_for_sample_batch compute_advantages policy sample_batch)
      = (log, inr out) ∧
    (∀ i r, [r0; r1; r2] !! i = Some r →
       length r = T ∧
       match rewards with
       | Some m => m !! pretty i = Some (Float1 r)
       | None => sample_batch !! INFOS = Some (Float1 r)
       end) ∧
    out !! REWARDS = Some (stacked r0 r1 r2) ∧
    out !! VF_PREDS
      = Some (Float2 3 (map (λ row, [nth 0 row 0; nth 1 row 0; nth 2 row 0]) vrows)) ∧
    out !! ACTIONS = sample_batch !! ACTIONS.
Proof.
  intros Hwf Hca Hvf.
  destruct (compute_gae_ok _ _ _ _ _ Hwf Hca) as (log & out & Hrun).
  exists log, out.
  apply compute_gae_inr in Hrun as Hinv.
  destruct Hinv
    as (infos & rewards' & b0 & b1 & b2 & log1 & log2 & Hi & Hdec & H0 & H1 & H2 & Hout).
  assert (rewards' = rewards) as ->.
  { destruct Hwf as [_ _ _ _ _ _ (infos' & Hi' & Hdec' & _)]. congruence. }
  apply (agent_batch_columns _ _ _ T) in H0
    as (r0 & w0 & v0 & Hm0 & Hl0 & Hv0 & Hr0 & Hc0); [|assumption|assumption|lia].
  apply (agent_batch_columns _ _ _ T) in H1
    as (r1 & w1 & v1 & Hm1 & Hl1 & Hv1 & Hr1 & Hc1); [|assumption|assumption|lia].
  apply (agent_batch_columns _ _ _ T) in H2
    as (r2 & w2 & v2 & Hm2 & Hl2 & Hv2 & Hr2 & Hc2); [|assumption|assumption|lia].
  rewrite Hvf in Hv0, Hv1, Hv2.
  injection Hv0 as <- <-. injection Hv1 as <- <-. injection Hv2 as <- <-.
  apply overwrite_stacked_four in Hout
    as (x1 & x2 & x3 & x4 & (c0 & c1 & c2 & E0 & E1 & E2 & _ & _ & ->)
          & (d0 & d1 & d2 & F0 & F1 & F2 & _ & _ & ->) & _ & _ & ->).
  rewrite Hr0 in E0. rewrite Hr1 in E1. rewrite Hr2 in E2.
  injection E0 as <-. injection E1 as <-. injection E2 as <-.
  rewrite Hc0 in F0. rewrite Hc1 in F1. rewrite Hc2 in F2.
  injection F0 as <-. injection F1 as <-. injection F2 as <-.
  exists r0, r1, r2. split; [exact Hrun|]. split; [|split; [|split]].
  - intros [|[|[|i]]] r Hr; try discriminate; injection Hr as <-; auto.
  - rewrite !lookup_insert_ne by discriminate. apply lookup_insert_eq.
  - rewrite !lookup_insert_ne by discriminate. rewrite lookup_insert_eq.
    rewrite stacked_columns. reflexivity.
  - rewrite !lookup_insert_ne by discriminate. reflexivity.
Qed.

(** X14.  On a well-formed segment the postprocessor returns, whatever the
    width of the action column and for any number of value slots from three
    on, and nothing tells the caller when there are more than three: the
    VF_PREDS column of the result keeps the first three slots of every row
    and drops the others, and the ACTIONS column is returned as it came (the
    per-agent slices are not stored). *)
Theorem extra_slots_dropped policy (sample_batch : SampleBatch) rewards T wv vrows :
  well_formed_segment policy sample_batch rewards T →
  advantages_total compute_advantages (config policy) T →
  sample_batch !! VF_PREDS = Some (Float2 wv vrows) →
  ∃ log out,
    run (compute_gae_for_sample_batch compute_advantages policy sample_batch)
      = (log, inr out) ∧
    out !! VF_PREDS
      = Some (Float2 3 (map (λ row, [nth 0 row 0; nth 1 row 0; nth 2 row 0]) vrows)) ∧
    out !! ACTIONS = sample_batch !! ACTIONS.
Proof.
  intros Hwf Hca Hvf.
  destruct (compute_gae_well_formed _ _ _ _ _ _ Hwf Hca Hvf)
    as (log & out & r0 & r1 & r2 & Hrun & _ & _ & Hv & Ha).
  exists log, out. auto.
Qed.

(** X15.  With info dicts in the info column, the REWARDS column of the
    result comes from the info dicts alone: it has one row per info dict,
    and row [t] holds the rewards of agents 0, 1 and 2 in the "rewards"
    entry of info dict [t].  The shared REWARDS column of the segment is
    overwritten. *)
Theorem rewards_from_infos policy (sample_batch : SampleBatch) dicts m T :
  sample_batch !! INFOS = Some (Infos dicts) →
  well_formed_segment policy sample_batch (Some m) T →
  advantages_total compute_advantages (config policy) T →
  ∃ log out rows,
    run (compute_gae_for_sample_batch compute_advantages policy sample_batch)
      = (log, inr out) ∧
    out !! REWARDS = Some (Float2 3 rows) ∧ length rows = length dicts ∧
    ∀ t d, dicts !! t = Some d →
      ∃ rd x0 x1 x2,
        d !! "rewards" = Some (RewardDict rd) ∧
        rd !! 0%Z = Some x0 ∧ rd !! 1%Z = Some x1 ∧ rd !! 2%Z = Some x2 ∧
        rows !! t = Some [x0; x1; x2].
Proof.
  intros Hi Hwf Hca.
  destruct (wf_vf_preds _ _ _ _ Hwf) as (wv & vrows & Hvf & _ & _).
  destruct (compute_gae_well_formed _ _ _ _ _ _ Hwf Hca Hvf)
    as (log & out & r0 & r1 & r2 & Hrun & Hm & Hr & _ & _).
  destruct (Hm 0%nat r0 eq_refl) as [Hl0 Hm0].
  destruct (Hm 1%nat r1 eq_refl) as [Hl1 Hm1].
  destruct (Hm 2%nat r2 eq_refl) as [Hl2 Hm2].
  destruct (wf_infos _ _ _ _ Hwf) as (infos & Hi' & Hdec & _).
  rewrite Hi in Hi'. injection Hi' as <-.
  apply decomposed_rewards_inr in Hdec as (dicts' & Heq & _ & Hcols).
  injection Heq as <-.
  destruct (Hcols _ _ Hm0) as (c0 & Hc0 & Hlen0 & Hd0). injection Hc0 as <-.
  destruct (Hcols _ _ Hm1) as (c1 & Hc1 & Hlen1 & Hd1). injection Hc1 as <-.
  destruct (Hcols _ _ Hm2) as (c2 & Hc2 & Hlen2 & Hd2). injection Hc2 as <-.
  exists log, out, (map (λ t, [nth t r0 0; nth t r1 0; nth t r2 0]) (seq 0 (length r0))).
  split; [exact Hrun|]. split; [exact Hr|].
  split; [rewrite length_map, length_seq; exact Hlen0|].
  intros t d Ht.
  destruct (Hd0 t d Ht) as (rd & Hrd & Hz0).
  destruct (Hd1 t d Ht) as (rd1 & Hrd1 & Hz1).
  destruct (Hd2 t d Ht) as (rd2 & Hrd2 & Hz2).
  rewrite Hrd in Hrd1, Hrd2. injection Hrd1 as <-. injection Hrd2 as <-.
  pose proof (lookup_lt_Some _ _ _ Ht) as Hlt.
  destruct (lookup_lt_is_Some_2 r0 t) as [x0 Hx0]; [lia|].
  destruct (lookup_lt_is_Some_2 r1 t) as [x1 Hx1]; [lia|].
  destruct (lookup_lt_is_Some_2 r2 t) as [x2 Hx2]; [lia|].
  exists rd, x0, x1, x2. split; [exact Hrd|].
  split; [rewrite (Hz0 0%Z eq_refl); exact Hx0|].
  split; [rewrite (Hz1 1%Z eq_refl); exact Hx1|].
  split; [rewrite (Hz2 2%Z eq_refl); exact Hx2|].
  destruct (stacked_lookup r0 r1 r2 t x0 x1 x2 Hx0 Hx1 Hx2) as (rows & Hrows & _ & Hrow).
  unfold stacked in Hrows. injection Hrows as <-. exact Hrow.
Qed.

Lemma agent_sample_batch_narrow policy (sample_batch : SampleBatch) rewards T w rows i :
  well_formed_segment policy sample_batch rewards T → (i < 3)%nat → length rows = T →
  ∃ r aw arows,
    length r = T ∧
    agent_sample_batch (<[VF_PREDS := Float2 w rows]> sample_batch) rewards i
    = vf_preds_i ← column (Float2 w rows) i;
      mret (<[VF_PREDS := vf_preds_i]>
              (<[ACTIONS := Float2 aw arows]>
                 (<[REWARDS := Float1 r]> (<[VF_PREDS := Float2 w rows]> sample_batch)))).
Proof.
  intros [_ _ _ (wa & arows & Ha) _ _ (infos & Hi & _ & Hr)] Hi3 Hlen.
  assert (∃ r, match rewards with
               | Some m => getitem m (pretty i)
               | None => getitem (<[VF_PREDS := Float2 w rows]> sample_batch) INFOS
               end = inr (Float1 r) ∧ length r = T) as (r & Hget & Hrlen).
  { destruct rewards as [m|].
    - destruct (Hr i Hi3) as (r & Hm & Hrl). exists r. split; [|exact Hrl].
      apply getitem_inr. exact Hm.
    - destruct Hr as (r & -> & Hrl). exists r. split; [|exact Hrl].
      apply getitem_inr. rewrite lookup_insert_ne by discriminate. exact Hi. }
  exists r, (Nat.min (i + 1) wa - Nat.min i wa)%nat,
         (map (λ row, take (i + 1 - i) (drop i row)) arows).
  split; [exact Hrlen|].
  unfold agent_sample_batch.
  rewrite (result_bind_ok _ _ _ Hget).
  rewrite (result_bind_ok _ _ (Float2 wa arows))
    by (apply getitem_inr; rewrite lookup_insert_ne by discriminate; exact Ha).
  simpl slice_columns. rewrite result_ret_bind.
  rewrite (result_bind_ok _ _ (Float2 w rows)) by (apply getitem_inr; apply lookup_insert_eq).
  reflexivity.
Qed.

Lemma agent_batch_narrow_ok policy (sample_batch : SampleBatch) rewards T w rows dones i log :
  well_formed_segment policy sample_batch rewards T →
  advantages_total compute_advantages (config policy) T →
  sample_batch !! DONES = Some dones → last_truth dones = inr true →
  length rows = T → (i < 3)%nat → (i < w)%nat →
  ∃ rollout b,
    agent_batch compute_advantages policy (<[VF_PREDS := Float2 w rows]> sample_batch)
      rewards i log = (log ++ [ComputeAdvantages rollout 0], inr b).
Proof.
  intros Hwf Hca Hd Ht Hlen Hi3 Hiw.
  destruct (agent_sample_batch_narrow _ _ _ _ w rows i Hwf Hi3 Hlen)
    as (r & aw & arows & Hrl & Hroll).
  unfold column in Hroll.
  replace (i <? w)%nat with true in Hroll by (symmetry; apply Nat.ltb_lt; exact Hiw).
  rewrite result_ret_bind in Hroll.
  match type of Hroll with _ = mret ?x => set (rollout := x) in Hroll end.
  destruct (Hca rollout 0 r (map (λ row, nth i row 0) rows))
    as (adv & vt & _ & _ & Hcall).
  { unfold rollout. rewrite !lookup_insert_ne by discriminate. apply lookup_insert_eq. }
  { unfold rollout. apply lookup_insert_eq. }
  { exact Hrl. }
  { rewrite length_map. exact Hlen. }
  exists rollout. eexists. unfold agent_batch.
  rewrite (M_bind_lift_ok _ _ _ _ Hroll).
  assert (<[VF_PREDS := Float2 w rows]> sample_batch !! DONES = Some dones) as Hd'
    by (rewrite lookup_insert_ne by discriminate; exact Hd).
  rewrite (M_bind_ok _ _ _ _ _ (last_r_done policy _ dones i log Hd' Ht)).
  unfold mbind at 1, M_bind at 1, tell, lift. rewrite Hcall. reflexivity.
Qed.

Lemma agent_batch_narrow_raises policy (sample_batch : SampleBatch) rewards T w rows i log :
  well_formed_segment policy sample_batch rewards T →
  length rows = T → (i < 3)%nat → (w ≤ i)%nat →
  agent_batch compute_advantages policy (<[VF_PREDS := Float2 w rows]> sample_batch)
    rewards i log = (log, inl IndexError).
Proof.
  intros Hwf Hlen Hi3 Hwi.
  destruct (agent_sample_batch_narrow _ _ _ _ w rows i Hwf Hi3 Hlen)
    as (r & aw & arows & _ & Hroll).
  unfold column in Hroll.
  replace (i <? w)%nat with false in Hroll by (symmetry; apply Nat.ltb_ge; exact Hwi).
  unfold agent_batch. apply M_bind_raise. unfold lift. rewrite Hroll. reflexivity.
Qed.

Lemma compute_gae_narrow policy (sample_batch : SampleBatch) rewards T w rows dones :
  well_formed_segment policy sample_batch rewards T →
  advantages_total compute_advantages (config policy) T →
  sample_batch !! DONES = Some dones → last_truth dones = inr true →
  (w < 3)%nat → length rows = T →
  ∃ log,
    run (compute_gae_for_sample_batch compute_advantages policy
           (<[VF_PREDS := Float2 w rows]> sample_batch)) = (log, inl IndexError) ∧
    length log = w ∧
    ∀ e, e ∈ log → ∃ rollout, e = ComputeAdvantages rollout 0.
Proof.
  intros Hwf Hca Hd Ht Hw Hlen.
  pose proof Hwf as [Hso [nobs Hno] [rew Hre] (wa & arows & Ha) _ _
                       (infos & Hi & Hdec & _)].
  destruct (touch_state_out (<[VF_PREDS := Float2 w rows]> sample_batch)
              (seq 0 (num_state_tensors policy))) as [xs Hxs].
  { intros j Hj. rewrite lookup_insert_ne by discriminate.
    apply Hso. apply elem_of_seq in Hj. lia. }
  assert (∀ l r,
            mapM (agent_batch compute_advantages policy
                    (<[VF_PREDS := Float2 w rows]> sample_batch) rewards)
                 [0; 1; 2]%nat [] = (l, r) →
            run (compute_gae_for_sample_batch compute_advantages policy
                   (<[VF_PREDS := Float2 w rows]> sample_batch))
            = (l, match r with inl e => inl e | inr _ => inl IndexError end) ∨
            ∃ bs, r = inr bs) as Hpre.
  { intros l r Hloop. destruct r as [e|bs]; [left|right; eauto].
    unfold run, compute_gae_for_sample_batch.
    rewrite (M_bind_lift_ok _ _ _ infos)
      by (apply getitem_inr; rewrite lookup_insert_ne by discriminate; exact Hi).
    rewrite (M_bind_lift_ok _ _ _ _ Hdec).
    rewrite (M_bind_lift_ok _ _ _ _ Hxs).
    rewrite (M_bind_lift_ok _ _ _ nobs)
      by (apply getitem_inr; rewrite lookup_insert_ne by discriminate; exact Hno).
    rewrite (M_bind_lift_ok _ _ _ (Float2 wa arows))
      by (apply getitem_inr; rewrite lookup_insert_ne by discriminate; exact Ha).
    rewrite (M_bind_lift_ok _ _ _ rew)
      by (apply getitem_inr; rewrite lookup_insert_ne by discriminate; exact Hre).
    apply M_bind_raise. exact Hloop. }
  destruct w as [|[|[|w]]]; [| | |lia].
  - exists []. split; [|split; [reflexivity|]].
    + destruct (Hpre [] (inl IndexError)) as [H|[bs H]]; [|exact H|discriminate].
      simpl. apply M_bind_raise.
      apply (agent_batch_narrow_raises _ _ _ T); [assumption|assumption|lia|lia].
    + intros e He. apply elem_of_nil in He. contradiction.
  - destruct (agent_batch_narrow_ok policy sample_batch rewards T 1 rows dones 0 [])
      as (r0 & b0 & H0); [assumption..|lia|lia|].
    exists [ComputeAdvantages r0 0]. split; [|split; [reflexivity|]].
    + destruct (Hpre [ComputeAdvantages r0 0] (inl IndexError)) as [H|[bs H]];
        [|exact H|discriminate].
      simpl. unfold mbind, M_bind. rewrite H0. cbv beta iota.
      rewrite (agent_batch_narrow_raises _ _ _ T) by (assumption || lia).
      reflexivity.
    + intros e He. repeat (apply elem_of_cons in He as [->|He]; [eauto|]).
      apply elem_of_nil in He. contradiction.
  - destruct (agent_batch_narrow_ok policy sample_batch rewards T 2 rows dones 0 [])
      as (r0 & b0 & H0); [assumption..|lia|lia|].
    destruct (agent_batch_narrow_ok policy sample_batch rewards T 2 rows dones 1
                ([] ++ [ComputeAdvantages r0 0]))
      as (r1 & b1 & H1); [assumption..|lia|lia|].
    exists [ComputeAdvantages r0 0; ComputeAdvantages r1 0].
    split; [|split; [reflexivity|]].
    + destruct (Hpre [ComputeAdvantages r0 0; ComputeAdvantages r1 0] (inl IndexError))
        as [H|[bs H]]; [|exact H|discriminate].
      simpl. unfold mbind, M_bind. rewrite H0. cbv beta iota. rewrite H1. cbv beta iota.
      rewrite (agent_batch_narrow_raises _ _ _ T) by (assumption || lia).
      reflexivity.
    + intros e He. repeat (apply elem_of_cons in He as [->|He]; [eauto|]).
      apply elem_of_nil in He. contradiction.
Qed.

(** X16.  The number of value slots is not checked before the arithmetic.
    When the VF_PREDS column of an otherwise well-formed, completed segment
    has [w < 3] slots, the postprocessor raises [IndexError] only at the
    first agent without a slot: by then [compute_advantages] has been called
    for each of the [w] agents before it. *)
Theorem narrow_values_fail_late policy (sample_batch : SampleBatch) rewards T w rows dones :
  well_formed_segment policy sample_batch rewards T →
  advantages_total compute_advantages (config policy) T →
  sample_batch !! DONES = Some dones → last_truth dones = inr true →
  (w < 3)%nat → length rows = T →
  ∃ log,
    run (compute_gae_for_sample_batch compute_advantages policy
           (<[VF_PREDS := Float2 w rows]> sample_batch)) = (log, inl IndexError) ∧
    length log = w ∧
    ∀ e, e ∈ log → ∃ rollout, e = ComputeAdvantages rollout 0.
Proof. apply compute_gae_narrow. Qed.

End PostprocessorProperties.

Lemma sample_rewards_deserialised :
  decomposed_rewards (Infos [sample_info 1 2 3; sample_info 4 5 6])
  = inr (Some sample_rewards).
Proof. vm_compute. reflexivity. Qed.

Lemma wide_segment_well_formed :
  well_formed_segment (sample_policy true) wide_segment (Some sample_rewards) 2.
Proof.
  constructor.
  - simpl. intros j Hj. lia.
  - eexists. vm_compute. reflexivity.
  - eexists. vm_compute. reflexivity.
  - eexists _, _. vm_compute. reflexivity.
  - eexists _, _. split; [vm_compute; reflexivity|]. split; [lia|reflexivity].
  - exists (Bool1 [false; true]), true.
    split; [vm_compute; reflexivity|]. split; [reflexivity|discriminate].
  - exists (Infos [sample_info 1 2 3; sample_info 4 5 6]).
    split; [vm_compute; reflexivity|].
    split; [exact sample_rewards_deserialised|].
    intros [|[|[|i]]] Hi; try lia; eexists; (split; [vm_compute; reflexivity|reflexivity]).
Qed.

Lemma sample_segment_well_formed (done : bool) :
  well_formed_segment (sample_policy true) (sample_segment done) (Some sample_rewards) 2.
Proof.
  constructor.
  - simpl. intros j Hj. lia.
  - eexists. vm_compute. reflexivity.
  - eexists. vm_compute. reflexivity.
  - eexists _, _. vm_compute. reflexivity.
  - eexists _, _. split; [vm_compute; reflexivity|]. split; [lia|reflexivity].
  - exists (Bool1 [false; done]), done.
    split; [destruct done; vm_compute; reflexivity|].
    split; [reflexivity|]. intros _. split; [reflexivity|simpl; lia].
  - exists (Infos [sample_info 1 2 3; sample_info 4 5 6]).
    split; [destruct done; vm_compute; reflexivity|].
    split; [exact sample_rewards_deserialised|].
    intros [|[|[|i]]] Hi; try lia; eexists; (split; [vm_compute; reflexivity|reflexivity]).
Qed.




Lemma postprocess_requires_witness :
  ∃ w rows, sample_segment false !! VF_PREDS = Some (Float2 w rows) ∧ (3 ≤ w)%nat.
Proof.
  destruct (compute_gae_ok compute_advantages_spec (sample_policy true)
              (sample_segment false) (Some sample_rewards) 2
              (sample_segment_well_formed false)
              (compute_advantages_spec_total _ _)) as (log & out & E).
  destruct (postprocess_requires _ _ _ _ _ E) as (_ & _ & _ & _ & _ & H & _).
  exact H.
Defined.

Lemma truncated_without_gae_raises_witness :
  ∃ e, run (compute_gae_for_sample_batch compute_advantages_spec
              (sample_policy false) (sample_segment false)) = ([], inl e).
Proof.
  apply (truncated_without_gae_raises compute_advantages_spec (sample_policy false)
           (sample_segment false) (Bool1 [false; false]));
    [vm_compute; reflexivity|reflexivity|reflexivity].
Defined.

Lemma rewards_deserialised_witness :
  ∃ c, sample_rewards !! "1" = Some (Float1 c) ∧ c !! 1%nat = Some 5.
Proof.
  destruct (rewards_deserialised _ _ sample_rewards_deserialised)
    as (dicts & Hd & _ & H).
  injection Hd as <-.
  destruct (H "1" (Float1 [2; 5])) as (c & Hc & _ & Ht); [vm_compute; reflexivity|].
  injection Hc as <-.
  destruct (Ht 1%nat (sample_info 4 5 6) eq_refl) as (rd & Hrd & Hz).
  exists [2; 5]. split; reflexivity.
Defined.

Lemma extra_slots_dropped_witness :
  ∃ log out,
    run (compute_gae_for_sample_batch compute_advantages_spec
           (sample_policy true) wide_segment) = (log, inr out) ∧
    out !! VF_PREDS = Some (Float2 3 [[1 # 2; 1 # 3; 1 # 4]; [1 # 5; 1 # 6; 1 # 7]]) ∧
    out !! ACTIONS = Some (Float2 4 [[0; 1; 2; 3]; [1; 0; 1; 0]]).
Proof.
  destruct (extra_slots_dropped compute_advantages_spec (sample_policy true) wide_segment
              (Some sample_rewards) 2 4
              [[1 # 2; 1 # 3; 1 # 4; 1]; [1 # 5; 1 # 6; 1 # 7; 1]])
    as (log & out & Hrun & Hv & Ha);
    [apply wide_segment_well_formed|apply compute_advantages_spec_total
    |vm_compute; reflexivity|].
  exists log, out. split; [exact Hrun|]. split; [exact Hv|].
  rewrite Ha. vm_compute. reflexivity.
Defined.

Lemma rewards_from_infos_witness :
  ∃ log out rows,
    run (compute_gae_for_sample_batch compute_advantages_spec
           (sample_policy true) wide_segment) = (log, inr out) ∧
    out !! REWARDS = Some (Float2 3 rows) ∧ rows !! 1%nat = Some [4; 5; 6].
Proof.
  destruct (rewards_from_infos compute_advantages_spec (sample_policy true) wide_segment
              [sample_info 1 2 3; sample_info 4 5 6] sample_rewards 2)
    as (log & out & rows & Hrun & Hr & _ & Hrows);
    [vm_compute; reflexivity|apply wide_segment_well_formed
    |apply compute_advantages_spec_total|].
  exists log, out, rows. split; [exact Hrun|]. split; [exact Hr|].
  destruct (Hrows 1%nat (sample_info 4 5 6) eq_refl)
    as (rd & x0 & x1 & x2 & Hrd & H0 & H1 & H2 & Hrow).
  vm_compute in Hrd. injection Hrd as <-.
  vm_compute in H0, H1, H2. injection H0 as <-. injection H1 as <-. injection H2 as <-.
  exact Hrow.
Defined.


Lemma narrow_values_fail_late_witness :
  ∃ log,
    run (compute_gae_for_sample_batch compute_advantages_spec (sample_policy true)
           (<[VF_PREDS := Float2 2 [[1 # 2; 1 # 3]; [1 # 5; 1 # 6]]]> (sample_segment true)))
    = (log, inl IndexError) ∧
    length log = 2%nat.
Proof.
  destruct (narrow_values_fail_late compute_advantages_spec (sample_policy true)
              (sample_segment true) (Some sample_rewards) 2 2
              [[1 # 2; 1 # 3]; [1 # 5; 1 # 6]] (Bool1 [false; true]))
    as (log & Hrun & Hlen & _);
    [apply sample_segment_well_formed|apply compute_advantages_spec_total
    |vm_compute; reflexivity|reflexivity|lia|reflexivity|].
  exists log. split; assumption.
Defined.

(** ** The KL coefficient over many training steps *)

Section Binary64Drift.

Import Binary64.

Lemma float_update_kl_high self kl :
  less (mul (dyadic 1 1) (kl_target self)) kl = true →
  kl_coeff (fst (update_kl self kl)) = mul (kl_coeff self) (dyadic 3 (-1)).
Proof. intros H. unfold update_kl. cbv zeta. rewrite H. reflexivity. Qed.

Lemma float_update_kl_low self kl :
  less (mul (dyadic 1 1) (kl_target self)) kl = false →
  less kl (mul (dyadic 1 (-1)) (kl_target self)) = true →
  kl_coeff (fst (update_kl self kl)) = mul (kl_coeff self) (dyadic 1 (-1)).
Proof. intros H1 H2. unfold update_kl. cbv zeta. rewrite H1, H2. reflexivity. Qed.

Lemma float_update_kl_band self kl :
  less (mul (dyadic 1 1) (kl_target self)) kl = false →
  less kl (mul (dyadic 1 (-1)) (kl_target self)) = false →
  fst (update_kl self kl) = self.
Proof. intros H1 H2. unfold update_kl. cbv zeta. rewrite H1, H2. reflexivity. Qed.

Lemma float_update_kl_steps_iter self kls (m : float) :
  Forall (λ kl, ∀ c, kl_coeff (fst (update_kl {| kl_coeff := c;
                                                 kl_target := kl_target self |} kl))
                     = mul c m) kls →
  kl_coeff (update_kl_steps self kls)
  = Nat.iter (length kls) (λ c, mul c m) (kl_coeff self).
Proof.
  induction kls as [|kl kls IH] using rev_ind; intros H; [reflexivity|].
  apply Forall_app in H as [H Hkl]. apply Forall_cons in Hkl as [Hkl _].
  rewrite float_update_kl_steps_snoc, length_app, Nat.add_1_r.
  specialize (IH H). pose proof (float_update_kl_steps_target self kls) as Ht.
  destruct (update_kl_steps self kls) as [c t]. simpl in Ht, IH. subst t.
  rewrite Hkl, IH. reflexivity.
Qed.

Lemma float_update_kl_steps_band self kls :
  Forall (λ kl, less (mul (dyadic 1 1) (kl_target self)) kl = false ∧
                less kl (mul (dyadic 1 (-1)) (kl_target self)) = false) kls →
  update_kl_steps self kls = self.
Proof.
  induction kls as [|kl kls IH] using rev_ind; intros H; [reflexivity|].
  apply Forall_app in H as [H Hkl]. apply Forall_cons in Hkl as [[H1 H2] _].
  rewrite float_update_kl_steps_snoc, (IH H).
  apply float_update_kl_band; assumption.
Qed.

(** X17.  The coefficient is never clamped and never reset.  Over [n]
    training steps whose measured KL is always above twice the target it is
    multiplied [n] times by 1.5, each product rounded to a double; over [n]
    steps whose measured KL is always below half the target (and not above
    twice the target) it is multiplied [n] times by 0.5; over any number of
    steps whose measured KL passes neither test the controller is left as it
    was; and a coefficient that is a zero, an infinity or a NaN is the same
    after any sequence of steps. *)
Theorem kl_coeff_drift (self : KLCoeffMixin) (kls : list float) :
  (Forall (λ kl, less (mul (dyadic 1 1) (kl_target self)) kl = true) kls →
     kl_coeff (update_kl_steps self kls)
     = Nat.iter (length kls) (λ c, mul c (dyadic 3 (-1))) (kl_coeff self)) ∧
  (Forall (λ kl, less (mul (dyadic 1 1) (kl_target self)) kl = false ∧
                 less kl (mul (dyadic 1 (-1)) (kl_target self)) = true) kls →
     kl_coeff (update_kl_steps self kls)
     = Nat.iter (length kls) (λ c, mul c (dyadic 1 (-1))) (kl_coeff self)) ∧
  (Forall (λ kl, less (mul (dyadic 1 1) (kl_target self)) kl = false ∧
                 less kl (mul (dyadic 1 (-1)) (kl_target self)) = false) kls →
     update_kl_steps self kls = self) ∧
  (match kl_coeff self with S754_finite _ _ _ => False | _ => True end →
     kl_coeff (update_kl_steps self kls) = kl_coeff self).
Proof.
  split; [|split; [|split]].
  - intros H. apply float_update_kl_steps_iter.
    eapply Forall_impl; [exact H|]. intros kl Hkl c.
    apply float_update_kl_high. exact Hkl.
  - intros H. apply float_update_kl_steps_iter.
    eapply Forall_impl; [exact H|]. intros kl [H1 H2] c.
    apply float_update_kl_low; assumption.
  - apply float_update_kl_steps_band.
  - intros H.
    apply (float_update_kl_steps_invariant (λ x, x = kl_coeff self)); [|reflexivity].
    intros x my ey ->. apply mul_not_finite. exact H.
Qed.

(** From 0.2 with target 0.01: 0.45000000000000007 after two steps with a
    high KL, infinity after 1755 of them, zero after 1073 steps with a low
    KL, 0.2 after steps in the band; and from infinity, infinity. *)
Lemma kl_coeff_drift_witness :
  kl_coeff (update_kl_steps {| kl_coeff := d0_2; kl_target := d0_01 |} [d0_03; dyadic 1 0])
  = S754_finite false 8106479329266894 (-54) ∧
  kl_coeff (update_kl_steps {| kl_coeff := d0_2; kl_target := d0_01 |}
              (replicate 1755 d0_03))
  = S754_infinity false ∧
  kl_coeff (update_kl_steps {| kl_coeff := d0_2; kl_target := d0_01 |}
              (replicate 1073 d0_001))
  = S754_zero false ∧
  update_kl_steps {| kl_coeff := d0_2; kl_target := d0_01 |} [d0_01; dyadic 5 (-8)]
  = {| kl_coeff := d0_2; kl_target := d0_01 |} ∧
  kl_coeff (update_kl_steps {| kl_coeff := S754_infinity false; kl_target := d0_01 |}
              [d0_001; d0_03])
  = S754_infinity false.
Proof.
  split; [|split; [|split; [|split]]].
  - destruct (kl_coeff_drift {| kl_coeff := d0_2; kl_target := d0_01 |} [d0_03; dyadic 1 0])
      as (H & _).
    rewrite H; [vm_compute; reflexivity|]. repeat constructor.
  - destruct (kl_coeff_drift {| kl_coeff := d0_2; kl_target := d0_01 |}
                (replicate 1755 d0_03)) as (H & _).
    rewrite H; [vm_compute; reflexivity|].
    apply Forall_forall. intros kl Hkl. apply elem_of_replicate in Hkl as [-> _].
    vm_compute. reflexivity.
  - destruct (kl_coeff_drift {| kl_coeff := d0_2; kl_target := d0_01 |}
                (replicate 1073 d0_001)) as (_ & H & _).
    rewrite H; [vm_compute; reflexivity|].
    apply Forall_forall. intros kl Hkl. apply elem_of_replicate in Hkl as [-> _].
    vm_compute. split; reflexivity.
  - destruct (kl_coeff_drift {| kl_coeff := d0_2; kl_target := d0_01 |}
                [d0_01; dyadic 5 (-8)]) as (_ & _ & H & _).
    apply H. repeat constructor.
  - destruct (kl_coeff_drift {| kl_coeff := S754_infinity false; kl_target := d0_01 |}
                [d0_001; d0_03]) as (_ & _ & _ & H).
    apply H. exact I.
Defined.

End Binary64Drift.

(** ** The clipped terms of the loss *)

Lemma clamp_inside (lo hi x : Q) : lo <= x → x <= hi → clamp x lo hi == x.
Proof.
  intros H1 H2. unfold clamp.
  rewrite (Q.max_l _ _ H1). apply Q.min_l. exact H2.
Qed.

Lemma clamp_below (lo hi x : Q) : x <= lo → lo <= hi → clamp x lo hi == lo.
Proof.
  intros H1 H2. unfold clamp.
  rewrite (Q.max_r _ _ H1). apply Q.min_l. exact H2.
Qed.

Lemma clamp_ge (lo hi x : Q) : x <= hi → x <= clamp x lo hi.
Proof.
  intros H. unfold clamp. apply Q.min_glb; [apply Q.le_max_l|exact H].
Qed.

Lemma clamp_le (lo hi x : Q) : lo <= x → clamp x lo hi <= x.
Proof.
  intros H. unfold clamp.
  apply Qle_trans with (Qmax x lo); [apply Q.le_min_l|].
  rewrite (Q.max_l _ _ H). apply Qle_refl.
Qed.

Lemma Qmult_le_neg_l (a x y : Q) : a <= 0 → x <= y → a * y <= a * x.
Proof. intros Ha H. nra. Qed.

(** X18.  The clipping of the surrogate is one-sided.  The objective never
    exceeds the unclipped [advantage * ratio].  With a positive advantage it
    is the unclipped product for every ratio up to [1+ε], however small; with
    a negative advantage it is the unclipped product for every ratio from
    [1-ε] on, however large, and it is constant, [advantage * (1-ε)], for
    every ratio up to [1-ε]. *)
Theorem surrogate_term_one_sided (clip advantage ratio : Q) :
  surrogate_term clip advantage ratio <= advantage * ratio ∧
  (0 <= advantage → ratio <= 1 + clip →
     surrogate_term clip advantage ratio == advantage * ratio) ∧
  (advantage <= 0 → 1 - clip <= ratio →
     surrogate_term clip advantage ratio == advantage * ratio) ∧
  (advantage <= 0 → 0 <= clip → ratio <= 1 - clip →
     surrogate_term clip advantage ratio == advantage * (1 - clip)).
Proof.
  unfold surrogate_term. split; [apply Q.le_min_l|]. split; [|split].
  - intros Ha Hr. apply Q.min_l.
    pose proof (clamp_ge (1 - clip) (1 + clip) ratio Hr). nra.
  - intros Ha Hr. apply Q.min_l.
    apply Qmult_le_neg_l; [exact Ha|]. apply clamp_le. exact Hr.
  - intros Ha Hc Hr.
    rewrite (clamp_below (1 - clip) (1 + clip) ratio Hr) by lra.
    apply Q.min_r. apply Qmult_le_neg_l; assumption.
Qed.

Lemma surrogate_term_one_sided_witness :
  surrogate_term (1 # 5) 2 (1 # 10) == 2 * (1 # 10) ∧
  surrogate_term (1 # 5) (-2) 7 == -2 * 7 ∧
  surrogate_term (1 # 5) (-2) (1 # 10) == -2 * (1 - (1 # 5)).
Proof.
  destruct (surrogate_term_one_sided (1 # 5) 2 (1 # 10)) as (_ & H1 & _).
  destruct (surrogate_term_one_sided (1 # 5) (-2) 7) as (_ & _ & H2 & _).
  destruct (surrogate_term_one_sided (1 # 5) (-2) (1 # 10)) as (_ & _ & _ & H3).
  split; [apply H1; discriminate|].
  split; [apply H2; discriminate|apply H3; discriminate].
Defined.

Lemma Qmax_either (a b : Q) : Qmax a b = a ∨ Qmax a b = b.
Proof. unfold Qmax, GenericMinMax.gmax. destruct (a ?= b); auto. Qed.

Lemma value_loss_lookup (vf_clip : Q) (prev values targets : list Q) (t : nat) (p v g : Q) :
  prev !! t = Some p → values !! t = Some v → targets !! t = Some g →
  value_loss vf_clip prev values targets !! t
  = Some (Qmax ((v - g) ^ 2) ((p + clamp (v - p) (- vf_clip) vf_clip - g) ^ 2)).
Proof.
  intros Hp Hv Hg. unfold value_loss.
  rewrite !lookup_zip_with, Hv, Hp, Hg. reflexivity.
Qed.

Lemma value_loss_length (vf_clip : Q) (prev values targets : list Q) :
  length prev = length values → length targets = length values →
  length (value_loss vf_clip prev values targets) = length values.
Proof.
  intros Hp Hg. unfold value_loss. rewrite !length_zip_with. lia.
Qed.

(** X19.  On columns with one entry per timestep the value loss has one
    entry per timestep, the larger of two squared errors against the value
    target: that of the new prediction, and that of the clipped prediction,
    which is the old prediction plus the change clamped to
    [±vf_clip_param].  The entry is one of the two squared errors, not below
    either of them and not negative; and the clipped prediction is the old
    one plus [vf_clip_param] when the prediction rose by that much or more,
    the old one minus [vf_clip_param] when it fell by that much or more and
    [vf_clip_param] is not negative. *)
Theorem value_loss_pessimistic (vf_clip : Q) (prev values targets : list Q) :
  length prev = length values → length targets = length values →
  length (value_loss vf_clip prev values targets) = length values ∧
  ∀ t p v g,
    prev !! t = Some p → values !! t = Some v → targets !! t = Some g →
    ∃ x,
      value_loss vf_clip prev values targets !! t = Some x ∧
      (x = (v - g) ^ 2 ∨ x = (p + clamp (v - p) (- vf_clip) vf_clip - g) ^ 2) ∧
      (v - g) ^ 2 <= x ∧
      (p + clamp (v - p) (- vf_clip) vf_clip - g) ^ 2 <= x ∧
      0 <= x ∧
      (vf_clip <= v - p → x == Qmax ((v - g) ^ 2) ((p + vf_clip - g) ^ 2)) ∧
      (0 <= vf_clip → v - p <= - vf_clip →
         x == Qmax ((v - g) ^ 2) ((p + - vf_clip - g) ^ 2)).
Proof.
  intros Hlp Hlg. split; [apply value_loss_length; assumption|].
  intros t p v g Hp Hv Hg.
  eexists. split; [apply value_loss_lookup; eassumption|].
  split; [apply Qmax_either|].
  split; [apply Q.le_max_l|]. split; [apply Q.le_max_r|].
  split; [apply Qle_trans with ((v - g) ^ 2); [|apply Q.le_max_l];
          simpl; generalize (v - g); intros q; nra|].
  split.
  - intros Hhi. rewrite (clamp_above (- vf_clip) vf_clip (v - p) Hhi).
    reflexivity.
  - intros Hc Hlo. rewrite (clamp_below (- vf_clip) vf_clip (v - p)) by lra.
    reflexivity.
Qed.

(** Old predictions 0 and 5, new predictions 3 and 1, targets 1 and 2, and a
    clipping range of 1: the clipped predictions are 1 and 4, the losses 4
    and 4. *)
Lemma value_loss_pessimistic_witness :
  length (value_loss 1 [0; 5] [3; 1] [1; 2]) = 2%nat ∧
  (∃ x, value_loss 1 [0; 5] [3; 1] [1; 2] !! 0%nat = Some x ∧ x == 4) ∧
  (∃ x, value_loss 1 [0; 5] [3; 1] [1; 2] !! 1%nat = Some x ∧ x == 4).
Proof.
  destruct (value_loss_pessimistic 1 [0; 5] [3; 1] [1; 2] eq_refl eq_refl) as [Hlen H].
  split; [exact Hlen|]. split.
  - destruct (H 0%nat 0 3 1 eq_refl eq_refl eq_refl) as (x & Hx & _ & _ & _ & _ & Hhi & _).
    exists x. split; [exact Hx|]. rewrite Hhi; [reflexivity|discriminate].
  - destruct (H 1%nat 5 1 2 eq_refl eq_refl eq_refl) as (x & Hx & _ & _ & _ & _ & _ & Hlo).
    exists x. split; [exact Hx|]. rewrite Hlo; [reflexivity|discriminate|discriminate].
Defined.
